(** * Jetton minter wrapper: cell codec of [wrappers/Jetton.ts]

    A shallow embedding of the TypeScript wrapper of the jetton minter:
    the snake encoder and the metadata dictionary of
    [buildTokenMetadataCell], the message frames of [mintBody],
    [storeJettonInitial] and [storeTokenBurnNotification], and the body
    selection of [Jetton.send].

    Builders are mutable JavaScript objects.  They live in an explicit
    store and are named by their index in it, so that the two names
    [rootCell] and [currentCell] of the snake loop may alias the same
    builder.  Finished cells are immutable values. *)

From Stdlib Require Import ZArith NArith Lia.
From Stdlib.Strings Require Import Byte Ascii String.
From stdpp Require Import base numbers list.

#[local] Set Warnings "-register-all".

Local Open Scope Z_scope.

(** ** Bits and bytes *)

Definition Buffer := list byte.

(** [uint_bits n v]: the [n] low bits of [v], most significant first. *)
Fixpoint uint_bits (n : nat) (v : Z) : list bool :=
  match n with
  | O => []
  | S n' => Z.testbit v (Z.of_nat n') :: uint_bits n' v
  end.

Definition byte_bits (b : byte) : list bool :=
  uint_bits 8 (Z.of_N (Byte.to_N b)).

Fixpoint buffer_bits (src : Buffer) : list bool :=
  match src with
  | [] => []
  | b :: rest => byte_bits b ++ buffer_bits rest
  end.

Definition byte_of_N (n : N) : byte :=
  match Byte.of_N (n mod 256)%N with
  | Some b => b
  | None => x00
  end.

(** Reading back: a big-endian bit string as a number, and a bit string
    cut into bytes (a trailing group of fewer than 8 bits is dropped). *)
Definition bits_uint (bs : list bool) : Z :=
  fold_left (fun acc (b : bool) => 2 * acc + (if b then 1 else 0)) bs 0.

Fixpoint bits_buffer (bs : list bool) : Buffer :=
  match bs with
  | b7 :: b6 :: b5 :: b4 :: b3 :: b2 :: b1 :: b0 :: rest =>
      byte_of_N (Z.to_N (bits_uint [b7; b6; b5; b4; b3; b2; b1; b0]))
        :: bits_buffer rest
  | _ => []
  end.

(** ** Cells

    A finished cell of [@ton/core]: a bit string of at most 1023 bits and
    at most 4 references to other cells. *)

Inductive Cell : Type :=
  mkCell (bits : list bool) (refs : list Cell).

Definition cell_bits (c : Cell) : list bool :=
  match c with mkCell bits _ => bits end.

Definition cell_refs (c : Cell) : list Cell :=
  match c with mkCell _ refs => refs end.

Definition CELL_MAX_BITS : nat := 1023.
Definition CELL_MAX_REFS : nat := 4.

(** ** JavaScript strings

    A JavaScript string is its sequence of UTF-16 code units, each below
    [2^16]. *)

Definition JSString := list N.

(** A literal of the source, as a JavaScript string. *)
Definition js (s : string) : JSString :=
  map N_of_ascii (list_ascii_of_string s).

(** ** Errors thrown by the wrapper and by the library *)

Inductive Error : Type :=
| UnsupportedOnchainKey (k : JSString)  (* Error(`Unsupported onchain key: ${k}`) *)
| InvalidMessageType                    (* Error("Invalid message type") *)
| BitBuilderOverflow                    (* the bit writer is full *)
| TooManyReferences                     (* storeRef on a builder with 4 references *)
| BitLengthTooSmall                     (* value outside the range of the field *)
| NegativeValue                         (* storeCoins of a negative amount *)
| BitsOverflow                          (* new Cell with more than 1023 bits *)
| InvalidNumberOfReferences             (* new Cell with more than 4 references *)
| InvalidKey                            (* dictionary key shorter than the key width *)
| InternalInconsistency                 (* dictionary tree with an empty branch *)
| InvalidArgument                       (* storeRef of a value that is no cell or builder *)
| InvalidAddress                        (* storeAddress of a value that is no address *)
| NotAnInteger                          (* BigInt(value) throws *)
| NoSuchBuilder                         (* a name that is not in the store *)
| OutOfFuel.                            (* iteration bound of the model reached *)

Inductive Result (A : Type) : Type :=
| Ok (a : A)
| Err (e : Error).
Arguments Ok {A} a.
Arguments Err {A} e.

(** ** The builder store *)

Record BuilderState : Type := mkBuilder {
  b_bits : list bool;
  b_refs : list Cell
}.

Abbreviation Ref := nat.
Abbreviation Heap := (list BuilderState).

Definition M (A : Type) : Type := Heap -> Result (A * Heap).

Definition ret {A} (a : A) : M A := fun h => Ok (a, h).

Definition bind {A B} (m : M A) (k : A -> M B) : M B :=
  fun h =>
    match m h with
    | Ok (a, h') => k a h'
    | Err e => Err e
    end.

Definition throw {A} (e : Error) : M A := fun _ => Err e.

#[global] Instance M_ret : MRet M := @ret.
#[global] Instance M_bind : MBind M := fun A B k m => bind m k.

(** The value a computation returns, without the final store. *)
Definition outcome {A} (r : Result (A * Heap)) : Result A :=
  match r with
  | Ok (a, _) => Ok a
  | Err e => Err e
  end.

(** ** Builder primitives of [@ton/core] *)

(** [new Builder()] and [beginCell()]: a fresh empty builder. *)
Definition newBuilder : M Ref :=
  fun h => Ok (length h, h ++ [mkBuilder [] []]).

Definition beginCell : M Ref := newBuilder.

Definition getBuilder (b : Ref) : M BuilderState :=
  fun h =>
    match h !! b with
    | Some s => Ok (s, h)
    | None => Err NoSuchBuilder
    end.

Definition putBuilder (b : Ref) (s : BuilderState) : M unit :=
  fun h => Ok (tt, <[b := s]> h).

(** Appending bits.  In the library the 1023-bit limit is enforced when
    the cell is made; here the write that passes it already raises the
    error, so a run without error here is one without error there. *)
Definition writeBits (bs : list bool) (b : Ref) : M unit :=
  s ← getBuilder b;
  if decide (length (b_bits s) + length bs ≤ CELL_MAX_BITS)%nat
  then putBuilder b (mkBuilder (b_bits s ++ bs) (b_refs s))
  else throw BitBuilderOverflow.

Definition storeBit (v : bool) (b : Ref) : M unit := writeBits [v] b.

(** [storeUint(value, bits)] *)
Definition storeUint (value : Z) (bits : nat) (b : Ref) : M unit :=
  if decide (0 ≤ value < 2 ^ Z.of_nat bits)
  then writeBits (uint_bits bits value) b
  else throw BitLengthTooSmall.

(** [storeInt(value, bits)]: sign bit, then the magnitude on [bits - 1]
    bits; one-bit and zero-bit fields are corner cases of the library. *)
Definition storeInt (value : Z) (bits : nat) (b : Ref) : M unit :=
  match bits with
  | O => if decide (value = 0) then ret tt else throw BitLengthTooSmall
  | S O =>
      if decide (value = -1 ∨ value = 0)
      then storeBit (bool_decide (value = -1)) b
      else throw BitLengthTooSmall
  | S bits' =>
      let vBits := 2 ^ Z.of_nat bits' in
      if decide (- vBits ≤ value < vBits)
      then
        if decide (value < 0)
        then storeBit true b;; storeUint (vBits + value) bits' b
        else storeBit false b;; storeUint value bits' b
      else throw BitLengthTooSmall
  end.

(** [storeBuffer(src)] *)
Definition storeBuffer (src : Buffer) (b : Ref) : M unit :=
  writeBits (buffer_bits src) b.

(** [endCell()]: the cell holding what the builder holds now.  The
    builder stays usable; later writes do not reach the cell. *)
Definition endCell (b : Ref) : M Cell :=
  s ← getBuilder b;
  if decide (length (b_bits s) ≤ CELL_MAX_BITS)%nat
  then
    if decide (length (b_refs s) ≤ CELL_MAX_REFS)%nat
    then mret (mkCell (b_bits s) (b_refs s))
    else throw InvalidNumberOfReferences
  else throw BitsOverflow.

(** [storeRef(cell)] with a finished cell. *)
Definition storeRef (c : Cell) (b : Ref) : M unit :=
  s ← getBuilder b;
  if decide (CELL_MAX_REFS ≤ length (b_refs s))%nat
  then throw TooManyReferences
  else putBuilder b (mkBuilder (b_bits s) (b_refs s ++ [c])).

(** [storeRef(builder)] with a builder: the library checks the room for
    a reference, finishes the argument at once ([cell.endCell()]) and
    stores the resulting cell. *)
Definition storeRefBuilder (child : Ref) (b : Ref) : M unit :=
  s ← getBuilder b;
  if decide (CELL_MAX_REFS ≤ length (b_refs s))%nat
  then throw TooManyReferences
  else
    c ← endCell child;
    putBuilder b (mkBuilder (b_bits s) (b_refs s ++ [c])).

(** [storeCoins(amount)]: a 4-bit byte count, then the amount on that
    many bytes ([writeVarUint(amount, 4)]). *)
Definition storeVarUint (value : Z) (bits : nat) (b : Ref) : M unit :=
  if decide (value < 0) then throw NegativeValue
  else if decide (value = 0) then storeUint 0 bits b
  else
    let sizeBytes := (Z.log2 value + 1 + 7) / 8 in
    storeUint sizeBytes bits b;;
    storeUint value (Z.to_nat (sizeBytes * 8)) b.

Definition storeCoins (amount : Z) (b : Ref) : M unit :=
  storeVarUint amount 4 b.

(** An internal address: workchain and 32-byte account hash. *)
Record Address : Type := mkAddress {
  workChain : Z;
  hash : Buffer
}.

(** [storeAddress(address)]: [null] is the two-bit tag 00; an internal
    address is the tag 10, the anycast bit 0, the workchain as a signed
    byte and the hash. *)
Definition storeAddress (address : option Address) (b : Ref) : M unit :=
  match address with
  | None => storeUint 0 2 b
  | Some a =>
      storeUint 2 2 b;;
      storeUint 0 1 b;;
      storeInt (workChain a) 8 b;;
      storeBuffer (hash a) b
  end.

(** [builder.availableBits] *)
Definition availableBits (b : Ref) : M nat :=
  s ← getBuilder b;
  mret (CELL_MAX_BITS - length (b_bits s))%nat.

(** ** Text encodings of [Buffer.from] *)

Definition is_high_surrogate (c : N) : bool :=
  ((0xD800 <=? c) && (c <=? 0xDBFF))%N.

Definition is_low_surrogate (c : N) : bool :=
  ((0xDC00 <=? c) && (c <=? 0xDFFF))%N.

Definition utf8_of_code_point (cp : N) : Buffer :=
  if (cp <? 0x80)%N then [byte_of_N cp]
  else if (cp <? 0x800)%N then
    [byte_of_N (N.lor 0xC0 (N.shiftr cp 6));
     byte_of_N (N.lor 0x80 (N.land cp 0x3F))]
  else if (cp <? 0x10000)%N then
    [byte_of_N (N.lor 0xE0 (N.shiftr cp 12));
     byte_of_N (N.lor 0x80 (N.land (N.shiftr cp 6) 0x3F));
     byte_of_N (N.lor 0x80 (N.land cp 0x3F))]
  else
    [byte_of_N (N.lor 0xF0 (N.shiftr cp 18));
     byte_of_N (N.lor 0x80 (N.land (N.shiftr cp 12) 0x3F));
     byte_of_N (N.lor 0x80 (N.land (N.shiftr cp 6) 0x3F));
     byte_of_N (N.lor 0x80 (N.land cp 0x3F))].

(** [Buffer.from(s, "utf8")]: surrogate pairs are joined, a lone
    surrogate becomes U+FFFD. *)
Fixpoint utf8_encode (s : JSString) : Buffer :=
  match s with
  | [] => []
  | c :: rest =>
      if is_high_surrogate c then
        match rest with
        | lo :: rest' =>
            if is_low_surrogate lo
            then utf8_of_code_point
                   (0x10000 + (c - 0xD800) * 0x400 + (lo - 0xDC00))%N
                   ++ utf8_encode rest'
            else utf8_of_code_point 0xFFFD ++ utf8_encode rest
        | [] => utf8_of_code_point 0xFFFD
        end
      else if is_low_surrogate c
      then utf8_of_code_point 0xFFFD ++ utf8_encode rest
      else utf8_of_code_point c ++ utf8_encode rest
  end.

(** [Buffer.from(s, "ascii")]: as ["latin1"], the low byte of each code
    unit. *)
Definition latin1_encode (s : JSString) : Buffer := map byte_of_N s.

(** [storeStringTail(src)]: the UTF-8 bytes of [src] fill the whole
    bytes left in the builder; what does not fit goes to a fresh cell
    stored as a reference, and so on ([writeBuffer] of the library).
    [fuel] bounds the number of cells of the chain. *)
Fixpoint writeBuffer (fuel : nat) (src : Buffer) (builder : Ref) : M unit :=
  if decide (0 < length src)%nat then
    match fuel with
    | O => throw OutOfFuel
    | S fuel' =>
        avail ← availableBits builder;
        let bytes := (avail / 8)%nat in
        if decide (bytes < length src)%nat then
          let a := take bytes src in
          let t := drop bytes src in
          storeBuffer a builder;;
          bb ← beginCell;
          writeBuffer fuel' t bb;;
          c ← endCell bb;
          storeRef c builder
        else storeBuffer src builder
    end
  else mret tt.

Definition storeStringTail (src : JSString) (b : Ref) : M unit :=
  let buf := utf8_encode src in
  writeBuffer (S (length buf)) buf b.

(** ** SHA-256 (FIPS 180-4), the digest behind [sha256] *)

Module SHA256.
Local Open Scope N_scope.

Definition w32 (x : N) : N := x mod 2 ^ 32.
Definition add32 (x y : N) : N := w32 (x + y).
Definition rotr (n x : N) : N :=
  N.lor (N.shiftr x n) (w32 (N.shiftl x (32 - n))).
Definition shr (n x : N) : N := N.shiftr x n.
Definition not32 (x : N) : N := N.lxor x 0xFFFFFFFF.

Definition Ch (x y z : N) : N := N.lxor (N.land x y) (N.land (not32 x) z).
Definition Maj (x y z : N) : N :=
  N.lxor (N.lxor (N.land x y) (N.land x z)) (N.land y z).
Definition Sigma0 (x : N) : N := N.lxor (N.lxor (rotr 2 x) (rotr 13 x)) (rotr 22 x).
Definition Sigma1 (x : N) : N := N.lxor (N.lxor (rotr 6 x) (rotr 11 x)) (rotr 25 x).
Definition sigma0 (x : N) : N := N.lxor (N.lxor (rotr 7 x) (rotr 18 x)) (shr 3 x).
Definition sigma1 (x : N) : N := N.lxor (N.lxor (rotr 17 x) (rotr 19 x)) (shr 10 x).

(** The constants are fractional parts of roots of the first primes:
    [K], 32 bits of the cube roots of the first 64 primes, and [H0], 32
    bits of the square roots of the first 8. *)
Definition is_prime (n : N) : bool :=
  (2 <=? n) && forallb (fun d => negb (n mod N.of_nat d =? 0)) (seq 2 (N.to_nat n - 2)).

Definition primes (count : nat) : list N :=
  take count (List.filter is_prime (map N.of_nat (seq 2 400))).

(** The largest [r] below [2 ^ bits] with [r ^ k <= target], bit by bit. *)
Fixpoint root_search (k : N) (bits : nat) (target r : N) : N :=
  match bits with
  | O => r
  | S b =>
      let r' := r + 2 ^ N.of_nat b in
      if r' ^ k <=? target then root_search k b target r'
      else root_search k b target r
  end.

Definition frac_root (k p : N) : N :=
  w32 (root_search k 40 (p * 2 ^ (32 * k)) 0).

Definition K : list N :=
  Eval vm_compute in map (frac_root 3) (primes 64).

Record State : Type := mkState {
  ha : N; hb : N; hc : N; hd : N; he : N; hf : N; hg : N; hh : N
}.

Definition H0 : State :=
  Eval vm_compute in
  match map (frac_root 2) (primes 8) with
  | [a; b; c; d; e; f; g; h] => mkState a b c d e f g h
  | _ => mkState 0 0 0 0 0 0 0 0
  end.

(** Padding: the bit 1, zeros up to 56 modulo 64 bytes, the bit length
    on 8 bytes. *)
Definition be_bytes (n : nat) (v : N) : list N :=
  map (fun i => N.shiftr v (8 * N.of_nat i) mod 256) (rev (seq 0 n)).

Definition pad (msg : list N) : list N :=
  let len := length msg in
  let zeros := ((64 - (len + 9) mod 64) mod 64)%nat in
  msg ++ [0x80] ++ repeat 0 zeros ++ be_bytes 8 (8 * N.of_nat len).

Definition be_word (bs : list N) : N :=
  fold_left (fun acc b => acc * 256 + b) bs 0.

Fixpoint words (n : nat) (bs : list N) : list N :=
  match n with
  | O => []
  | S n' => be_word (take 4 bs) :: words n' (drop 4 bs)
  end.

Fixpoint blocks (n : nat) (bs : list N) : list (list N) :=
  match n with
  | O => []
  | S n' => words 16 (take 64 bs) :: blocks n' (drop 64 bs)
  end.

Fixpoint schedule (n : nat) (w : list N) : list N :=
  match n with
  | O => w
  | S n' =>
      let t := length w in
      let x := add32 (add32 (sigma1 (nth (t - 2) w 0)) (nth (t - 7) w 0))
                     (add32 (sigma0 (nth (t - 15) w 0)) (nth (t - 16) w 0)) in
      schedule n' (w ++ [x])
  end.

Definition round (s : State) (kw : N * N) : State :=
  let T1 := add32 (add32 (add32 (hh s) (Sigma1 (he s)))
                         (add32 (Ch (he s) (hf s) (hg s)) (fst kw))) (snd kw) in
  let T2 := add32 (Sigma0 (ha s)) (Maj (ha s) (hb s) (hc s)) in
  mkState (add32 T1 T2) (ha s) (hb s) (hc s) (add32 (hd s) T1) (he s) (hf s) (hg s).

Definition compress (s : State) (block : list N) : State :=
  let s' := fold_left round (combine K (schedule 48 block)) s in
  mkState (add32 (ha s) (ha s')) (add32 (hb s) (hb s')) (add32 (hc s) (hc s'))
          (add32 (hd s) (hd s')) (add32 (he s) (he s')) (add32 (hf s) (hf s'))
          (add32 (hg s) (hg s')) (add32 (hh s) (hh s')).

Definition word_bytes (w : N) : Buffer :=
  [byte_of_N (N.shiftr w 24); byte_of_N (N.shiftr w 16);
   byte_of_N (N.shiftr w 8); byte_of_N w].

Definition state_bytes (s : State) : Buffer :=
  word_bytes (ha s) ++ word_bytes (hb s) ++ word_bytes (hc s) ++ word_bytes (hd s)
  ++ word_bytes (he s) ++ word_bytes (hf s) ++ word_bytes (hg s) ++ word_bytes (hh s).

Definition digest (msg : Buffer) : Buffer :=
  let padded := pad (map Byte.to_N msg) in
  state_bytes (fold_left compress (blocks (length padded / 64) padded) H0).
End SHA256.

(** The [sha256] helper of the wrapper: the digest of the UTF-8 bytes
    of a string. *)
Definition sha256 (str : JSString) : Buffer :=
  SHA256.digest (utf8_encode str).

(** ** Dictionaries of [@ton/core]

    [Dictionary<Buffer, Cell>] keeps a JavaScript [Map] from the bytes of
    the key to the value, in insertion order; [set] on a key that is
    present replaces its value in place. *)

#[global] Instance byte_eq_dec : EqDecision byte.
Proof.
  refine (fun a b => cast_if (decide (Byte.to_N a = Byte.to_N b))).
  - assert (Some a = Some b) as Hab
      by (rewrite <- !Byte.of_to_N; f_equal; assumption).
    congruence.
  - congruence.
Defined.

Section AssocMap.
Context {K V : Type} `{EqDecision K}.

Fixpoint map_set (k : K) (v : V) (m : list (K * V)) : list (K * V) :=
  match m with
  | [] => [(k, v)]
  | (k', v') :: rest =>
      if decide (k' = k) then (k, v) :: rest
      else (k', v') :: map_set k v rest
  end.

Fixpoint map_get (k : K) (m : list (K * V)) : option V :=
  match m with
  | [] => None
  | (k', v') :: rest => if decide (k' = k) then Some v' else map_get k rest
  end.
End AssocMap.

Definition Dictionary := list (Buffer * Cell).

Definition Dictionary_empty : Dictionary := [].

Definition dict_set (k : Buffer) (v : Cell) (d : Dictionary) : Dictionary :=
  map_set k v d.

Definition dict_get (k : Buffer) (d : Dictionary) : option Cell :=
  map_get k d.

(** *** Serialisation ([serializeDict]): the dictionary as a binary
    prefix tree ([HashmapE]), one cell per edge. *)

Inductive Edge : Type :=
  mkEdge (label : list bool) (node : Node)
with Node : Type :=
| Leaf (value : Cell)
| Fork (left right : Edge).

Fixpoint commonPrefix (a b : list bool) : list bool :=
  match a, b with
  | x :: a', y :: b' => if Bool.eqb x y then x :: commonPrefix a' b' else []
  | _, _ => []
  end.

Definition findCommonPrefix (src : list (list bool)) : list bool :=
  match src with
  | [] => []
  | k :: rest => fold_left commonPrefix rest k
  end.

(** [buildEdge]/[buildNode]/[forkMap]: keys are kept without the bits
    already consumed; [fuel] bounds the depth by the key width. *)
Fixpoint buildEdge (fuel : nat) (src : list (list bool * Cell)) : Result Edge :=
  match fuel with
  | O => Err OutOfFuel
  | S fuel' =>
      match src with
      | [] => Err InternalInconsistency
      | _ =>
          let label := findCommonPrefix (map fst src) in
          let src' := map (fun kv => (drop (length label) (fst kv), snd kv)) src in
          match src' with
          | [(_, v)] => Ok (mkEdge label (Leaf v))
          | _ =>
              let side (bit : bool) :=
                map (fun kv => (drop 1 (fst kv), snd kv))
                    (filter (fun kv => head (fst kv) = Some bit) src') in
              match side false, side true with
              | [], _ | _, [] => Err InternalInconsistency
              | l, r =>
                  match buildEdge fuel' l, buildEdge fuel' r with
                  | Ok le, Ok re => Ok (mkEdge label (Fork le re))
                  | Err e, _ | _, Err e => Err e
                  end
              end
          end
      end
  end.

Definition lenLen (keyLength : nat) : nat :=
  Z.to_nat (Z.log2_up (Z.of_nat keyLength + 1)).

Definition labelShortLength (src : list bool) : nat :=
  (1 + length src + 1 + length src)%nat.

Definition labelLongLength (src : list bool) (keyLength : nat) : nat :=
  (1 + 1 + lenLen keyLength + length src)%nat.

Definition labelSameLength (keyLength : nat) : nat :=
  (1 + 1 + 1 + lenLen keyLength)%nat.

Definition isSame (src : list bool) : bool :=
  match src with
  | [] => true
  | b :: rest => forallb (Bool.eqb b) rest
  end.

Inductive LabelType : Type := short | long | same.

Definition detectLabelType (src : list bool) (keyLength : nat) : LabelType :=
  let kind := short in
  let kindLength := labelShortLength src in
  let longLength := labelLongLength src keyLength in
  let '(kind, kindLength) :=
    if (longLength <? kindLength)%nat then (long, longLength)
    else (kind, kindLength) in
  if isSame src
  then if (labelSameLength keyLength <? kindLength)%nat then same else kind
  else kind.

Definition writeLabelShort (src : list bool) (to : Ref) : M unit :=
  storeBit false to;;
  writeBits (repeat true (length src)) to;;
  storeBit false to;;
  if decide (0 < length src)%nat
  then storeUint (bits_uint src) (length src) to
  else mret tt.

Definition writeLabelLong (src : list bool) (keyLength : nat) (to : Ref) : M unit :=
  storeBit true to;;
  storeBit false to;;
  storeUint (Z.of_nat (length src)) (lenLen keyLength) to;;
  if decide (0 < length src)%nat
  then storeUint (bits_uint src) (length src) to
  else mret tt.

Definition writeLabelSame (value : bool) (len keyLength : nat) (to : Ref) : M unit :=
  storeBit true to;;
  storeBit true to;;
  storeBit value to;;
  storeUint (Z.of_nat len) (lenLen keyLength) to.

Definition writeLabel (src : list bool) (keyLength : nat) (to : Ref) : M unit :=
  match detectLabelType src keyLength with
  | short => writeLabelShort src to
  | long => writeLabelLong src keyLength to
  | same => writeLabelSame (bool_decide (head src = Some true)) (length src) keyLength to
  end.

(** [writeEdge]/[writeNode] with the value serialiser of
    [Dictionary.Values.Cell()], which stores the value as a reference. *)
Fixpoint writeEdge (src : Edge) (keyLength : nat) (to : Ref) : M unit :=
  match src with
  | mkEdge label node =>
      writeLabel label keyLength to;;
      match node with
      | Leaf value => storeRef value to
      | Fork l r =>
          leftCell ← beginCell;
          rightCell ← beginCell;
          writeEdge l (keyLength - length label - 1) leftCell;;
          writeEdge r (keyLength - length label - 1) rightCell;;
          storeRefBuilder leftCell to;;
          storeRefBuilder rightCell to
      end
  end.

(** The key serialiser of [Dictionary.Keys.Buffer(bytes)]: the buffer is
    stored in a scratch cell and read back as an unsigned integer of
    [8 * bytes] bits. *)
Definition serializeKey (bytes : nat) (k : Buffer) : Result (list bool) :=
  if decide (CELL_MAX_BITS < 8 * length k)%nat then Err BitBuilderOverflow
  else if decide (length k < bytes)%nat then Err InvalidKey
  else Ok (take (8 * bytes) (buffer_bits k)).

Fixpoint prepare (bytes : nat) (d : Dictionary)
    (prepared : list (list bool * Cell)) : Result (list (list bool * Cell)) :=
  match d with
  | [] => Ok prepared
  | (k, v) :: rest =>
      match serializeKey bytes k with
      | Ok kb => prepare bytes rest (map_set kb v prepared)
      | Err e => Err e
      end
  end.

Definition lift {A} (r : Result A) : M A :=
  fun h => match r with Ok a => Ok (a, h) | Err e => Err e end.

(** [storeDict(dict)] for a dictionary with keys of [bytes] bytes. *)
Definition storeDict (bytes : nat) (dict : Dictionary) (b : Ref) : M unit :=
  match dict with
  | [] => storeBit false b
  | _ =>
      prepared ← lift (prepare bytes dict []);
      storeBit true b;;
      dd ← beginCell;
      tree ← lift (buildEdge (S (8 * bytes)) prepared);
      writeEdge tree (8 * bytes) dd;;
      c ← endCell dd;
      storeRef c b
  end.

(** * The wrapper [wrappers/Jetton.ts] *)

Definition ONCHAIN_CONTENT_PREFIX : Z := 0x00.
Definition SNAKE_PREFIX : Z := 0x00.

Inductive Encoding : Type := utf8 | ascii.

(** The own properties of the table [jettonOnChainMetadataSpec]. *)
Definition jettonOnChainMetadataSpec : list (JSString * Encoding) :=
  [(js "name", utf8); (js "description", utf8);
   (js "image", ascii); (js "symbol", utf8)].

(** The table is an object literal, so a property that it does not own
    is looked up in [Object.prototype]. *)
Definition Object_prototype : list JSString :=
  [js "constructor"; js "__defineGetter__"; js "__defineSetter__";
   js "hasOwnProperty"; js "__lookupGetter__"; js "__lookupSetter__";
   js "isPrototypeOf"; js "propertyIsEnumerable"; js "toString";
   js "valueOf"; js "__proto__"; js "toLocaleString"].

(** What [jettonOnChainMetadataSpec[k]] evaluates to. *)
Inductive Property : Type :=
| PEncoding (e : Encoding)   (* the string "utf8" or "ascii" *)
| PInherited                 (* a function or object of Object.prototype *)
| PUndefined.

Definition getProperty (k : JSString) : Property :=
  match map_get k jettonOnChainMetadataSpec with
  | Some e => PEncoding e
  | None => if decide (k ∈ Object_prototype) then PInherited else PUndefined
  end.

Definition truthy (p : Property) : bool :=
  match p with
  | PUndefined => false
  | _ => true
  end.

(** [Buffer.from(v, encoding)]: an encoding that is not a string is
    taken as UTF-8. *)
Definition Buffer_from (v : JSString) (encoding : Property) : Buffer :=
  match encoding with
  | PEncoding ascii => latin1_encode v
  | _ => utf8_encode v
  end.

Module Opcodes.
Definition Mint : Z := 0x15.
Definition InternalTransfer : Z := 0x178d4519.
End Opcodes.

(** [toNano(0.001)]: 0.001 of the native unit in its 10^-9 fractions. *)
Definition toNano_0_001 : Z := 1000000.

(** [queryId ?? 0] *)
Definition orZero (queryId : option Z) : Z :=
  match queryId with
  | Some q => q
  | None => 0
  end.

Definition mintBody (owner : Address) (jettonAmount transferToJWallet : Z)
    (queryId : option Z) : M Cell :=
  b ← beginCell;
  storeUint Opcodes.Mint 32 b;;
  storeUint (orZero queryId) 64 b;;
  storeAddress (Some owner) b;;
  storeCoins transferToJWallet b;;
  (* internal transfer message *)
  b' ← beginCell;
  storeUint Opcodes.InternalTransfer 32 b';;
  storeUint (orZero queryId) 64 b';;
  storeCoins jettonAmount b';;
  storeAddress None b';;
  storeAddress (Some owner) b';;
  storeCoins toNano_0_001 b';;
  storeBit false b';;
  c ← endCell b';
  storeRef c b;;
  endCell b.

Record JettonInitial : Type := mkJettonInitial {
  treasury : Address;
  minting_info : Cell;
  token_content : Cell
}.

Definition storeJettonInitial (src : JettonInitial) (builder : Ref) : M unit :=
  let b_0 := builder in
  storeUint 2412644301 32 b_0;;
  storeAddress (Some (treasury src)) b_0;;
  storeRef (minting_info src) b_0;;
  storeRef (token_content src) b_0.

Record TokenBurnNotification : Type := mkTokenBurnNotification {
  query_id : Z;
  amount : Z;
  response_destination : Address
}.

Definition storeTokenBurnNotification (src : TokenBurnNotification)
    (builder : Ref) : M unit :=
  let b_0 := builder in
  storeUint 2078119902 32 b_0;;
  storeUint (query_id src) 64 b_0;;
  storeCoins (amount src) b_0;;
  storeAddress (Some (response_destination src)) b_0.

(** ** [buildTokenMetadataCell] *)

Definition KEYLEN : nat := 256.

Definition CELL_MAX_SIZE_BYTES : nat := Z.to_nat ((1023 - 8) / 8).

(** The [while] loop of the snake encoder.  [currentCell] names a
    builder of the store; [fuel] bounds the number of iterations. *)
Fixpoint snakeLoop (fuel : nat) (bufferToStore : Buffer) (currentCell : Ref)
    : M unit :=
  if decide (0 < length bufferToStore)%nat then
    match fuel with
    | O => throw OutOfFuel
    | S fuel' =>
        storeBuffer (take CELL_MAX_SIZE_BYTES bufferToStore) currentCell;;
        let bufferToStore := drop CELL_MAX_SIZE_BYTES bufferToStore in
        if decide (0 < length bufferToStore)%nat then
          newCell ← newBuilder;
          storeRefBuilder newCell currentCell;;
          endCell currentCell;;
          let currentCell := newCell in
          snakeLoop fuel' bufferToStore currentCell
        else snakeLoop fuel' bufferToStore currentCell
    end
  else mret tt.

(** The snake encoder: the body of the [forEach] callback from
    [new Builder()] to [rootCell.endCell()]. *)
Definition snakeCell (bufferToStore : Buffer) : M Cell :=
  rootCell ← newBuilder;
  storeUint SNAKE_PREFIX 8 rootCell;;
  let currentCell := rootCell in
  snakeLoop (length bufferToStore) bufferToStore currentCell;;
  endCell rootCell.

(** [Object.entries(data)]: the own properties of [data] in enumeration
    order; the keys of an object are pairwise distinct. *)
Definition Entries := list (JSString * option JSString).

(** The callback of [forEach], with the dictionary it updates. *)
Definition metadataEntry (dict : Dictionary) (kv : JSString * option JSString)
    : M Dictionary :=
  let '(k, v) := kv in
  if negb (truthy (getProperty k)) then throw (UnsupportedOnchainKey k)
  else
    match v with
    | None => mret dict
    | Some v =>
        if decide (v = []) then mret dict
        else
          let bufferToStore := Buffer_from v (getProperty k) in
          c ← snakeCell bufferToStore;
          mret (dict_set (take KEYLEN (sha256 k)) c dict)
    end.

Fixpoint forEach {A S : Type} (f : S -> A -> M S) (l : list A) (s : S) : M S :=
  match l with
  | [] => mret s
  | x :: rest => s' ← f s x; forEach f rest s'
  end.

(** The dictionary held by [dict] when the [forEach] returns. *)
Definition buildTokenMetadataDict (data : Entries) : M Dictionary :=
  forEach metadataEntry data Dictionary_empty.

(** The [return] of [buildTokenMetadataCell]:
    [beginCell().storeInt(ONCHAIN_CONTENT_PREFIX, 8).storeDict(dict).endCell()]. *)
Definition serializeContent (dict : Dictionary) : M Cell :=
  b ← beginCell;
  storeInt ONCHAIN_CONTENT_PREFIX 8 b;;
  storeDict (KEYLEN / 8) dict b;;
  endCell b.

Definition buildTokenMetadataCell (data : Entries) : M Cell :=
  dict ← buildTokenMetadataDict data;
  serializeContent dict.

(** ** [Jetton.send] *)

(** *** Properties outside their declared types

    At run time [message] may be an object that carries one of the two
    tags without being a record of that type.  The store functions then
    read its properties as they are, and the outcome depends on what the
    library makes of each value. *)

(** A value handed to [storeAddress]. *)
Inductive AddressArg : Type :=
| AddrInternal (a : Address)         (* an [Address] *)
| AddrNullish                        (* [null] or [undefined] *)
| AddrExternal (value bits : Z)      (* an [ExternalAddress] *)
| AddrInvalid.                       (* any other value *)

(** A value handed to [storeRef]. *)
Inductive RefArg : Type :=
| RefCell (c : Cell)                 (* a [Cell] *)
| RefBuilder (s : BuilderState)      (* a [Builder], with what it holds *)
| RefInvalid.                        (* any other value *)

(** A value handed to [storeUint] or [storeCoins]: the integer that
    [BigInt(value)] gives, or none when the conversion throws. *)
Inductive NumArg : Type :=
| NumInt (v : Z)
| NumInvalid.

(** [storeAddress(address)] for any value: [null] and [undefined] are
    the tag 00, an external address is the tag 01, its length on 9 bits
    and its value; a value that is no address is refused. *)
Definition storeAddressArg (address : AddressArg) (b : Ref) : M unit :=
  match address with
  | AddrNullish => storeAddress None b
  | AddrInternal a => storeAddress (Some a) b
  | AddrExternal value bits =>
      storeUint 1 2 b;;
      storeUint bits 9 b;;
      storeUint value (Z.to_nat bits) b
  | AddrInvalid => throw InvalidAddress
  end.

(** [storeRef(cell)] for any value: the room for a reference is checked
    first; a builder is finished at once. *)
Definition storeRefArg (cell : RefArg) (b : Ref) : M unit :=
  s ← getBuilder b;
  if decide (CELL_MAX_REFS ≤ length (b_refs s))%nat
  then throw TooManyReferences
  else
    match cell with
    | RefCell c => putBuilder b (mkBuilder (b_bits s) (b_refs s ++ [c]))
    | RefBuilder sc =>
        if decide (length (b_bits sc) ≤ CELL_MAX_BITS)%nat
        then
          if decide (length (b_refs sc) ≤ CELL_MAX_REFS)%nat
          then putBuilder b (mkBuilder (b_bits s)
                               (b_refs s ++ [mkCell (b_bits sc) (b_refs sc)]))
          else throw InvalidNumberOfReferences
        else throw BitsOverflow
    | RefInvalid => throw InvalidArgument
    end.

(** [storeUint(value, bits)] and [storeCoins(amount)] for any value. *)
Definition storeUintArg (value : NumArg) (bits : nat) (b : Ref) : M unit :=
  match value with
  | NumInt v => storeUint v bits b
  | NumInvalid => throw NotAnInteger
  end.

Definition storeCoinsArg (amount : NumArg) (b : Ref) : M unit :=
  match amount with
  | NumInt v => storeCoins v b
  | NumInvalid => throw NotAnInteger
  end.

(** An object that is not a record of the two types: its [$$type] when
    that is a string, and the properties that the store functions
    read. *)
Record TaggedObject : Type := mkTaggedObject {
  o_type : option JSString;
  o_treasury : AddressArg;
  o_minting_info : RefArg;
  o_token_content : RefArg;
  o_query_id : NumArg;
  o_amount : NumArg;
  o_response_destination : AddressArg
}.

(** An object with no property but [$$type]: every other property reads
    as [undefined]. *)
Definition plainObject (type : option JSString) : TaggedObject :=
  mkTaggedObject type AddrNullish RefInvalid RefInvalid
                 NumInvalid NumInvalid AddrNullish.

(** [storeJettonInitial] and [storeTokenBurnNotification] at such an
    object. *)
Definition storeJettonInitialObject (src : TaggedObject) (builder : Ref)
    : M unit :=
  let b_0 := builder in
  storeUint 2412644301 32 b_0;;
  storeAddressArg (o_treasury src) b_0;;
  storeRefArg (o_minting_info src) b_0;;
  storeRefArg (o_token_content src) b_0.

Definition storeTokenBurnNotificationObject (src : TaggedObject)
    (builder : Ref) : M unit :=
  let b_0 := builder in
  storeUint 2078119902 32 b_0;;
  storeUintArg (o_query_id src) 64 b_0;;
  storeCoinsArg (o_amount src) b_0;;
  storeAddressArg (o_response_destination src) b_0.

(** The values [message] may hold at run time. *)
Inductive JSValue : Type :=
| VJettonInitial (src : JettonInitial)
| VTokenBurnNotification (src : TokenBurnNotification)
| VString (s : JSString)
| VNull
| VUndefined
| VBoolean (b : bool)
| VNumber (n : Z)
| VSlice                               (* an instance of Slice *)
| VObject (o : TaggedObject).          (* another object *)

Definition is_truthy (v : JSValue) : bool :=
  match v with
  | VString s => negb (bool_decide (s = []))
  | VNull | VUndefined => false
  | VBoolean b => b
  | VNumber n => negb (bool_decide (n = 0))
  | _ => true
  end.

Definition typeof_object (v : JSValue) : bool :=
  match v with
  | VJettonInitial _ | VTokenBurnNotification _ | VNull | VSlice | VObject _ => true
  | _ => false
  end.

Definition typeof_string (v : JSValue) : bool :=
  match v with
  | VString _ => true
  | _ => false
  end.

Definition instanceof_Slice (v : JSValue) : bool :=
  match v with
  | VSlice => true
  | _ => false
  end.

(** [message.$$type] *)
Definition get_type (v : JSValue) : option JSString :=
  match v with
  | VJettonInitial _ => Some (js "JettonInitial")
  | VTokenBurnNotification _ => Some (js "TokenBurnNotification")
  | VObject o => o_type o
  | _ => None
  end.

Definition strict_eq_string (v : JSValue) (s : JSString) : bool :=
  match v with
  | VString s' => bool_decide (s' = s)
  | _ => false
  end.

(** [beginCell().storeUint(0, 32).storeStringTail(message).endCell()] *)
Definition textBody (message : JSString) : M Cell :=
  b ← beginCell;
  storeUint 0 32 b;;
  storeStringTail message b;;
  endCell b.

(** The body that [send] hands to [provider.internal], or the error it
    throws.  An object tagged as one of the two records without being
    one is outside the declared type of [message]; the store function
    runs on its properties as they are.  Only the records and such
    objects pass the tests of the two typed branches. *)
Definition send (message : JSValue) : M Cell :=
  let body : option Cell := None in
  body ←
    (if is_truthy message && typeof_object message
        && negb (instanceof_Slice message)
        && bool_decide (get_type message = Some (js "JettonInitial"))
     then
       match message with
       | VJettonInitial src =>
           b ← beginCell; storeJettonInitial src b;; c ← endCell b; mret (Some c)
       | VObject o =>
           b ← beginCell; storeJettonInitialObject o b;; c ← endCell b;
           mret (Some c)
       | _ => mret body
       end
     else mret body);
  body ←
    (if typeof_string message
     then
       match message with
       | VString s => c ← textBody s; mret (Some c)
       | _ => mret body
       end
     else mret body);
  body ←
    (if strict_eq_string message (js "Owner Claim")
     then c ← textBody (js "Owner Claim"); mret (Some c)
     else mret body);
  body ←
    (if strict_eq_string message (js "Mint")
     then c ← textBody (js "Mint"); mret (Some c)
     else mret body);
  body ←
    (if is_truthy message && typeof_object message
        && negb (instanceof_Slice message)
        && bool_decide (get_type message = Some (js "TokenBurnNotification"))
     then
       match message with
       | VTokenBurnNotification src =>
           b ← beginCell; storeTokenBurnNotification src b;; c ← endCell b; mret (Some c)
       | VObject o =>
           b ← beginCell; storeTokenBurnNotificationObject o b;; c ← endCell b;
           mret (Some c)
       | _ => mret body
       end
     else mret body);
  match body with
  | None => throw InvalidMessageType
  | Some body => mret body
  end.

(** ** [jettonMinterInitData] and the configuration of [scripts/deploy.ts] *)

(** [jettonMinterInitData(owner, metadata)]; [walletCode] is the cell
    that [compile("JettonWallet")] resolves to. *)
Definition jettonMinterInitData (owner : Address) (metadata : Entries)
    (walletCode : Cell) : M Cell :=
  b ← beginCell;
  storeCoins 0 b;;
  storeAddress (Some owner) b;;
  content ← buildTokenMetadataCell metadata;
  storeRef content b;;
  storeRef walletCode b;;
  endCell b.

(** The metadata that [run] of [scripts/deploy.ts] passes on: the object
    literal without [owner], each value an environment variable, which
    is a string or [undefined]. *)
Definition deployConfig (name description symbol image : option JSString)
    : Entries :=
  [(js "name", name); (js "description", description);
   (js "symbol", symbol); (js "image", image)].

(** * Reading cells back, and the layouts the frames are compared with *)

(** The bits of a chain of cells, root to leaf, following the single
    reference of each cell; no result when a cell has several
    references. *)
Fixpoint chainBits (c : Cell) : option (list bool) :=
  match c with
  | mkCell bits refs =>
      match refs with
      | [] => Some bits
      | [next] =>
          match chainBits next with
          | Some rest => Some (bits ++ rest)
          | None => None
          end
      | _ => None
      end
  end.

(** The cells of the chain, root first. *)
Fixpoint chainCells (c : Cell) : list Cell :=
  match c with
  | mkCell bits refs =>
      c :: match refs with
           | [next] => chainCells next
           | _ => []
           end
  end.

(** Snake decoding: the bytes of the chain without the one-byte prefix
    of the root. *)
Definition snakeDecode (c : Cell) : option Buffer :=
  match chainBits c with
  | Some bits => Some (bits_buffer (drop 8 bits))
  | None => None
  end.

(** Reading a dictionary back ([parseDict] of [@ton/core]).  A slice is
    read from its bits, front first; [loadUint] and [loadBits] give what
    is read and what is left, or nothing when the slice is too short. *)
Definition loadUint (n : nat) (bits : list bool) : option (Z * list bool) :=
  if decide (n ≤ length bits)%nat
  then Some (bits_uint (take n bits), drop n bits)
  else None.

Definition loadBits (n : nat) (bits : list bool) : option (list bool * list bool) :=
  if decide (n ≤ length bits)%nat then Some (take n bits, drop n bits) else None.

Fixpoint readUnaryLength (bits : list bool) : option (nat * list bool) :=
  match bits with
  | [] => None
  | true :: rest =>
      match readUnaryLength rest with
      | Some (res, rest) => Some (S res, rest)
      | None => None
      end
  | false :: rest => Some (0%nat, rest)
  end.

(** The label of an edge whose keys have [n] bits left: short (tag 0,
    unary length), long (tag 10, binary length) or same (tag 11, one bit
    and a binary length). *)
Definition readLabel (n : nat) (bits : list bool)
    : option (list bool * list bool) :=
  match bits with
  | false :: rest =>
      match readUnaryLength rest with
      | Some (prefixLength, rest) => loadBits prefixLength rest
      | None => None
      end
  | true :: false :: rest =>
      match loadUint (lenLen n) rest with
      | Some (prefixLength, rest) => loadBits (Z.to_nat prefixLength) rest
      | None => None
      end
  | true :: true :: bit :: rest =>
      match loadUint (lenLen n) rest with
      | Some (prefixLength, rest) => Some (repeat bit (Z.to_nat prefixLength), rest)
      | None => None
      end
  | _ => None
  end.

(** [doParse]: the entries below an edge, added to [res]; a leaf holds
    its value as the first reference, a fork its two branches.  A label
    longer than the bits left gives no result. *)
Fixpoint doParse (prefix : list bool) (c : Cell) (n : nat)
    (res : list (list bool * Cell)) {struct c} : option (list (list bool * Cell)) :=
  match c with
  | mkCell bits refs =>
      match readLabel n bits with
      | None => None
      | Some (label, _) =>
          let pp := prefix ++ label in
          if decide (n < length label)%nat then None
          else if decide (n - length label = 0)%nat then
            match refs with
            | value :: _ => Some (map_set pp value res)
            | [] => None
            end
          else
            match refs with
            | leftCell :: rightCell :: _ =>
                match doParse (pp ++ [false]) leftCell (n - length label - 1) res with
                | Some res => doParse (pp ++ [true]) rightCell (n - length label - 1) res
                | None => None
                end
            | _ => None
            end
      end
  end.

(** Reading a content cell: the prefix byte, then the dictionary with
    256-bit keys whose values are references; the entries are the key
    bits with their value cells. *)
Definition loadContent (c : Cell) : option (list (list bool * Cell)) :=
  match loadUint 8 (cell_bits c) with
  | Some (prefix, rest) =>
      if decide (prefix = ONCHAIN_CONTENT_PREFIX) then
        match rest, cell_refs c with
        | false :: _, _ => Some []
        | true :: _, root :: _ => doParse [] root KEYLEN []
        | _, _ => None
        end
      else None
  | None => None
  end.

(** A coin amount: the number of bytes of the amount on 4 bits, then the
    amount on that many bytes. *)
Definition coins_size (v : Z) : Z :=
  if decide (v = 0) then 0 else (Z.log2 v + 1 + 7) / 8.

Definition coins_bits (v : Z) : list bool :=
  uint_bits 4 (coins_size v) ++ uint_bits (Z.to_nat (coins_size v * 8)) v.

(** An internal address: tag 10, no anycast, workchain on a signed byte,
    hash. *)
Definition int8_bits (v : Z) : list bool :=
  if decide (v < 0) then true :: uint_bits 7 (128 + v)
  else false :: uint_bits 7 v.

Definition address_bits (a : Address) : list bool :=
  [true; false] ++ [false] ++ int8_bits (workChain a) ++ buffer_bits (hash a).

(** The "no address" sentinel. *)
Definition no_address_bits : list bool := [false; false].

Definition valid_address (a : Address) : Prop :=
  -128 ≤ workChain a < 128 ∧ length (hash a) = 32%nat.

Definition valid_coins (v : Z) : Prop := 0 ≤ v < 2 ^ 120.

Definition valid_uint64 (v : Z) : Prop := 0 ≤ v < 2 ^ 64.

(** The conditions under which every field of a mint request fits. *)
Definition mint_fields_fit (owner : Address) (jettonAmount transferToJWallet : Z)
    (queryId : option Z) : Prop :=
  -128 ≤ workChain owner < 128 ∧ valid_coins jettonAmount
  ∧ valid_coins transferToJWallet ∧ valid_uint64 (orZero queryId).

(** The conditions under which every field of a burn notification fits. *)
Definition burn_fields_fit (src : TokenBurnNotification) : Prop :=
  valid_uint64 (query_id src) ∧ valid_coins (amount src)
  ∧ -128 ≤ workChain (response_destination src) < 128.

(** A message of the declared type of [message]: a record of one of
    the two types or a string; the address of a record has the 32-byte
    hash that the constructor of [Address] insists on. *)
Definition declared_message (message : JSValue) : Prop :=
  match message with
  | VJettonInitial src => length (hash (treasury src)) = 32%nat
  | VTokenBurnNotification src => length (hash (response_destination src)) = 32%nat
  | VString _ => True
  | _ => False
  end.

(** Two messages that say the same: the same record, or texts with the
    same UTF-8 bytes. *)
Definition same_message (m m' : JSValue) : Prop :=
  match m, m' with
  | VJettonInitial a, VJettonInitial b => a = b
  | VTokenBurnNotification a, VTokenBurnNotification b => a = b
  | VString s, VString s' => utf8_encode s = utf8_encode s'
  | _, _ => False
  end.

(** The shapes [send] recognises: a string, or an object other than a
    Slice tagged as one of the two records. *)
Definition recognised (message : JSValue) : bool :=
  typeof_string message
  || is_truthy message && typeof_object message
     && negb (instanceof_Slice message)
     && (bool_decide (get_type message = Some (js "JettonInitial"))
         || bool_decide (get_type message = Some (js "TokenBurnNotification"))).

(** A builder within the budget of the snake encoder. *)
Definition within_snake_budget (s : BuilderState) : Prop :=
  (length (b_bits s) ≤ 8 + CELL_MAX_SIZE_BYTES * 8)%nat
  ∧ (length (b_refs s) ≤ 1)%nat.

(** The keys of the recognised enumeration. *)
Definition JettonMetaDataKeys : list JSString :=
  [js "name"; js "description"; js "image"; js "symbol"].

(** A value that [buildTokenMetadataCell] skips. *)
Definition is_empty_value (v : option JSString) : bool :=
  match v with
  | None => true
  | Some s => bool_decide (s = [])
  end.

(** * Closed forms and proof notions *)

(** The cell the snake encoder returns, in closed form. *)
Definition snakeCellOf (bufferToStore : Buffer) : Cell :=
  mkCell (uint_bits 8 SNAKE_PREFIX
          ++ buffer_bits (take CELL_MAX_SIZE_BYTES bufferToStore))
         (if decide (CELL_MAX_SIZE_BYTES < length bufferToStore)%nat
          then [mkCell [] []] else []).

(** The dictionary key of a metadata key: the first [KEYLEN / 8] bytes,
    that is, 256 bits, of the hash of its UTF-8 bytes. *)
Definition dictKey (k : JSString) : Buffer := take (KEYLEN / 8) (sha256 k).

(** What one entry does to the dictionary, and what all of them do. *)
Definition entryOf (dict : Dictionary) (kv : JSString * option JSString)
    : Dictionary :=
  match kv.2 with
  | None => dict
  | Some s =>
      if decide (s = []) then dict
      else dict_set (dictKey kv.1)
                    (snakeCellOf (Buffer_from s (getProperty kv.1))) dict
  end.

Definition dictOf (data : Entries) (dict : Dictionary) : Dictionary :=
  fold_left entryOf data dict.

(** The dictionary keys of the four recognised metadata keys. *)
Definition key_name : Buffer := Eval vm_compute in dictKey (js "name").
Definition key_description : Buffer := Eval vm_compute in dictKey (js "description").
Definition key_image : Buffer := Eval vm_compute in dictKey (js "image").
Definition key_symbol : Buffer := Eval vm_compute in dictKey (js "symbol").

(** A prefix tree whose labels fit the key bits that are left: what
    [writeEdge] can write for keys of [n] bits. *)
Fixpoint wfEdge (n : nat) (e : Edge) : Prop :=
  match e with
  | mkEdge label node =>
      (length label ≤ n)%nat
      ∧ match node with
        | Leaf _ => True
        | Fork l r =>
            wfEdge (n - length label - 1) l ∧ wfEdge (n - length label - 1) r
        end
  end.

(** The entries with the first [k] bits of their keys removed, and the
    entries of one side of a fork. *)
Definition trimmed (k : nat) (src : list (list bool * Cell))
    : list (list bool * Cell) :=
  (λ kv, (drop k kv.1, kv.2)) <$> src.

Definition forkSide (bit : bool) (src : list (list bool * Cell))
    : list (list bool * Cell) :=
  trimmed 1 (filter (λ kv, head kv.1 = Some bit) src).

(** A dictionary over the four keys, in the order of the key bits. *)
Definition canon (dict : Dictionary) : Dictionary :=
  omap (λ key, (key,.) <$> dict_get key dict)
       [key_image; key_name; key_symbol; key_description].

(** The pairs of a mapping that [buildTokenMetadataCell] does not skip. *)
Definition kept (data : Entries) : Entries :=
  filter (λ kv, is_empty_value kv.2 = false) data.

(** The mapping of the scenario:
    [{name: "MyJetton", symbol: "JET1", description: "", image: undefined}]. *)
Definition scenario : Entries :=
  [(js "name", Some (js "MyJetton")); (js "symbol", Some (js "JET1"));
   (js "description", Some (js "")); (js "image", None)].

(** The room for text in the body cell after the 32-bit opcode, in
    bytes. *)
Definition TEXT_ROOM_BYTES : nat := ((CELL_MAX_BITS - 32) / 8)%nat.

(** The layout of the two cells of a mint request. *)
Definition internalTransferCell (owner : Address) (jettonAmount queryId : Z) : Cell :=
  mkCell (uint_bits 32 0x178d4519 ++ uint_bits 64 queryId
          ++ coins_bits jettonAmount ++ no_address_bits ++ address_bits owner
          ++ coins_bits 1000000 ++ [false]) [].

Definition mintRequestCell (owner : Address) (jettonAmount transferFee queryId : Z)
    : Cell :=
  mkCell (uint_bits 32 0x15 ++ uint_bits 64 queryId ++ address_bits owner
          ++ coins_bits transferFee)
         [internalTransferCell owner jettonAmount queryId].

(** A computation that appends the bits [bs] to the builder it is given,
    when they fit. *)
Definition appends (m : Ref → M unit) (bs : list bool) : Prop :=
  ∀ h b s, h !! b = Some s →
    (length (b_bits s) + length bs ≤ CELL_MAX_BITS)%nat →
    m b h = Ok (tt, <[b := mkBuilder (b_bits s ++ bs) (b_refs s)]> h).

(** ** Running in a larger store: definitions

    A computation that only uses the builders it is given and the ones
    it allocates runs in the same way when the store has further
    builders in front: the names shift by the number of those builders. *)

Definition prefixed {A} (h0 : Heap) (r : Result (A * Heap)) : Result (A * Heap) :=
  match r with
  | Ok (a, h) => Ok (a, h0 ++ h)
  | Err e => Err e
  end.

Definition framed {A} (n : nat) (m1 m2 : M A) : Prop :=
  ∀ h0 h, length h0 = n → m1 (h0 ++ h) = prefixed h0 (m2 h).

(** * Properties *)

(** ** Bits and bytes *)

Lemma length_uint_bits n v : length (uint_bits n v) = n.
Proof. induction n as [|n IH]; simpl; [done | by rewrite IH]. Qed.

Lemma length_byte_bits b : length (byte_bits b) = 8%nat.
Proof. apply length_uint_bits. Qed.

Lemma length_buffer_bits src : length (buffer_bits src) = (8 * length src)%nat.
Proof.
  induction src as [|b src IH]; [done |].
  cbn [buffer_bits length]. rewrite length_app, length_byte_bits, IH. lia.
Qed.

Lemma buffer_bits_app a b : buffer_bits (a ++ b) = buffer_bits a ++ buffer_bits b.
Proof.
  induction a as [|x a IH]; [done |].
  cbn [buffer_bits app]. by rewrite IH, app_assoc.
Qed.

Lemma bits_buffer_byte b rest :
  bits_buffer (byte_bits b ++ rest) = b :: bits_buffer rest.
Proof.
  assert (byte_of_N (Z.to_N (bits_uint (byte_bits b))) = b) as Hb
    by (destruct b; vm_compute; reflexivity).
  revert Hb. unfold byte_bits. cbn [uint_bits app].
  intros Hb. cbn [bits_buffer]. by rewrite Hb.
Qed.

Lemma bits_buffer_buffer_bits src : bits_buffer (buffer_bits src) = src.
Proof.
  induction src as [|b src IH]; [done |].
  cbn [buffer_bits]. by rewrite bits_buffer_byte, IH.
Qed.

Lemma uint_bits_zero n : uint_bits n 0 = repeat false n.
Proof.
  induction n as [|n IH]; [done |].
  cbn [uint_bits repeat]. by rewrite Z.testbit_0_l, IH.
Qed.

#[global] Arguments uint_bits : simpl never.
#[global] Arguments js : simpl never.
#[global] Arguments buffer_bits : simpl never.

(** ** Running in a larger store *)

Lemma run_bind {A B} (m : M A) (k : A → M B) h :
  (m ≫= k) h = match m h with Ok (a, h') => k a h' | Err e => Err e end.
Proof. reflexivity. Qed.

Lemma framed_ret {A} n (a : A) : framed n (mret a) (mret a).
Proof. by intros h0 h _. Qed.

Lemma framed_throw {A} n e : framed n (@throw A e) (throw e).
Proof. by intros h0 h _. Qed.

Lemma framed_lift {A} n (r : Result A) : framed n (lift r) (lift r).
Proof. intros h0 h _. unfold lift. by destruct r. Qed.

Lemma framed_bind {A B} n (m1 m2 : M A) (k1 k2 : A → M B) :
  framed n m1 m2 → (∀ a, framed n (k1 a) (k2 a)) →
  framed n (m1 ≫= k1) (m2 ≫= k2).
Proof.
  intros Hm Hk h0 h Hn. rewrite !run_bind, (Hm h0 h Hn).
  destruct (m2 h) as [[a h']|e]; simpl; [by apply Hk | done].
Qed.

Lemma framed_new {A} n (k1 k2 : Ref → M A) :
  (∀ b, framed n (k1 (n + b)%nat) (k2 b)) →
  framed n (newBuilder ≫= k1) (newBuilder ≫= k2).
Proof.
  intros Hk h0 h Hn. rewrite !run_bind. unfold newBuilder.
  rewrite length_app, Hn, <- app_assoc. by apply Hk.
Qed.

Lemma framed_getBuilder n b : framed n (getBuilder (n + b)%nat) (getBuilder b).
Proof.
  intros h0 h Hn. unfold getBuilder.
  rewrite lookup_app_r by lia.
  replace (n + b - length h0)%nat with b by lia.
  by destruct (h !! b).
Qed.

Lemma framed_putBuilder n b s : framed n (putBuilder (n + b)%nat s) (putBuilder b s).
Proof.
  intros h0 h Hn. unfold putBuilder. simpl.
  by rewrite <- Hn, insert_app_r.
Qed.

Create HintDb framed.

#[global] Hint Resolve framed_ret framed_throw framed_lift
  framed_getBuilder framed_putBuilder : framed.

(** One step of a proof that a computation is [framed]: the two sides
    are the same program, at shifted names. *)
Ltac framed_step :=
  lazymatch goal with
  | |- framed _ (mbind _ newBuilder) _ => apply framed_new; intros ?
  | |- framed _ (mbind _ beginCell) _ => apply framed_new; intros ?
  | |- framed _ (mbind _ _) _ => apply framed_bind; [| intros ?]
  | |- framed _ (if ?c then _ else _) _ => destruct c
  | |- framed _ (match ?x with _ => _ end) _ => destruct x
  | |- _ => solve [eauto with framed]
  end.

Ltac framed_auto := repeat framed_step.

Lemma framed_writeBits n bs b : framed n (writeBits bs (n + b)%nat) (writeBits bs b).
Proof. unfold writeBits. framed_auto. Qed.
#[global] Hint Resolve framed_writeBits : framed.

Lemma framed_storeBit n v b : framed n (storeBit v (n + b)%nat) (storeBit v b).
Proof. unfold storeBit. framed_auto. Qed.
#[global] Hint Resolve framed_storeBit : framed.

Lemma framed_storeUint n v bits b :
  framed n (storeUint v bits (n + b)%nat) (storeUint v bits b).
Proof. unfold storeUint. framed_auto. Qed.
#[global] Hint Resolve framed_storeUint : framed.

Lemma framed_storeInt n v bits b :
  framed n (storeInt v bits (n + b)%nat) (storeInt v bits b).
Proof. unfold storeInt. destruct bits as [|[|bits]]; framed_auto. Qed.
#[global] Hint Resolve framed_storeInt : framed.

Lemma framed_storeBuffer n src b :
  framed n (storeBuffer src (n + b)%nat) (storeBuffer src b).
Proof. unfold storeBuffer. framed_auto. Qed.
#[global] Hint Resolve framed_storeBuffer : framed.

Lemma framed_endCell n b : framed n (endCell (n + b)%nat) (endCell b).
Proof. unfold endCell. framed_auto. Qed.
#[global] Hint Resolve framed_endCell : framed.

Lemma framed_storeRef n c b : framed n (storeRef c (n + b)%nat) (storeRef c b).
Proof. unfold storeRef. framed_auto. Qed.
#[global] Hint Resolve framed_storeRef : framed.

Lemma framed_storeRefBuilder n c b :
  framed n (storeRefBuilder (n + c)%nat (n + b)%nat) (storeRefBuilder c b).
Proof. unfold storeRefBuilder. framed_auto. Qed.
#[global] Hint Resolve framed_storeRefBuilder : framed.

Lemma framed_availableBits n b :
  framed n (availableBits (n + b)%nat) (availableBits b).
Proof. unfold availableBits. framed_auto. Qed.
#[global] Hint Resolve framed_availableBits : framed.

Lemma framed_storeCoins n v b :
  framed n (storeCoins v (n + b)%nat) (storeCoins v b).
Proof. unfold storeCoins, storeVarUint. framed_auto. Qed.
#[global] Hint Resolve framed_storeCoins : framed.

Lemma framed_storeAddress n a b :
  framed n (storeAddress a (n + b)%nat) (storeAddress a b).
Proof. unfold storeAddress. framed_auto. Qed.
#[global] Hint Resolve framed_storeAddress : framed.

Lemma framed_writeBuffer n fuel : ∀ src b,
  framed n (writeBuffer fuel src (n + b)%nat) (writeBuffer fuel src b).
Proof.
  induction fuel as [|fuel IH]; intros src b; cbn [writeBuffer]; framed_auto.
Qed.
#[global] Hint Resolve framed_writeBuffer : framed.

Lemma framed_storeStringTail n src b :
  framed n (storeStringTail src (n + b)%nat) (storeStringTail src b).
Proof. unfold storeStringTail. framed_auto. Qed.
#[global] Hint Resolve framed_storeStringTail : framed.

Lemma framed_writeLabel n src keyLength b :
  framed n (writeLabel src keyLength (n + b)%nat) (writeLabel src keyLength b).
Proof.
  unfold writeLabel, writeLabelShort, writeLabelLong, writeLabelSame.
  framed_auto.
Qed.
#[global] Hint Resolve framed_writeLabel : framed.

Fixpoint framed_writeEdge n (src : Edge) {struct src} : ∀ keyLength b,
  framed n (writeEdge src keyLength (n + b)%nat) (writeEdge src keyLength b).
Proof.
  intros keyLength b. destruct src as [label [value|l r]]; cbn [writeEdge].
  - framed_auto.
  - pose proof (framed_writeEdge n l) as Hl.
    pose proof (framed_writeEdge n r) as Hr.
    framed_auto.
Qed.
#[global] Hint Resolve framed_writeEdge : framed.

Lemma framed_storeDict n bytes dict b :
  framed n (storeDict bytes dict (n + b)%nat) (storeDict bytes dict b).
Proof. unfold storeDict. framed_auto. Qed.
#[global] Hint Resolve framed_storeDict : framed.

Lemma framed_snakeLoop n fuel : ∀ bufferToStore currentCell,
  framed n (snakeLoop fuel bufferToStore (n + currentCell)%nat)
           (snakeLoop fuel bufferToStore currentCell).
Proof.
  induction fuel as [|fuel IH]; intros src b; cbn [snakeLoop]; framed_auto.
Qed.
#[global] Hint Resolve framed_snakeLoop : framed.

Lemma framed_snakeCell n bufferToStore :
  framed n (snakeCell bufferToStore) (snakeCell bufferToStore).
Proof. unfold snakeCell. framed_auto. Qed.
#[global] Hint Resolve framed_snakeCell : framed.

Lemma framed_metadataEntry n dict kv :
  framed n (metadataEntry dict kv) (metadataEntry dict kv).
Proof. unfold metadataEntry. destruct kv as [k v]. framed_auto. Qed.
#[global] Hint Resolve framed_metadataEntry : framed.

Lemma framed_forEach {A S} n (f : S → A → M S) l :
  (∀ s x, framed n (f s x) (f s x)) →
  ∀ s, framed n (forEach f l s) (forEach f l s).
Proof.
  intros Hf. induction l as [|x l IH]; intros s; cbn [forEach]; framed_auto.
Qed.

Lemma framed_buildTokenMetadataDict n data :
  framed n (buildTokenMetadataDict data) (buildTokenMetadataDict data).
Proof. apply framed_forEach. intros. apply framed_metadataEntry. Qed.
#[global] Hint Resolve framed_buildTokenMetadataDict : framed.

Lemma framed_serializeContent n dict :
  framed n (serializeContent dict) (serializeContent dict).
Proof. unfold serializeContent. framed_auto. Qed.
#[global] Hint Resolve framed_serializeContent : framed.

Lemma framed_buildTokenMetadataCell n data :
  framed n (buildTokenMetadataCell data) (buildTokenMetadataCell data).
Proof. unfold buildTokenMetadataCell. framed_auto. Qed.

Lemma framed_mintBody n owner jettonAmount transferToJWallet queryId :
  framed n (mintBody owner jettonAmount transferToJWallet queryId)
           (mintBody owner jettonAmount transferToJWallet queryId).
Proof. unfold mintBody. framed_auto. Qed.

Lemma framed_textBody n message : framed n (textBody message) (textBody message).
Proof. unfold textBody. framed_auto. Qed.
#[global] Hint Resolve framed_textBody : framed.

Lemma framed_storeAddressArg n a b :
  framed n (storeAddressArg a (n + b)%nat) (storeAddressArg a b).
Proof. unfold storeAddressArg. framed_auto. Qed.
#[global] Hint Resolve framed_storeAddressArg : framed.

Lemma framed_storeRefArg n c b :
  framed n (storeRefArg c (n + b)%nat) (storeRefArg c b).
Proof. unfold storeRefArg. framed_auto. Qed.
#[global] Hint Resolve framed_storeRefArg : framed.

Lemma framed_storeUintArg n v bits b :
  framed n (storeUintArg v bits (n + b)%nat) (storeUintArg v bits b).
Proof. unfold storeUintArg. framed_auto. Qed.
#[global] Hint Resolve framed_storeUintArg : framed.

Lemma framed_storeCoinsArg n v b :
  framed n (storeCoinsArg v (n + b)%nat) (storeCoinsArg v b).
Proof. unfold storeCoinsArg. framed_auto. Qed.
#[global] Hint Resolve framed_storeCoinsArg : framed.

Lemma framed_send n message : framed n (send message) (send message).
Proof.
  unfold send, storeJettonInitial, storeTokenBurnNotification,
    storeJettonInitialObject, storeTokenBurnNotificationObject.
  framed_auto.
Qed.

(** A closed computation runs in any store as in the empty one. *)
Lemma framed_run {A} (m : M A) h :
  (∀ n, framed n m m) → m h = prefixed h (m []).
Proof. intros Hm. rewrite <- (app_nil_r h) at 1. by apply (Hm (length h)). Qed.

Lemma framed_outcome {A} (m : M A) h :
  (∀ n, framed n m m) → outcome (m h) = outcome (m []).
Proof.
  intros Hm. rewrite (framed_run m h Hm).
  by destruct (m []) as [[a h']|e].
Qed.

(** ** What the primitives do to the builder they are given *)

Lemma getBuilder_run h b s : h !! b = Some s → getBuilder b h = Ok (s, h).
Proof. intros Hb. unfold getBuilder. by rewrite Hb. Qed.

Lemma writeBits_run h b s bs :
  h !! b = Some s → (length (b_bits s) + length bs ≤ CELL_MAX_BITS)%nat →
  writeBits bs b h = Ok (tt, <[b := mkBuilder (b_bits s ++ bs) (b_refs s)]> h).
Proof.
  intros Hb Hlen. unfold writeBits. rewrite run_bind, (getBuilder_run _ _ _ Hb).
  by rewrite decide_True.
Qed.

Lemma endCell_run h b s :
  h !! b = Some s → (length (b_bits s) ≤ CELL_MAX_BITS)%nat →
  (length (b_refs s) ≤ CELL_MAX_REFS)%nat →
  endCell b h = Ok (mkCell (b_bits s) (b_refs s), h).
Proof.
  intros Hb Hbits Hrefs. unfold endCell.
  rewrite run_bind, (getBuilder_run _ _ _ Hb).
  by rewrite !decide_True.
Qed.

Lemma storeRef_run h b s c :
  h !! b = Some s → (length (b_refs s) < CELL_MAX_REFS)%nat →
  storeRef c b h = Ok (tt, <[b := mkBuilder (b_bits s) (b_refs s ++ [c])]> h).
Proof.
  intros Hb Hrefs. unfold storeRef.
  rewrite run_bind, (getBuilder_run _ _ _ Hb).
  by rewrite decide_False by lia.
Qed.

Lemma storeRefBuilder_run h b s child sc :
  h !! b = Some s → h !! child = Some sc →
  (length (b_refs s) < CELL_MAX_REFS)%nat →
  (length (b_bits sc) ≤ CELL_MAX_BITS)%nat →
  (length (b_refs sc) ≤ CELL_MAX_REFS)%nat →
  storeRefBuilder child b h =
    Ok (tt, <[b := mkBuilder (b_bits s)
                     (b_refs s ++ [mkCell (b_bits sc) (b_refs sc)])]> h).
Proof.
  intros Hb Hc Hrefs Hcb Hcr. unfold storeRefBuilder.
  rewrite run_bind, (getBuilder_run _ _ _ Hb).
  rewrite decide_False by lia.
  by rewrite run_bind, (endCell_run _ _ _ Hc Hcb Hcr).
Qed.

Lemma appends_writeBits bs : appends (writeBits bs) bs.
Proof. intros h b s. apply writeBits_run. Qed.

Lemma appends_seq m1 m2 bs1 bs2 :
  appends m1 bs1 → appends m2 bs2 →
  appends (λ b, m1 b;; m2 b) (bs1 ++ bs2).
Proof.
  intros H1 H2 h b s Hb Hlen. rewrite length_app in Hlen.
  rewrite run_bind, (H1 h b s Hb) by lia.
  pose proof (lookup_lt_Some _ _ _ Hb) as Hlt.
  erewrite H2; [| by apply list_lookup_insert_eq | simpl; rewrite length_app; lia].
  simpl. by rewrite list_insert_insert_eq, app_assoc.
Qed.

Lemma appends_storeBit v : appends (storeBit v) [v].
Proof. apply appends_writeBits. Qed.

Lemma appends_storeUint v n :
  0 ≤ v < 2 ^ Z.of_nat n → appends (storeUint v n) (uint_bits n v).
Proof.
  intros Hv h b s Hb Hlen. unfold storeUint.
  rewrite decide_True by done. by apply writeBits_run.
Qed.

Lemma appends_storeBuffer src : appends (storeBuffer src) (buffer_bits src).
Proof. apply appends_writeBits. Qed.

Lemma appends_storeInt8 v :
  -128 ≤ v < 128 → appends (storeInt v 8) (int8_bits v).
Proof.
  intros Hv. unfold storeInt, int8_bits. cbv zeta.
  change (2 ^ Z.of_nat 7) with 128.
  destruct (decide (- (128) ≤ v < 128)) as [_|Hn]; [| lia].
  destruct (decide (v < 0)).
  - apply (appends_seq _ _ [true]); [apply appends_storeBit |].
    apply appends_storeUint. change (2 ^ Z.of_nat 7) with 128. lia.
  - apply (appends_seq _ _ [false]); [apply appends_storeBit |].
    apply appends_storeUint. change (2 ^ Z.of_nat 7) with 128. lia.
Qed.

Lemma coins_size_bounds v :
  valid_coins v → 0 ≤ coins_size v < 16 ∧ 0 ≤ v < 2 ^ (coins_size v * 8).
Proof.
  intros [Hv0 Hv]. unfold coins_size.
  destruct (decide (v = 0)) as [->|Hne]; [by cbn |].
  assert (0 < v) as Hpos by lia.
  pose proof (Z.log2_nonneg v) as Hlog0.
  assert (Z.log2 v < 120) as Hlog by (apply Z.log2_lt_pow2; lia).
  pose proof (Z.log2_spec v Hpos) as [_ Hup].
  split.
  - split; [apply Z.div_pos; lia |].
    apply Z.div_lt_upper_bound; lia.
  - split; [lia |].
    eapply Z.lt_le_trans; [exact Hup |].
    apply Z.pow_le_mono_r; [lia |].
    pose proof (Z.mul_succ_div_gt (Z.log2 v + 1 + 7) 8 ltac:(lia)). lia.
Qed.

Lemma appends_storeCoins v :
  valid_coins v → appends (storeCoins v) (coins_bits v).
Proof.
  intros Hv. pose proof (coins_size_bounds v Hv) as [Hsz Hfit].
  destruct Hv as [Hv0 Hv].
  unfold storeCoins, storeVarUint, coins_bits, coins_size in *.
  destruct (decide (v < 0)) as [Hn|_]; [lia |].
  destruct (decide (v = 0)) as [->|Hne].
  - change (uint_bits (Z.to_nat (0 * 8)) 0) with (@nil bool).
    rewrite app_nil_r. by apply appends_storeUint.
  - apply appends_seq; apply appends_storeUint.
    + change (2 ^ Z.of_nat 4) with 16. lia.
    + rewrite Z2Nat.id by lia. lia.
Qed.

Lemma appends_storeAddress a :
  valid_address a → appends (storeAddress (Some a)) (address_bits a).
Proof.
  intros [Hwc Hhash]. unfold storeAddress, address_bits.
  apply (appends_seq _ _ [true; false]); [by apply (appends_storeUint 2 2) |].
  apply (appends_seq _ _ [false]); [by apply (appends_storeUint 0 1) |].
  apply appends_seq; [by apply appends_storeInt8 | apply appends_storeBuffer].
Qed.

Lemma appends_storeAddress_null : appends (storeAddress None) no_address_bits.
Proof. by apply (appends_storeUint 0 2). Qed.

Lemma length_coins_bits v : valid_coins v → (length (coins_bits v) ≤ 124)%nat.
Proof.
  intros Hv. pose proof (coins_size_bounds v Hv) as [Hsz _].
  unfold coins_bits. rewrite length_app, !length_uint_bits. lia.
Qed.

Lemma length_address_bits a : valid_address a → length (address_bits a) = 267%nat.
Proof.
  intros [_ Hhash]. unfold address_bits, int8_bits.
  rewrite !length_app, length_buffer_bits, Hhash.
  destruct (decide (workChain a < 0)); cbn [length]; rewrite length_uint_bits; lia.
Qed.

#[global] Arguments coins_bits : simpl never.
#[global] Arguments address_bits : simpl never.
#[global] Arguments int8_bits : simpl never.

(** ** [mintBody] *)

Ltac len_solve :=
  cbn [b_bits b_refs length];
  rewrite ?length_app, ?length_uint_bits, ?length_buffer_bits;
  rewrite ?length_address_bits by assumption;
  repeat match goal with
         | H : valid_coins ?v |- _ =>
             lazymatch goal with
             | _ : (length (coins_bits v) ≤ 124)%nat |- _ => fail
             | _ => pose proof (length_coins_bits v H)
             end
         end;
  unfold CELL_MAX_BITS, CELL_MAX_REFS, no_address_bits; cbn [length]; lia.

(** One step of a run: the next primitive acts on a builder whose state
    is read off the store. *)
Ltac run_step lem :=
  rewrite run_bind; erewrite lem; [| reflexivity | len_solve..];
  cbn [insert list_insert b_bits b_refs].

Lemma mintBody_empty owner jettonAmount transferToJWallet queryId :
  valid_address owner → valid_coins jettonAmount →
  valid_coins transferToJWallet → valid_uint64 (orZero queryId) →
  ∃ h', mintBody owner jettonAmount transferToJWallet queryId [] =
        Ok (mintRequestCell owner jettonAmount transferToJWallet (orZero queryId), h').
Proof.
  intros Ha Hj Ht Hq.
  assert (valid_coins toNano_0_001) as Hfee by (by vm_compute).
  pose proof (appends_storeUint Opcodes.Mint 32 ltac:(by vm_compute)) as A1.
  pose proof (appends_storeUint _ 64 Hq) as A2.
  pose proof (appends_storeAddress owner Ha) as A3.
  pose proof (appends_storeCoins _ Ht) as A4.
  pose proof (appends_storeUint Opcodes.InternalTransfer 32 ltac:(by vm_compute)) as B1.
  pose proof (appends_storeCoins _ Hj) as B3.
  pose proof appends_storeAddress_null as B4.
  pose proof (appends_storeCoins _ Hfee) as B6.
  pose proof (appends_storeBit false) as B7.
  unfold mintBody, beginCell.
  rewrite run_bind. cbn [newBuilder length app].
  run_step A1. run_step A2. run_step A3. run_step A4.
  rewrite run_bind. cbn [newBuilder length app].
  run_step B1. run_step A2. run_step B3. run_step B4.
  run_step A3. run_step B6. run_step B7.
  run_step endCell_run. run_step storeRef_run.
  erewrite endCell_run; [| reflexivity | len_solve..].
  cbn [b_bits b_refs app].
  eexists. unfold mintRequestCell, internalTransferCell, toNano_0_001.
  by rewrite <- !app_assoc.
Qed.

(** ** The snake encoder *)

Lemma CELL_MAX_SIZE_BYTES_eq : CELL_MAX_SIZE_BYTES = 126%nat.
Proof. reflexivity. Qed.

Lemma snakeLoop_nil fuel currentCell : snakeLoop fuel [] currentCell = mret tt.
Proof. by destruct fuel. Qed.

(** The builder the loop is given ends with the first
    [CELL_MAX_SIZE_BYTES] bytes of the buffer, and with a reference to an
    empty cell when the buffer is longer: [storeRef] finished the next
    builder before the loop wrote to it.  The builders the loop
    allocates stay within the budget. *)
Lemma snakeLoop_run fuel : ∀ bufferToStore s,
  (length bufferToStore ≤ fuel)%nat →
  (length (b_bits s) ≤ 8)%nat → b_refs s = [] →
  ∃ h', snakeLoop fuel bufferToStore 0%nat [s] =
          Ok (tt, mkBuilder
                    (b_bits s ++ buffer_bits (take CELL_MAX_SIZE_BYTES bufferToStore))
                    (if decide (CELL_MAX_SIZE_BYTES < length bufferToStore)%nat
                     then [mkCell [] []] else [])
                  :: h')
        ∧ Forall within_snake_budget h'.
Proof.
  induction fuel as [|fuel IH]; intros buf [bits refs] Hfuel Hbits Hrefs;
    cbn [b_bits b_refs] in *; subst refs.
  - destruct buf; [| cbn in Hfuel; lia].
    exists []. cbn. by rewrite app_nil_r.
  - cbn [snakeLoop]. destruct (decide (0 < length buf)%nat) as [Hpos|Hnil].
    2:{ destruct buf; [| cbn in Hnil; lia]. exists []. cbn. by rewrite app_nil_r. }
    pose proof (length_take buf CELL_MAX_SIZE_BYTES) as Htake.
    pose proof (length_drop buf CELL_MAX_SIZE_BYTES) as Hdrop.
    rewrite CELL_MAX_SIZE_BYTES_eq in *.
    rewrite run_bind.
    erewrite (appends_storeBuffer _ _ 0%nat); [| reflexivity |].
    2:{ cbn [b_bits]. rewrite length_buffer_bits. unfold CELL_MAX_BITS. lia. }
    cbn [insert list_insert b_bits b_refs].
    destruct (decide (0 < length (drop 126 buf))%nat) as [Hmore|Hlast].
    + rewrite run_bind. cbn [newBuilder length app].
      rewrite run_bind.
      erewrite (storeRefBuilder_run _ 0%nat _ 1%nat); [| reflexivity..| | |];
        [| len_solve..].
      cbn [insert list_insert b_bits b_refs app].
      rewrite run_bind.
      erewrite (endCell_run _ 0%nat); [| reflexivity | |].
      2:{ cbn [b_bits]. rewrite length_app, length_buffer_bits.
          unfold CELL_MAX_BITS. lia. }
      2:{ len_solve. }
      change [?a; ?b] with ([a] ++ [b]).
      rewrite (framed_snakeLoop 1 fuel (drop 126 buf) 0%nat [_] [_] eq_refl).
      destruct (IH (drop 126 buf) (mkBuilder [] [])) as (h' & Hrun & Hall);
        [lia | cbn; lia | done |].
      rewrite Hrun. cbn [prefixed app b_bits b_refs].
      rewrite (decide_True (P := (126 < length buf)%nat)) by lia.
      eexists. split; [reflexivity |].
      constructor; [| done].
      split; cbn [b_bits b_refs app].
      * rewrite length_buffer_bits, length_take, CELL_MAX_SIZE_BYTES_eq. lia.
      * destruct (decide _); cbn; lia.
    + assert (drop 126 buf = []) as -> by (apply nil_length_inv; lia).
      rewrite snakeLoop_nil, decide_False by lia.
      by exists [].
Qed.

Lemma snakeCell_run bufferToStore h :
  ∃ h', snakeCell bufferToStore h = Ok (snakeCellOf bufferToStore, h ++ h')
        ∧ Forall within_snake_budget h'.
Proof.
  rewrite (framed_run _ h (λ n, framed_snakeCell n bufferToStore)).
  unfold snakeCell.
  rewrite run_bind. cbn [newBuilder length app].
  run_step (appends_storeUint SNAKE_PREFIX 8 ltac:(by vm_compute)).
  destruct (snakeLoop_run (length bufferToStore) bufferToStore
              (mkBuilder ([] ++ uint_bits 8 SNAKE_PREFIX) []))
    as (h' & Hrun & Hall); [done | len_solve | done |].
  rewrite run_bind, Hrun.
  pose proof (length_take bufferToStore CELL_MAX_SIZE_BYTES) as Htake.
  rewrite CELL_MAX_SIZE_BYTES_eq in *.
  erewrite endCell_run; [| reflexivity | |].
  2:{ cbn [b_bits app]. rewrite length_app, length_uint_bits, length_buffer_bits.
      unfold CELL_MAX_BITS. lia. }
  2:{ cbn [b_refs]. destruct (decide _); cbn; unfold CELL_MAX_REFS; lia. }
  cbn [prefixed b_bits b_refs app]. eexists. split; [reflexivity |].
  constructor; [| done].
  split; cbn [b_bits b_refs app].
  - rewrite length_app, length_uint_bits, length_buffer_bits, CELL_MAX_SIZE_BYTES_eq. lia.
  - destruct (decide _); cbn; lia.
Qed.

Lemma snakeDecode_snakeCellOf bufferToStore :
  snakeDecode (snakeCellOf bufferToStore)
  = Some (take CELL_MAX_SIZE_BYTES bufferToStore).
Proof.
  unfold snakeDecode, snakeCellOf.
  destruct (decide _); cbn [chainBits]; rewrite ?app_nil_r.
  all: change (uint_bits 8 SNAKE_PREFIX) with (repeat false 8).
  all: simpl; by rewrite drop_0, bits_buffer_buffer_bits.
Qed.

(** A buffer that fits in one cell does come back. *)
Lemma snake_roundtrip_one_cell v h :
  (length v ≤ CELL_MAX_SIZE_BYTES)%nat →
  ∃ c h', snakeCell v h = Ok (c, h') ∧ snakeDecode c = Some v.
Proof.
  intros Hlen. destruct (snakeCell_run v h) as (h' & Hrun & _).
  eexists _, _. split; [exact Hrun |].
  by rewrite snakeDecode_snakeCellOf, take_ge.
Qed.

(** A buffer longer than one cell gives a chain of two cells, the second
    one empty. *)
Lemma snake_long_buffer_chain v :
  (CELL_MAX_SIZE_BYTES < length v)%nat →
  chainCells (snakeCellOf v) = [snakeCellOf v; mkCell [] []].
Proof. intros Hlen. unfold snakeCellOf. by rewrite decide_True. Qed.

(** C1, at the failing input: for a buffer of 127 bytes, one more than a
    cell holds, the encoder succeeds, and decoding its chain gives the
    first 126 bytes only; the last byte is in no cell of the chain. *)
Theorem snake_roundtrip_loses_tail :
  let v := repeat "a"%byte 127 in
  ∃ c h', snakeCell v [] = Ok (c, h')
          ∧ snakeDecode c = Some (repeat "a"%byte 126)
          ∧ snakeDecode c ≠ Some v.
Proof.
  intros v. destruct (snakeCell_run v []) as (h' & Hrun & _).
  eexists _, _. split; [exact Hrun |].
  rewrite snakeDecode_snakeCellOf. split; [reflexivity |].
  intros Heq. apply (f_equal (option_map length)) in Heq. by vm_compute in Heq.
Qed.

(** C2, at the failing inputs: for buffers of exactly 2 and 3 times the
    cell capacity, the chain has two cells, the root with the prefix and
    126 bytes, and an empty terminal cell. *)
Theorem snake_chunk_boundary_empty_tail :
  let shape (c : Cell) := (length (cell_bits c), length (cell_refs c)) in
  (∃ c h', snakeCell (repeat "a"%byte (2 * 126)) [] = Ok (c, h')
           ∧ shape <$> chainCells c = [(1016, 1); (0, 0)]%nat)
  ∧ (∃ c h', snakeCell (repeat "a"%byte (3 * 126)) [] = Ok (c, h')
             ∧ shape <$> chainCells c = [(1016, 1); (0, 0)]%nat).
Proof.
  intros shape. split.
  - destruct (snakeCell_run (repeat "a"%byte (2 * 126)) []) as (h' & Hrun & _).
    eexists _, _. split; [exact Hrun |]. by vm_compute.
  - destruct (snakeCell_run (repeat "a"%byte (3 * 126)) []) as (h' & Hrun & _).
    eexists _, _. split; [exact Hrun |]. by vm_compute.
Qed.

(** C9: in any store and for any buffer, the snake encoder returns a
    cell without raising an error, and every builder it allocates ends
    with at most 8 + 126 * 8 = 1016 bits and at most one reference,
    within the limits of 1023 bits and 4 references of a cell. *)
Theorem snake_builders_within_budget (bufferToStore : Buffer) (h : Heap) :
  ∃ c h', snakeCell bufferToStore h = Ok (c, h ++ h')
          ∧ Forall within_snake_budget h'
          ∧ (8 + CELL_MAX_SIZE_BYTES * 8 = 1016)%nat
          ∧ (1016 ≤ CELL_MAX_BITS)%nat ∧ (1 ≤ CELL_MAX_REFS)%nat.
Proof.
  destruct (snakeCell_run bufferToStore h) as (h' & Hrun & Hall).
  exists (snakeCellOf bufferToStore), h'.
  repeat split; [exact Hrun | exact Hall | unfold CELL_MAX_BITS; lia
                 | unfold CELL_MAX_REFS; lia].
Qed.

(** ** The metadata dictionary *)

(** The digest agrees with the test vector of the standard for ["abc"],
    and the dictionary key of [name] is the one of the token data
    standard, 0x82a3537f...e3ce89. *)
Example sha256_abc :
  Byte.to_N <$> sha256 (js "abc")
  = [186; 120; 22; 191; 143; 1; 207; 234; 65; 65; 64; 222; 93; 174; 34; 35;
     176; 3; 97; 163; 150; 23; 122; 156; 180; 16; 255; 97; 242; 0; 21; 173]%N.
Proof. by vm_compute. Qed.

Example dictKey_name :
  Byte.to_N <$> dictKey (js "name")
  = [130; 163; 83; 127; 240; 219; 206; 126; 236; 53; 214; 158; 220; 58; 24; 158;
     230; 241; 125; 130; 243; 83; 165; 83; 249; 170; 150; 203; 11; 227; 206; 137]%N.
Proof. by vm_compute. Qed.

Lemma length_word_bytes w : length (SHA256.word_bytes w) = 4%nat.
Proof. reflexivity. Qed.

Lemma length_sha256 k : length (sha256 k) = 32%nat.
Proof.
  unfold sha256, SHA256.digest, SHA256.state_bytes.
  by rewrite !length_app, !length_word_bytes.
Qed.

Lemma sha256_slice k : take KEYLEN (sha256 k) = dictKey k.
Proof.
  unfold dictKey. rewrite !take_ge; [done | |];
    rewrite length_sha256; vm_compute; lia.
Qed.

Lemma NoDup_fmap_inj_on {A B} (f : A → B) (l : list A) x y :
  NoDup (f <$> l) → x ∈ l → y ∈ l → f x = f y → x = y.
Proof.
  induction l as [|a l IH]; intros Hnd Hx Hy Heq; [by apply elem_of_nil in Hx |].
  rewrite fmap_cons in Hnd. apply NoDup_cons in Hnd as [Ha Hnd].
  apply elem_of_cons in Hx as [->|Hx]; apply elem_of_cons in Hy as [->|Hy].
  - done.
  - destruct Ha. rewrite Heq. by apply list_elem_of_fmap_2.
  - destruct Ha. rewrite <- Heq. by apply list_elem_of_fmap_2.
  - by apply IH.
Qed.

Lemma dictKey_NoDup : NoDup (dictKey <$> JettonMetaDataKeys).
Proof.
  apply (bool_decide_unpack (NoDup (dictKey <$> JettonMetaDataKeys))).
  by vm_compute.
Qed.

Lemma dictKey_inj k1 k2 :
  k1 ∈ JettonMetaDataKeys → k2 ∈ JettonMetaDataKeys →
  dictKey k1 = dictKey k2 → k1 = k2.
Proof. apply NoDup_fmap_inj_on, dictKey_NoDup. Qed.

Lemma getProperty_recognised k :
  k ∈ JettonMetaDataKeys → getProperty k ≠ PUndefined.
Proof.
  unfold JettonMetaDataKeys. intros Hk.
  repeat (apply elem_of_cons in Hk as [->|Hk]);
    try (by apply elem_of_nil in Hk); by vm_compute.
Qed.

Section AssocMapFacts.
Context {K V : Type} `{EqDecision K}.
Implicit Types (m : list (K * V)).

Lemma map_get_None k m : map_get k m = None ↔ k ∉ m.*1.
Proof.
  induction m as [|[k' v'] m IH]; cbn.
  - split; [intros _ []%elem_of_nil | done].
  - rewrite not_elem_of_cons. destruct (decide (k' = k)) as [->|Hne].
    + split; [done | by intros [[] _]].
    + rewrite IH. split; [by intros ? | by intros [_ ?]].
Qed.

Lemma map_get_set_eq k v m : map_get k (map_set k v m) = Some v.
Proof.
  induction m as [|[k' v'] m IH]; cbn.
  - by rewrite decide_True.
  - destruct (decide (k' = k)) as [->|Hne]; cbn.
    + by rewrite decide_True.
    + by rewrite decide_False.
Qed.

Lemma map_get_set_ne k k' v m :
  k ≠ k' → map_get k' (map_set k v m) = map_get k' m.
Proof.
  intros Hne. induction m as [|[k0 v0] m IH]; cbn.
  - by rewrite decide_False.
  - destruct (decide (k0 = k)) as [->|Hne0]; cbn.
    + by rewrite !decide_False.
    + by destruct (decide (k0 = k')).
Qed.
End AssocMapFacts.

Lemma getProperty_undefined k :
  getProperty k = PUndefined
  ↔ (k ∉ JettonMetaDataKeys) ∧ (k ∉ Object_prototype).
Proof.
  unfold getProperty.
  change JettonMetaDataKeys with (jettonOnChainMetadataSpec.*1).
  destruct (map_get k jettonOnChainMetadataSpec) as [e|] eqn:Hget.
  - split; [done |]. intros [Hk _]. apply map_get_None in Hk. congruence.
  - apply map_get_None in Hget.
    destruct (decide (k ∈ Object_prototype)); split; try done.
    by intros [_ ?].
Qed.

Lemma metadataEntry_unsupported dict k v h :
  getProperty k = PUndefined →
  metadataEntry dict (k, v) h = Err (UnsupportedOnchainKey k).
Proof. intros Hk. unfold metadataEntry. by rewrite Hk. Qed.

Lemma metadataEntry_run dict k v h :
  getProperty k ≠ PUndefined →
  ∃ h', metadataEntry dict (k, v) h = Ok (entryOf dict (k, v), h ++ h').
Proof.
  intros Hk. unfold metadataEntry, entryOf. cbn [fst snd].
  destruct (getProperty k) eqn:Hp; [| | done]; cbn [truthy negb].
  all: destruct v as [s|]; [| exists []; by rewrite app_nil_r].
  all: destruct (decide (s = [])); [exists []; by rewrite app_nil_r |].
  all: rewrite run_bind.
  all: destruct (snakeCell_run (Buffer_from s (getProperty k)) h) as (h' & Hrun & _).
  all: rewrite Hp in Hrun; rewrite Hrun.
  all: exists h'; by rewrite sha256_slice.
Qed.

Lemma forEach_metadata_run data : ∀ dict h,
  Forall (λ kv, getProperty kv.1 ≠ PUndefined) data →
  ∃ h', forEach metadataEntry data dict h = Ok (dictOf data dict, h ++ h').
Proof.
  induction data as [|[k v] data IH]; intros dict h Hall.
  - exists []. by rewrite app_nil_r.
  - apply Forall_cons in Hall as [Hk Hall]. cbn [forEach].
    destruct (metadataEntry_run dict k v h Hk) as (h1 & Hrun).
    rewrite run_bind, Hrun.
    destruct (IH (entryOf dict (k, v)) (h ++ h1) Hall) as (h2 & Hrest).
    rewrite Hrest. exists (h1 ++ h2). by rewrite app_assoc.
Qed.

Lemma forEach_metadata_unsupported data : ∀ dict h,
  Exists (λ kv, getProperty kv.1 = PUndefined) data →
  ∃ k, k ∈ data.*1 ∧ getProperty k = PUndefined
       ∧ forEach metadataEntry data dict h = Err (UnsupportedOnchainKey k).
Proof.
  induction data as [|[k v] data IH]; intros dict h Hex.
  - by apply Exists_nil in Hex.
  - cbn [forEach]. rewrite run_bind.
    assert (getProperty k = PUndefined ∨ getProperty k ≠ PUndefined) as [Hk|Hk]
      by (destruct (getProperty k); first [by left | by right]).
    + exists k. rewrite (metadataEntry_unsupported _ _ _ _ Hk).
      split; [by left | done].
    + apply Exists_cons in Hex as [Hex|Hex]; [done |].
      destruct (metadataEntry_run dict k v h Hk) as (h1 & ->).
      destruct (IH (entryOf dict (k, v)) (h ++ h1) Hex) as (k' & Hin & Hk' & Hrun).
      exists k'. split; [by right | done].
Qed.

Lemma entryOf_get_other dict kv key :
  (is_empty_value kv.2 = false → dictKey kv.1 ≠ key) →
  dict_get key (entryOf dict kv) = dict_get key dict.
Proof.
  intros Hkey. unfold entryOf. destruct kv as [k [s|]]; cbn [fst snd] in *; [| done].
  destruct (decide (s = [])) as [->|Hs]; [done |].
  apply map_get_set_ne, Hkey. by apply bool_decide_eq_false.
Qed.

Lemma dictOf_get_other data : ∀ dict key,
  (∀ kv, kv ∈ data → is_empty_value kv.2 = false → dictKey kv.1 ≠ key) →
  dict_get key (dictOf data dict) = dict_get key dict.
Proof.
  induction data as [|kv data IH]; intros dict key Hkeys; [done |].
  cbn [dictOf fold_left]. fold (dictOf data (entryOf dict kv)).
  rewrite IH by (intros; apply Hkeys; [by right | done]).
  apply entryOf_get_other, Hkeys. by left.
Qed.

(** A key of the final dictionary was in the initial one or comes from
    an entry with a non-empty value. *)
Lemma dictOf_get_Some data : ∀ dict key,
  is_Some (dict_get key (dictOf data dict)) →
  is_Some (dict_get key dict)
  ∨ ∃ k s, (k, Some s) ∈ data ∧ s ≠ [] ∧ key = dictKey k.
Proof.
  induction data as [|[k v] data IH]; intros dict key Hsome; [by left |].
  cbn [dictOf fold_left] in Hsome. fold (dictOf data (entryOf dict (k, v))) in Hsome.
  destruct (IH _ _ Hsome) as [Hhere|(k' & s & Hin & Hs & ->)].
  - unfold entryOf in Hhere. cbn [fst snd] in Hhere.
    destruct v as [s|]; [| by left].
    destruct (decide (s = [])) as [->|Hs]; [by left |].
    destruct (decide (dictKey k = key)) as [<-|Hne].
    + right. exists k, s. split; [by left | done].
    + left. unfold dict_get, dict_set in *. by rewrite map_get_set_ne in Hhere.
  - right. exists k', s. split; [by right | done].
Qed.

Lemma dictOf_get_entry data : ∀ dict k s,
  NoDup data.*1 → Forall (λ k, k ∈ JettonMetaDataKeys) data.*1 →
  (k, Some s) ∈ data → s ≠ [] →
  dict_get (dictKey k) (dictOf data dict)
  = Some (snakeCellOf (Buffer_from s (getProperty k))).
Proof.
  induction data as [|[k0 v0] data IH]; intros dict k s Hnd Hrec Hin Hs;
    [by apply elem_of_nil in Hin |].
  rewrite fmap_cons in Hnd, Hrec. cbn [fst] in Hnd, Hrec.
  apply NoDup_cons in Hnd as [Hk0 Hnd]. apply Forall_cons in Hrec as [Hrec0 Hrec].
  cbn [dictOf fold_left]. fold (dictOf data (entryOf dict (k0, v0))).
  apply elem_of_cons in Hin as [[= <- <-]|Hin]; [| by apply IH].
  rewrite dictOf_get_other.
  - unfold entryOf. cbn [fst snd]. rewrite decide_False by done.
    apply map_get_set_eq.
  - intros [k' v'] Hin' _ Heq. cbn [fst] in Heq.
    assert (k' ∈ data.*1) as Hk' by (by apply (list_elem_of_fmap_2 fst _ (k', v'))).
    apply dictKey_inj in Heq; [by subst | | done].
    by apply (proj1 (Forall_forall _ _) Hrec).
Qed.

(** ** Serialising the dictionary of a mapping over the recognised keys *)

Lemma map_set_keys {K V} `{EqDecision K} (k : K) (v : V) (m : list (K * V)) :
  NoDup m.*1 →
  NoDup (map_set k v m).*1 ∧ ∀ k', k' ∈ (map_set k v m).*1 → k' = k ∨ k' ∈ m.*1.
Proof.
  induction m as [|[k0 v0] m IH]; intros Hnd.
  - split; [repeat constructor; by intros ?%elem_of_nil |].
    intros k' [->|[]%elem_of_nil]%elem_of_cons. by left.
  - rewrite fmap_cons in Hnd. cbn [fst] in Hnd.
    apply NoDup_cons in Hnd as [Hk0 Hnd]. cbn [map_set].
    destruct (decide (k0 = k)) as [->|Hne].
    + split; [by apply NoDup_cons |].
      intros k' Hk'. by right.
    + destruct (IH Hnd) as [Hnd' Hin']. rewrite fmap_cons. cbn [fst].
      split.
      * apply NoDup_cons. split; [| done].
        intros Hin. destruct (Hin' _ Hin); by subst.
      * intros k' [->|Hk']%elem_of_cons; [right; by left |].
        destruct (Hin' _ Hk'); [by left | right; by right].
Qed.

Lemma dictOf_keys (P : Buffer → Prop) data : ∀ dict,
  NoDup dict.*1 → Forall P dict.*1 →
  Forall (λ kv, P (dictKey kv.1)) data →
  NoDup (dictOf data dict).*1 ∧ Forall P (dictOf data dict).*1.
Proof.
  induction data as [|[k v] data IH]; intros dict Hnd Hall Hdata; [done |].
  apply Forall_cons in Hdata as [Hk Hdata]. cbn [fst] in Hk.
  cbn [dictOf fold_left]. apply IH; [| | done].
  - unfold entryOf. cbn [fst snd]. destruct v as [s|]; [| done].
    destruct (decide (s = [])); [done |]. by apply map_set_keys.
  - unfold entryOf. cbn [fst snd]. destruct v as [s|]; [| done].
    destruct (decide (s = [])); [done |].
    apply Forall_forall. intros k' Hk'.
    destruct (proj2 (map_set_keys _ _ _ Hnd) _ Hk') as [->|Hin]; [done |].
    by apply (proj1 (Forall_forall _ _) Hall).
Qed.

(** The four dictionary keys are fixed byte strings, so the prefix tree
    has one of finitely many shapes; the values are not looked at. *)
Lemma dictKey_name_eq : dictKey (js "name") = key_name.
Proof. by vm_compute. Qed.

Lemma dictKey_description_eq : dictKey (js "description") = key_description.
Proof. by vm_compute. Qed.

Lemma dictKey_image_eq : dictKey (js "image") = key_image.
Proof. by vm_compute. Qed.

Lemma dictKey_symbol_eq : dictKey (js "symbol") = key_symbol.
Proof. by vm_compute. Qed.

Ltac nodup_contra H :=
  repeat (let Hn := fresh in
          apply NoDup_cons in H as [Hn H];
          try (destruct Hn; solve [repeat constructor])).

Lemma serializeContent_total (dict : Dictionary) :
  NoDup dict.*1 → Forall (λ k, k ∈ dictKey <$> JettonMetaDataKeys) dict.*1 →
  ∃ c h', serializeContent dict [] = Ok (c, h').
Proof.
  intros Hnd Hall.
  assert (length dict ≤ 4)%nat as Hlen.
  { rewrite <- (length_fmap fst).
    change 4%nat with (length (dictKey <$> JettonMetaDataKeys)).
    apply submseteq_length, NoDup_submseteq; [done |].
    by apply Forall_forall. }
  unfold JettonMetaDataKeys in Hall. rewrite !fmap_cons, fmap_nil in Hall.
  rewrite dictKey_name_eq, dictKey_description_eq, dictKey_image_eq,
    dictKey_symbol_eq in Hall.
  destruct dict as [|[k1 c1] [|[k2 c2] [|[k3 c3] [|[k4 c4] [|? ?]]]]];
    [| | | | | cbn in Hlen; lia]; clear Hlen.
  all: rewrite ?fmap_cons, ?fmap_nil in Hall, Hnd; cbn [fst] in Hall, Hnd.
  all: repeat match goal with
              | H : Forall _ (_ :: _) |- _ => apply Forall_cons in H as [? H]
              end; clear Hall.
  all: repeat match goal with
              | H : _ ∈ _ :: _ |- _ => apply elem_of_cons in H as [->|H]
              | H : _ ∈ [] |- _ => by apply elem_of_nil in H
              end.
  all: first [solve [nodup_contra Hnd] | eexists _, _; vm_compute; reflexivity].
Qed.

Lemma buildTokenMetadataCell_total (data : Entries) (h : Heap) :
  Forall (λ k, k ∈ JettonMetaDataKeys) data.*1 →
  ∃ c h', buildTokenMetadataCell data h = Ok (c, h').
Proof.
  intros Hrec.
  rewrite (framed_run _ h (λ n, framed_buildTokenMetadataCell n data)).
  destruct (forEach_metadata_run data Dictionary_empty []) as (h1 & Hrun).
  { apply Forall_forall. intros [k v] Hin. apply getProperty_recognised.
    apply (proj1 (Forall_forall _ _) Hrec).
    by apply (list_elem_of_fmap_2 fst _ (k, v)). }
  destruct (dictOf_keys (λ k, k ∈ dictKey <$> JettonMetaDataKeys) data
              Dictionary_empty) as [Hnd Hall];
    [constructor | constructor | |].
  { apply Forall_forall. intros [k v] Hin. apply list_elem_of_fmap_2.
    apply (proj1 (Forall_forall _ _) Hrec).
    by apply (list_elem_of_fmap_2 fst _ (k, v)). }
  destruct (serializeContent_total _ Hnd Hall) as (c & h2 & Hser).
  change (buildTokenMetadataCell data)
    with (buildTokenMetadataDict data ≫= serializeContent).
  unfold buildTokenMetadataDict. rewrite run_bind, Hrun.
  rewrite (framed_run _ ([] ++ h1) (λ n, framed_serializeContent n _)), Hser.
  by eexists _, _.
Qed.

(** C4, at the failing inputs: the keys [constructor] and [toString] are
    outside the enumeration, and the mappings [{constructor: "x"}] and
    [{toString: ""}] are not rejected: the table lookup finds the
    properties inherited from [Object.prototype].  The first build
    returns a cell with a one-entry dictionary keyed by the hash of
    ["constructor"], the second the cell of the empty dictionary. *)
Theorem inherited_key_not_rejected :
  let data := [(js "constructor", Some (js "x"))] in
  (js "constructor" ∉ JettonMetaDataKeys)
  ∧ (js "toString" ∉ JettonMetaDataKeys)
  ∧ (∃ h', buildTokenMetadataDict data [] =
           Ok ([(dictKey (js "constructor"),
                 snakeCellOf (utf8_encode (js "x")))], h'))
  ∧ (∃ c h', buildTokenMetadataCell data [] = Ok (c, h'))
  ∧ (∃ h', buildTokenMetadataCell [(js "toString", Some (js ""))] [] =
           Ok (mkCell (repeat false 8 ++ [false]) [], h')).
Proof.
  intros data. split; [| split; [| split; [| split]]].
  - apply (bool_decide_unpack (js "constructor" ∉ JettonMetaDataKeys)).
    by vm_compute.
  - apply (bool_decide_unpack (js "toString" ∉ JettonMetaDataKeys)).
    by vm_compute.
  - eexists. by vm_compute.
  - eexists _, _. by vm_compute.
  - eexists. by vm_compute.
Qed.

(** C5, counterexample: the keys [foo] of the mappings [{foo: ""}] and
    [{foo: undefined}] are outside the enumeration and their values are
    empty or absent, and both builds fail with the unsupported-key
    error. *)
Lemma empty_value_key_still_validated :
  (js "foo" ∉ JettonMetaDataKeys)
  ∧ is_empty_value (Some (js "")) = true ∧ is_empty_value None = true
  ∧ buildTokenMetadataCell [(js "foo", Some (js ""))] []
    = Err (UnsupportedOnchainKey (js "foo"))
  ∧ buildTokenMetadataCell [(js "foo", None)] []
    = Err (UnsupportedOnchainKey (js "foo")).
Proof.
  split; [| by vm_compute].
  apply (bool_decide_unpack (js "foo" ∉ JettonMetaDataKeys)). by vm_compute.
Qed.

(** C5, amended: the key of every pair is validated before its value is
    looked at.  When some pair has a key that the table lookup does not
    find (a key that is neither recognised nor the name of a property of
    [Object.prototype]), whatever the value of that pair, also
    [undefined] or the empty string, the build fails in any store with
    the unsupported-key error for a key outside the enumeration. *)
Theorem key_validated_whatever_the_value
    (data : Entries) (k : JSString) (v : option JSString) (h : Heap) :
  (k, v) ∈ data → k ∉ JettonMetaDataKeys → k ∉ Object_prototype →
  ∃ k', k' ∈ data.*1 ∧ (k' ∉ JettonMetaDataKeys)
        ∧ buildTokenMetadataCell data h = Err (UnsupportedOnchainKey k').
Proof.
  intros Hin Hk Hproto.
  destruct (forEach_metadata_unsupported data Dictionary_empty h)
    as (k' & Hin' & Hk' & Hrun).
  { apply Exists_exists. exists (k, v). split; [done |].
    by apply getProperty_undefined. }
  exists k'. split; [done |].
  split; [exact (proj1 (proj1 (getProperty_undefined k') Hk')) |].
  unfold buildTokenMetadataCell, buildTokenMetadataDict.
  by rewrite run_bind, Hrun.
Qed.

(** The same at the mapping [{foo: ""}]. *)
Lemma key_validated_whatever_the_value_witness :
  ∃ k', k' ∈ [(js "foo", Some (js ""))].*1 ∧ (k' ∉ JettonMetaDataKeys)
        ∧ buildTokenMetadataCell [(js "foo", Some (js ""))] []
          = Err (UnsupportedOnchainKey k').
Proof.
  apply (key_validated_whatever_the_value
           [(js "foo", Some (js ""))] (js "foo") (Some (js "")) []).
  - by left.
  - apply (bool_decide_unpack (js "foo" ∉ JettonMetaDataKeys)). by vm_compute.
  - apply (bool_decide_unpack (js "foo" ∉ Object_prototype)). by vm_compute.
Defined.

(** C8: the cell tree, or the error, that [buildTokenMetadataCell]
    gives for a mapping is the same in every store: it depends on the
    mapping only, so two calls on the same mapping give the same tree. *)
Theorem metadata_deterministic (data : Entries) (h1 h2 : Heap) :
  outcome (buildTokenMetadataCell data h1)
  = outcome (buildTokenMetadataCell data h2).
Proof.
  rewrite (framed_outcome _ h1 (λ n, framed_buildTokenMetadataCell n data)).
  rewrite (framed_outcome _ h2 (λ n, framed_buildTokenMetadataCell n data)).
  reflexivity.
Qed.

(** C3: for a valid owner address, coin amounts and a query id that
    fits 64 bits (0 when absent), in any store, [mintBody] returns the
    cell whose bits are the opcode 0x15 on 32 bits, the query id on 64
    bits, the owner address and the transfer fee as a coin amount, with
    one reference: the cell whose bits are the opcode 0x178d4519 on 32
    bits, the query id on 64 bits, the jetton amount as a coin amount,
    the no-address sentinel, the owner address, the coin amount
    1000000 (0.001 of the native unit) and one bit 0, with no
    reference. *)
Theorem mintBody_layout (owner : Address) (jettonAmount transferToJWallet : Z)
    (queryId : option Z) (h : Heap) :
  valid_address owner → valid_coins jettonAmount →
  valid_coins transferToJWallet → valid_uint64 (orZero queryId) →
  ∃ h', mintBody owner jettonAmount transferToJWallet queryId h =
    Ok (mkCell
          (uint_bits 32 0x15 ++ uint_bits 64 (orZero queryId)
           ++ address_bits owner ++ coins_bits transferToJWallet)
          [mkCell
             (uint_bits 32 0x178d4519 ++ uint_bits 64 (orZero queryId)
              ++ coins_bits jettonAmount ++ no_address_bits
              ++ address_bits owner ++ coins_bits 1000000 ++ [false])
             []],
        h').
Proof.
  intros Ha Hj Ht Hq.
  rewrite (framed_run _ h (λ n, framed_mintBody n owner jettonAmount
                                  transferToJWallet queryId)).
  destruct (mintBody_empty owner jettonAmount transferToJWallet queryId
              Ha Hj Ht Hq) as (h' & ->).
  by exists (h ++ h').
Qed.

(** The same at the mint request of 1000 jettons with transfer fee 500
    and query id 7, to an address of workchain 0. *)
Lemma mintBody_layout_witness :
  let A := mkAddress 0 (repeat "017"%byte 32) in
  ∃ h', mintBody A 1000 500 (Some 7) [] =
    Ok (mkCell
          (uint_bits 32 0x15 ++ uint_bits 64 7
           ++ address_bits A ++ coins_bits 500)
          [mkCell
             (uint_bits 32 0x178d4519 ++ uint_bits 64 7
              ++ coins_bits 1000 ++ no_address_bits
              ++ address_bits A ++ coins_bits 1000000 ++ [false])
             []],
        h').
Proof.
  intros A.
  apply (mintBody_layout A 1000 500 (Some 7) []).
  - split; [simpl; lia | reflexivity].
  - unfold valid_coins. lia.
  - unfold valid_coins. lia.
  - unfold valid_uint64. simpl. lia.
Defined.

(** ** [storeStringTail] and [send] *)

Lemma chainBits_app a bits refs :
  (length refs ≤ 1)%nat →
  chainBits (mkCell (a ++ bits) refs)
  = (a ++.) <$> chainBits (mkCell bits refs).
Proof.
  intros Hrefs. destruct refs as [|c [|c' refs]]; [done | | cbn in Hrefs; lia].
  cbn [chainBits]. destruct (chainBits c); cbn; [by rewrite app_assoc | done].
Qed.

(** The bytes go to the builder as far as whole bytes fit; the rest goes
    to a chain of cells hanging from one more reference. *)
Lemma writeBuffer_run fuel : ∀ src s,
  (length src ≤ fuel)%nat →
  (length (b_bits s) ≤ CELL_MAX_BITS - 8)%nat →
  (length (b_refs s) < CELL_MAX_REFS)%nat →
  ∃ bits refs h',
    writeBuffer fuel src 0%nat [s] =
      Ok (tt, mkBuilder (b_bits s ++ bits) (b_refs s ++ refs) :: h')
    ∧ (length (b_bits s ++ bits) ≤ CELL_MAX_BITS)%nat
    ∧ (length refs ≤ 1)%nat
    ∧ chainBits (mkCell bits refs) = Some (buffer_bits src)
    ∧ bits = buffer_bits (take ((CELL_MAX_BITS - length (b_bits s)) / 8) src)
    ∧ (refs = [] ↔ (length src ≤ (CELL_MAX_BITS - length (b_bits s)) / 8)%nat).
Proof.
  unfold CELL_MAX_BITS, CELL_MAX_REFS.
  induction fuel as [|fuel IH]; intros src [sbits srefs] Hfuel Hbits Hrefs;
    cbn [b_bits b_refs] in *.
  - destruct src; [| cbn in Hfuel; lia].
    exists [], [], []. cbn. rewrite !app_nil_r, take_nil.
    repeat split; first [done | lia].
  - cbn [writeBuffer]. destruct (decide (0 < length src)%nat) as [Hpos|Hnil].
    2:{ destruct src; [| cbn in Hnil; lia].
        exists [], [], []. cbn. rewrite !app_nil_r, take_nil.
        repeat split; first [done | lia]. }
    rewrite run_bind. unfold availableBits at 1.
    rewrite run_bind, (getBuilder_run [_] 0%nat _ eq_refl).
    cbn [mret M_ret ret b_bits]. unfold CELL_MAX_BITS.
    set (bytes := ((1023 - length sbits) / 8)%nat).
    assert (1 ≤ bytes ∧ 8 * bytes ≤ 1023 - length sbits)%nat as [Hb1 Hb8]
      by (subst bytes; split; [apply Nat.div_le_lower_bound; lia
                                | apply Nat.Div0.mul_div_le]).
    pose proof (length_take src bytes) as Htake.
    pose proof (length_drop src bytes) as Hdrop.
    destruct (decide (bytes < length src)%nat) as [Hlong|Hshort].
    + rewrite run_bind.
      erewrite (appends_storeBuffer _ _ 0%nat); [| reflexivity |].
      2:{ cbn [b_bits]. rewrite length_buffer_bits. unfold CELL_MAX_BITS. lia. }
      cbn [insert list_insert b_bits b_refs].
      rewrite run_bind. cbn [beginCell newBuilder length app].
      change [?a; ?b] with ([a] ++ [b]).
      rewrite run_bind.
      rewrite (framed_writeBuffer 1 fuel (drop bytes src) 0%nat [_] [_] eq_refl).
      destruct (IH (drop bytes src) (mkBuilder [] []))
        as (bits' & refs' & h' & Hrun & Hlen' & Hrefs' & Hchain' & _);
        [lia | cbn; lia | cbn; lia |].
      rewrite Hrun. cbn [prefixed app b_bits b_refs] in *.
      rewrite run_bind.
      erewrite (endCell_run _ 1%nat); [| reflexivity | |];
        [| cbn [b_bits b_refs]; unfold CELL_MAX_BITS, CELL_MAX_REFS; lia..].
      cbn [b_bits b_refs].
      erewrite (storeRef_run _ 0%nat); [| reflexivity |];
        [| cbn [b_refs]; unfold CELL_MAX_REFS; lia].
      cbn [insert list_insert b_bits b_refs].
      eexists _, _, _. split; [reflexivity |].
      repeat split.
      * rewrite length_app, length_buffer_bits. lia.
      * cbn. lia.
      * cbn [chainBits]. destruct refs' as [|c' [|c'' refs']];
          [| | cbn in Hrefs'; lia]; cbn [chainBits] in *.
        -- injection Hchain' as ->.
           by rewrite <- buffer_bits_app, take_drop.
        -- destruct (chainBits c') as [rest|]; [| done].
           injection Hchain' as Hchain'.
           by rewrite Hchain', <- buffer_bits_app, take_drop.
      * done.
      * lia.
    + erewrite (appends_storeBuffer _ _ 0%nat); [| reflexivity |].
      2:{ cbn [b_bits]. rewrite length_buffer_bits. unfold CELL_MAX_BITS. lia. }
      cbn [insert list_insert b_bits b_refs].
      exists (buffer_bits src), [], []. rewrite app_nil_r.
      repeat split.
      * rewrite length_app, length_buffer_bits. lia.
      * cbn. lia.
      * by rewrite take_ge by lia.
      * lia.
Qed.

Lemma textBody_run message :
  ∃ c, (∀ h, ∃ h', textBody message h = Ok (c, h'))
       ∧ chainBits c = Some (uint_bits 32 0 ++ buffer_bits (utf8_encode message))
       ∧ cell_bits c
         = uint_bits 32 0 ++ buffer_bits (take TEXT_ROOM_BYTES (utf8_encode message))
       ∧ (cell_refs c = [] ↔ (length (utf8_encode message) ≤ TEXT_ROOM_BYTES)%nat)
       ∧ (length (cell_refs c) ≤ 1)%nat.
Proof.
  destruct (writeBuffer_run (S (length (utf8_encode message)))
              (utf8_encode message) (mkBuilder ([] ++ uint_bits 32 0) []))
    as (bits & refs & h' & Hrun & Hlen & Hrefs & Hchain & Hbits & Hnil);
    [lia | len_solve | len_solve |].
  cbn [b_bits b_refs app] in *. rewrite length_uint_bits in Hbits, Hnil.
  exists (mkCell (uint_bits 32 0 ++ bits) refs). split; [| repeat split].
  - intros h.
    rewrite (framed_run _ h (λ n, framed_textBody n message)).
    unfold textBody. rewrite run_bind. cbn [beginCell newBuilder length app].
    run_step (appends_storeUint 0 32 ltac:(by vm_compute)). cbn [app].
    unfold storeStringTail. rewrite run_bind, Hrun.
    erewrite endCell_run; [| reflexivity | |];
      [| cbn [b_bits b_refs]; unfold CELL_MAX_REFS; lia..].
    by eexists.
  - by rewrite chainBits_app, Hchain.
  - cbn [cell_bits]. by rewrite Hbits.
  - cbn [cell_refs]. apply Hnil.
  - cbn [cell_refs]. apply Hnil.
  - done.
Qed.

Lemma send_string_run s c :
  (∀ h, ∃ h', textBody s h = Ok (c, h')) →
  ∀ h, ∃ h', send (VString s) h = Ok (c, h').
Proof.
  intros Hc h. unfold send.
  cbn [is_truthy typeof_object typeof_string instanceof_Slice
       strict_eq_string get_type].
  rewrite !andb_false_r.
  rewrite run_bind. cbn [mret M_ret ret].
  rewrite run_bind, run_bind.
  destruct (Hc h) as (h1 & ->). cbn [mret M_ret ret].
  rewrite run_bind.
  assert (∃ h2, (if bool_decide (s = js "Owner Claim")
                 then textBody (js "Owner Claim") ≫= λ c, mret (Some c)
                 else mret (Some c)) h1 = Ok (Some c, h2)) as (h2 & ->).
  { case_bool_decide as Heq; [| by eexists].
    rewrite <- Heq, run_bind. destruct (Hc h1) as (h2 & ->). by eexists. }
  rewrite run_bind.
  assert (∃ h3, (if bool_decide (s = js "Mint")
                 then textBody (js "Mint") ≫= λ c, mret (Some c)
                 else mret (Some c)) h2 = Ok (Some c, h3)) as (h3 & ->).
  { case_bool_decide as Heq; [| by eexists].
    rewrite <- Heq, run_bind. destruct (Hc h2) as (h3 & ->). by eexists. }
  rewrite run_bind. cbn [mret M_ret ret]. by eexists.
Qed.

Lemma send_unrecognised message h :
  recognised message = false → send message h = Err InvalidMessageType.
Proof.
  destruct message as [src|src|s| | |b|n| |o]; intros Hrec;
    [by vm_compute in Hrec | by vm_compute in Hrec | by vm_compute in Hrec
    | by vm_compute | by vm_compute | | | by vm_compute |].
  - destruct b; by vm_compute.
  - unfold send.
    cbn [is_truthy typeof_object typeof_string instanceof_Slice
         strict_eq_string get_type].
    by rewrite !andb_false_r.
  - unfold recognised in Hrec.
    cbn [is_truthy typeof_object typeof_string instanceof_Slice get_type
         andb orb negb] in Hrec.
    apply orb_false_elim in Hrec as [Hinit Hburn].
    unfold send.
    cbn [is_truthy typeof_object typeof_string instanceof_Slice
         strict_eq_string get_type andb negb].
    by rewrite Hinit, Hburn.
Qed.

(** C7, counterexample: for the string of 124 letters [a], the body
    cell holds 32 + 123 * 8 bits, not the 32 + 124 * 8 bits of the
    opcode and the whole text, and it has a reference. *)
Lemma send_long_text_overflows_body :
  let s := repeat 97%N 124 in
  ∃ c h', send (VString s) [] = Ok (c, h')
          ∧ length (cell_bits c) = 1016%nat
          ∧ length (cell_refs c) = 1%nat
          ∧ cell_bits c ≠ uint_bits 32 0 ++ buffer_bits (utf8_encode s).
Proof.
  intros s.
  assert (∃ c h', send (VString s) [] = Ok (c, h')
                  ∧ length (cell_bits c) = 1016%nat
                  ∧ length (cell_refs c) = 1%nat) as (c & h' & Hrun & Hbits & Hrefs)
    by (eexists _, _; by vm_compute).
  exists c, h'. repeat split; try done.
  intros Heq. rewrite Heq in Hbits. by vm_compute in Hbits.
Qed.

(** C7, amended: every string, the literals ["Mint"] and ["Owner Claim"]
    as any other, is encoded by [send] as [textBody] encodes it, in the
    tail format: the body cell holds 32 zero bits and the first 123
    UTF-8 bytes of the string, with no length prefix; it has no
    reference when the string has at most 123 bytes, and one reference
    otherwise, and the bits along the chain of references are the 32
    zero bits followed by all the UTF-8 bytes.  A message of no
    recognised shape makes [send] throw the invalid-message error. *)
Theorem send_text_dispatch :
  (∀ s : JSString, ∃ c,
     (∀ h, ∃ h', send (VString s) h = Ok (c, h'))
     ∧ (∀ h, ∃ h', textBody s h = Ok (c, h'))
     ∧ chainBits c = Some (uint_bits 32 0 ++ buffer_bits (utf8_encode s))
     ∧ cell_bits c
       = uint_bits 32 0 ++ buffer_bits (take TEXT_ROOM_BYTES (utf8_encode s))
     ∧ (cell_refs c = [] ↔ (length (utf8_encode s) ≤ TEXT_ROOM_BYTES)%nat)
     ∧ (length (cell_refs c) ≤ 1)%nat)
  ∧ TEXT_ROOM_BYTES = 123%nat
  ∧ uint_bits 32 0 = repeat false 32
  ∧ (∀ (message : JSValue) (h : Heap),
       recognised message = false → send message h = Err InvalidMessageType).
Proof.
  split; [| split; [reflexivity | split; [reflexivity |]]].
  - intros s. destruct (textBody_run s) as (c & Hc & Hrest).
    exists c. split; [by apply send_string_run | by split].
  - apply send_unrecognised.
Qed.

(** The same at the literal ["Owner Claim"], at [null], and at an object
    with another tag. *)
Lemma send_text_dispatch_witness :
  (∃ c, (∀ h, ∃ h', send (VString (js "Owner Claim")) h = Ok (c, h'))
        ∧ cell_bits c
          = repeat false 32 ++ buffer_bits (utf8_encode (js "Owner Claim"))
        ∧ cell_refs c = [])
  ∧ send VNull [] = Err InvalidMessageType
  ∧ send (VObject (plainObject (Some (js "Other")))) [] = Err InvalidMessageType.
Proof.
  destruct send_text_dispatch as (Htext & Hroom & Hzero & Hother).
  split; [| split].
  - destruct (Htext (js "Owner Claim")) as (c & Hsend & _ & _ & Hbits & Hnil & _).
    exists c. split; [exact Hsend |]. split.
    + rewrite Hbits, Hzero, Hroom. reflexivity.
    + apply Hnil. rewrite Hroom. vm_compute. lia.
  - apply Hother. reflexivity.
  - apply Hother. reflexivity.
Defined.

(** C10: in any store, [send] accepts the empty string: the body is the
    cell of exactly 32 zero bits with no reference. *)
Theorem send_empty_string (h : Heap) :
  ∃ h', send (VString (js "")) h = Ok (mkCell (repeat false 32) [], h').
Proof.
  rewrite (framed_run _ h (λ n, framed_send n (VString (js "")))).
  assert (∃ h', send (VString (js "")) [] = Ok (mkCell (repeat false 32) [], h'))
    as (h' & ->) by (eexists; by vm_compute).
  by eexists.
Qed.

(** * Further properties of the wrapper *)

(** ** Reading fields back from bits *)

Lemma bits_uint_fold n : ∀ v acc,
  fold_left (λ acc (b : bool), 2 * acc + (if b then 1 else 0)) (uint_bits n v) acc
  = acc * 2 ^ Z.of_nat n + v mod 2 ^ Z.of_nat n.
Proof.
  induction n as [|n IH]; intros v acc.
  - change (uint_bits 0 v) with (@nil bool). cbn [fold_left].
    change (2 ^ Z.of_nat 0) with 1. rewrite Z.mod_1_r. lia.
  - change (uint_bits (S n) v)
      with (Z.testbit v (Z.of_nat n) :: uint_bits n v).
    cbn [fold_left]. rewrite IH.
    rewrite Nat2Z.inj_succ, Z.pow_succ_r by lia.
    rewrite (Z.mul_comm 2 (2 ^ Z.of_nat n)).
    rewrite (Z.rem_mul_r v (2 ^ Z.of_nat n) 2) by lia.
    rewrite <- (Z.testbit_spec' v (Z.of_nat n)) by lia.
    destruct (Z.testbit v (Z.of_nat n)); cbn [Z.b2z]; lia.
Qed.

Lemma bits_uint_uint_bits n v :
  0 ≤ v < 2 ^ Z.of_nat n → bits_uint (uint_bits n v) = v.
Proof.
  intros Hv. unfold bits_uint. rewrite bits_uint_fold, Z.mod_small by done. lia.
Qed.

Lemma uint_bits_inj n v v' :
  0 ≤ v < 2 ^ Z.of_nat n → 0 ≤ v' < 2 ^ Z.of_nat n →
  uint_bits n v = uint_bits n v' → v = v'.
Proof.
  intros Hv Hv' Heq.
  by rewrite <- (bits_uint_uint_bits n v), <- (bits_uint_uint_bits n v'), Heq.
Qed.

Lemma buffer_bits_inj a b : buffer_bits a = buffer_bits b → a = b.
Proof.
  intros Heq.
  by rewrite <- (bits_buffer_buffer_bits a), <- (bits_buffer_buffer_bits b), Heq.
Qed.

Lemma int8_bits_inj v v' :
  -128 ≤ v < 128 → -128 ≤ v' < 128 → int8_bits v = int8_bits v' → v = v'.
Proof.
  unfold int8_bits. intros Hv Hv' Heq.
  destruct (decide (v < 0)), (decide (v' < 0)); try congruence.
  - assert (uint_bits 7 (128 + v) = uint_bits 7 (128 + v')) as Hu by congruence.
    apply uint_bits_inj in Hu; change (2 ^ Z.of_nat 7) with 128; lia.
  - assert (uint_bits 7 v = uint_bits 7 v') as Hu by congruence.
    apply uint_bits_inj in Hu; change (2 ^ Z.of_nat 7) with 128; lia.
Qed.

Lemma address_bits_inj a a' :
  valid_address a → valid_address a' → address_bits a = address_bits a' → a = a'.
Proof.
  intros [Hwc Hh] [Hwc' Hh'] Heq. unfold address_bits in Heq.
  apply app_inj_1 in Heq as [_ Heq]; [| done].
  apply app_inj_1 in Heq as [_ Heq]; [| done].
  apply app_inj_1 in Heq as [Hw Hb].
  2:{ unfold int8_bits. by repeat case_decide; cbn; rewrite !length_uint_bits. }
  apply int8_bits_inj in Hw; [| done..]. apply buffer_bits_inj in Hb.
  destruct a, a'; cbn in *; by subst.
Qed.

(** A coin amount is read off the front of a bit string: two amounts
    followed by anything agree when the bit strings do. *)
Lemma coins_bits_app_inj v v' rest rest' :
  valid_coins v → valid_coins v' →
  coins_bits v ++ rest = coins_bits v' ++ rest' → v = v' ∧ rest = rest'.
Proof.
  intros Hv Hv' Heq.
  pose proof (coins_size_bounds v Hv) as [Hsz Hfit].
  pose proof (coins_size_bounds v' Hv') as [Hsz' Hfit'].
  unfold coins_bits in Heq. rewrite <- !app_assoc in Heq.
  apply app_inj_1 in Heq as [Hsize Heq]; [| by rewrite !length_uint_bits].
  apply uint_bits_inj in Hsize; [| change (2 ^ Z.of_nat 4) with 16; lia..].
  rewrite <- Hsize in *.
  apply app_inj_1 in Heq as [Hval Heq]; [| by rewrite !length_uint_bits].
  apply uint_bits_inj in Hval; [done | rewrite Z2Nat.id by lia; lia..].
Qed.

(** ** Fields out of range *)

Lemma storeUint_rejects v n b h :
  ¬ (0 ≤ v < 2 ^ Z.of_nat n) → storeUint v n b h = Err BitLengthTooSmall.
Proof. intros Hv. unfold storeUint. by rewrite decide_False. Qed.

Lemma storeCoins_rejects v b h :
  ¬ valid_coins v →
  storeCoins v b h = Err (if decide (v < 0) then NegativeValue else BitLengthTooSmall).
Proof.
  unfold valid_coins, storeCoins, storeVarUint. intros Hv.
  destruct (decide (v < 0)) as [Hneg|Hpos]; [done |].
  rewrite decide_False by lia. cbv zeta.
  rewrite run_bind, storeUint_rejects; [done |].
  assert (120 ≤ Z.log2 v) as Hlog by (apply Z.log2_le_pow2; lia).
  change (2 ^ Z.of_nat 4) with 16.
  assert (16 ≤ (Z.log2 v + 1 + 7) / 8) by (apply Z.div_le_lower_bound; lia).
  lia.
Qed.

Lemma storeAddress_rejects a b h s :
  h !! b = Some s → (length (b_bits s) + 3 ≤ CELL_MAX_BITS)%nat →
  ¬ (-128 ≤ workChain a < 128) →
  storeAddress (Some a) b h = Err BitLengthTooSmall.
Proof.
  intros Hb Hlen Hwc. unfold storeAddress.
  pose proof (lookup_lt_Some _ _ _ Hb) as Hlt.
  rewrite run_bind, (appends_storeUint 2 2 ltac:(done) h b s Hb)
    by (rewrite length_uint_bits; lia).
  rewrite run_bind.
  erewrite (appends_storeUint 0 1 ltac:(done));
    [| by apply list_lookup_insert_eq
     | cbn [b_bits]; rewrite length_app, !length_uint_bits; lia].
  rewrite run_bind. unfold storeInt. cbv zeta.
  change (2 ^ Z.of_nat 7) with 128. by rewrite decide_False.
Qed.

Lemma mintBody_rejects owner jettonAmount transferToJWallet queryId :
  length (hash owner) = 32%nat →
  ¬ mint_fields_fit owner jettonAmount transferToJWallet queryId →
  ∃ e, mintBody owner jettonAmount transferToJWallet queryId [] = Err e.
Proof.
  intros Hhash Hnot.
  pose proof (appends_storeUint Opcodes.Mint 32 ltac:(by vm_compute)) as A1.
  pose proof (appends_storeUint Opcodes.InternalTransfer 32 ltac:(by vm_compute)) as B1.
  unfold mintBody, beginCell.
  rewrite run_bind. cbn [newBuilder length app].
  run_step A1.
  destruct (decide (valid_uint64 (orZero queryId))) as [Hq|Hq].
  2:{ rewrite run_bind, storeUint_rejects by done. by eexists. }
  pose proof (appends_storeUint _ 64 Hq) as A2. run_step A2.
  destruct (decide (-128 ≤ workChain owner < 128)) as [Hwc|Hwc].
  2:{ rewrite run_bind. erewrite storeAddress_rejects; [by eexists | done | | done].
      len_solve. }
  assert (valid_address owner) as Ha by done.
  pose proof (appends_storeAddress owner Ha) as A3. run_step A3.
  destruct (decide (0 ≤ transferToJWallet < 2 ^ 120)) as [Ht|Ht].
  2:{ rewrite run_bind, storeCoins_rejects by done. by eexists. }
  change (valid_coins transferToJWallet) in Ht.
  pose proof (appends_storeCoins _ Ht) as A4. run_step A4.
  rewrite run_bind. cbn [newBuilder length app].
  run_step B1. run_step A2.
  destruct (decide (0 ≤ jettonAmount < 2 ^ 120)) as [Hj|Hj].
  2:{ rewrite run_bind, storeCoins_rejects by done. by eexists. }
  destruct Hnot. split; [done |]. split; [done |]. by split.
Qed.

(** ** The typed frames of [send] *)

Lemma tag_JettonInitial :
  bool_decide (Some (js "JettonInitial") = Some (js "JettonInitial")) = true
  ∧ bool_decide (Some (js "JettonInitial") = Some (js "TokenBurnNotification")) = false
  ∧ bool_decide (Some (js "TokenBurnNotification") = Some (js "JettonInitial")) = false
  ∧ bool_decide (Some (js "TokenBurnNotification")
                 = Some (js "TokenBurnNotification")) = true.
Proof. by vm_compute. Qed.

Ltac send_typed :=
  unfold send;
  cbn [is_truthy typeof_object typeof_string instanceof_Slice
       strict_eq_string get_type andb negb];
  let T1 := fresh in let T2 := fresh in let T3 := fresh in let T4 := fresh in
  destruct tag_JettonInitial as (T1 & T2 & T3 & T4);
  rewrite ?T1, ?T2, ?T3, ?T4; clear T1 T2 T3 T4.

(** Steps that only return a value. *)
Ltac run_pure :=
  repeat first [progress cbn [mret M_ret ret] | rewrite run_bind].

(** As [run_step], inside nested sequences. *)
Ltac run_deep lem :=
  rewrite ?run_bind; erewrite lem; [| reflexivity | len_solve..];
  cbn [insert list_insert b_bits b_refs].

Lemma send_JettonInitial_empty src :
  -128 ≤ workChain (treasury src) < 128 →
  length (hash (treasury src)) = 32%nat →
  ∃ h', send (VJettonInitial src) [] =
        Ok (mkCell (uint_bits 32 2412644301 ++ address_bits (treasury src))
                   [minting_info src; token_content src], h').
Proof.
  intros Hwc Hhash. assert (valid_address (treasury src)) as Ha by done.
  pose proof (appends_storeUint 2412644301 32 ltac:(by vm_compute)) as A1.
  pose proof (appends_storeAddress _ Ha) as A2.
  send_typed. unfold storeJettonInitial, beginCell. cbv zeta.
  rewrite !run_bind. cbn [newBuilder length app].
  run_deep A1. run_deep A2. run_deep storeRef_run. run_deep storeRef_run.
  run_deep endCell_run.
  cbn [mret M_ret ret]. rewrite !run_bind. cbn [mret M_ret ret app].
  by eexists.
Qed.

Lemma send_JettonInitial_rejects src :
  length (hash (treasury src)) = 32%nat →
  ¬ (-128 ≤ workChain (treasury src) < 128) →
  send (VJettonInitial src) [] = Err BitLengthTooSmall.
Proof.
  intros Hhash Hwc.
  pose proof (appends_storeUint 2412644301 32 ltac:(by vm_compute)) as A1.
  send_typed. unfold storeJettonInitial, beginCell. cbv zeta.
  rewrite !run_bind. cbn [newBuilder length app].
  run_deep A1. rewrite ?run_bind.
  erewrite storeAddress_rejects; [done | reflexivity | len_solve | done].
Qed.

Lemma send_TokenBurnNotification_empty src :
  burn_fields_fit src → length (hash (response_destination src)) = 32%nat →
  ∃ h', send (VTokenBurnNotification src) [] =
        Ok (mkCell (uint_bits 32 2078119902 ++ uint_bits 64 (query_id src)
                    ++ coins_bits (amount src)
                    ++ address_bits (response_destination src)) [], h').
Proof.
  intros (Hq & Hamount & Hwc) Hhash.
  assert (valid_address (response_destination src)) as Ha by done.
  pose proof (appends_storeUint 2078119902 32 ltac:(by vm_compute)) as A1.
  pose proof (appends_storeUint _ 64 Hq) as A2.
  pose proof (appends_storeCoins _ Hamount) as A3.
  pose proof (appends_storeAddress _ Ha) as A4.
  send_typed. unfold storeTokenBurnNotification, beginCell. cbv zeta.
  run_pure. cbn [newBuilder length app].
  run_deep A1. run_deep A2. run_deep A3. run_deep A4.
  run_deep endCell_run.
  run_pure. cbn [app]. eexists. by rewrite <- !app_assoc.
Qed.

Lemma send_TokenBurnNotification_rejects src :
  length (hash (response_destination src)) = 32%nat →
  ¬ burn_fields_fit src →
  ∃ e, send (VTokenBurnNotification src) [] = Err e ∧ e ≠ InvalidMessageType.
Proof.
  intros Hhash Hnot.
  pose proof (appends_storeUint 2078119902 32 ltac:(by vm_compute)) as A1.
  send_typed. unfold storeTokenBurnNotification, beginCell. cbv zeta.
  run_pure. cbn [newBuilder length app].
  run_deep A1.
  destruct (decide (valid_uint64 (query_id src))) as [Hq|Hq].
  2:{ rewrite ?run_bind, storeUint_rejects by done. by eexists. }
  pose proof (appends_storeUint _ 64 Hq) as A2. run_deep A2.
  destruct (decide (0 ≤ amount src < 2 ^ 120)) as [Hamount|Hamount].
  2:{ rewrite ?run_bind, storeCoins_rejects by done.
      eexists. split; [done |]. by case_decide. }
  change (valid_coins (amount src)) in Hamount.
  pose proof (appends_storeCoins _ Hamount) as A3. run_deep A3.
  destruct (decide (-128 ≤ workChain (response_destination src) < 128))
    as [Hwc|Hwc].
  { destruct Hnot. by split. }
  rewrite ?run_bind.
  erewrite storeAddress_rejects; [by eexists | reflexivity | len_solve | done].
Qed.

(** ** Tagged objects that are not records *)

(** On the properties of a record, the store functions at an object are
    the store functions at the record. *)
Lemma storeJettonInitialObject_record src type q a r builder :
  storeJettonInitialObject
    (mkTaggedObject type (AddrInternal (treasury src))
       (RefCell (minting_info src)) (RefCell (token_content src)) q a r) builder
  = storeJettonInitial src builder.
Proof. reflexivity. Qed.

Lemma storeTokenBurnNotificationObject_record src type t m c builder :
  storeTokenBurnNotificationObject
    (mkTaggedObject type t m c (NumInt (query_id src)) (NumInt (amount src))
       (AddrInternal (response_destination src))) builder
  = storeTokenBurnNotification src builder.
Proof. reflexivity. Qed.

(** An object with the tag [JettonInitial], two cells and no treasury
    gets a body: the absent address is stored as the tag 00.  With no
    property but the tag, the first [storeRef] refuses its argument. *)
Example send_tagged_object_without_treasury :
  let c1 := mkCell [true] [] in
  let c2 := mkCell [false] [] in
  outcome (send (VObject (mkTaggedObject (Some (js "JettonInitial")) AddrNullish
                            (RefCell c1) (RefCell c2)
                            NumInvalid NumInvalid AddrNullish)) [])
  = Ok (mkCell (uint_bits 32 2412644301 ++ [false; false]) [c1; c2])
  ∧ outcome (send (VObject (plainObject (Some (js "JettonInitial")))) [])
    = Err InvalidArgument
  ∧ outcome (send (VObject (plainObject (Some (js "TokenBurnNotification")))) [])
    = Err NotAnInteger.
Proof. by vm_compute. Qed.

(** A successful run in some store is one in the empty store. *)
Lemma framed_run_inv {A} (m : M A) h a h' :
  (∀ n, framed n m m) → m h = Ok (a, h') → ∃ h0, m [] = Ok (a, h0).
Proof.
  intros Hm Hrun. rewrite (framed_run m h Hm) in Hrun.
  destruct (m []) as [[a0 h0]|e]; [| done].
  injection Hrun as -> _. by eexists.
Qed.

Lemma mint_fields_fit_dec owner jettonAmount transferToJWallet queryId :
  mint_fields_fit owner jettonAmount transferToJWallet queryId
  ∨ ¬ mint_fields_fit owner jettonAmount transferToJWallet queryId.
Proof. unfold mint_fields_fit, valid_coins, valid_uint64. lia. Qed.

Lemma burn_fields_fit_dec src : burn_fields_fit src ∨ ¬ burn_fields_fit src.
Proof. unfold burn_fields_fit, valid_coins, valid_uint64. lia. Qed.

(** What a returned mint request says about the call. *)
Lemma mintBody_inv owner jettonAmount transferToJWallet queryId h c h' :
  length (hash owner) = 32%nat →
  mintBody owner jettonAmount transferToJWallet queryId h = Ok (c, h') →
  mint_fields_fit owner jettonAmount transferToJWallet queryId
  ∧ c = mintRequestCell owner jettonAmount transferToJWallet (orZero queryId).
Proof.
  intros Hhash Hrun.
  apply framed_run_inv in Hrun as (h0 & Hrun); [| intros n; apply framed_mintBody].
  destruct (mint_fields_fit_dec owner jettonAmount transferToJWallet queryId)
    as [Hfit|Hnot].
  - split; [done |]. destruct Hfit as (Hwc & Hj & Ht & Hq).
    destruct (mintBody_empty owner jettonAmount transferToJWallet queryId)
      as (h1 & Hok); [done.. |].
    congruence.
  - destruct (mintBody_rejects _ _ _ _ Hhash Hnot) as (e & Herr). congruence.
Qed.

Lemma mintRequestCell_inj owner owner' j j' t t' q q' :
  valid_address owner → valid_address owner' →
  valid_coins j → valid_coins j' → valid_coins t → valid_coins t' →
  valid_uint64 q → valid_uint64 q' →
  mintRequestCell owner j t q = mintRequestCell owner' j' t' q' →
  owner = owner' ∧ j = j' ∧ t = t' ∧ q = q'.
Proof.
  intros Ha Ha' Hj Hj' Ht Ht' Hq Hq' Heq.
  pose proof (f_equal cell_bits Heq) as Hbits.
  assert (internalTransferCell owner j q = internalTransferCell owner' j' q')
    as Hinner by (unfold mintRequestCell in Heq; congruence).
  apply (f_equal cell_bits) in Hinner.
  cbn [cell_bits mintRequestCell internalTransferCell] in Hbits, Hinner.
  apply app_inj_1 in Hbits as [_ Hbits]; [| by rewrite !length_uint_bits].
  apply app_inj_1 in Hbits as [Hquery Hbits]; [| by rewrite !length_uint_bits].
  apply uint_bits_inj in Hquery; [| done..].
  apply app_inj_1 in Hbits as [Howner Hfee]; [| by rewrite !length_address_bits].
  apply address_bits_inj in Howner; [| done..].
  rewrite <- (app_nil_r (coins_bits t)), <- (app_nil_r (coins_bits t')) in Hfee.
  apply coins_bits_app_inj in Hfee as [Hfee _]; [| done..].
  apply app_inj_1 in Hinner as [_ Hinner]; [| by rewrite !length_uint_bits].
  apply app_inj_1 in Hinner as [_ Hinner]; [| by rewrite !length_uint_bits].
  apply coins_bits_app_inj in Hinner as [Hamount _]; [| done..].
  done.
Qed.

(** X1: for an owner address with a 32-byte hash, in any store,
    [mintBody] returns a cell exactly when the workchain of the owner
    fits a signed byte, both coin amounts are in [0, 2^120) and the query
    id (0 when absent) is in [0, 2^64); otherwise a store of the library
    throws and no cell is returned. *)
Theorem mintBody_returns_iff_fields_fit (owner : Address)
    (jettonAmount transferToJWallet : Z) (queryId : option Z) (h : Heap) :
  length (hash owner) = 32%nat →
  (∃ c h', mintBody owner jettonAmount transferToJWallet queryId h = Ok (c, h'))
  ↔ mint_fields_fit owner jettonAmount transferToJWallet queryId.
Proof.
  intros Hhash. split.
  - intros (c & h' & Hrun). by apply mintBody_inv in Hrun as [Hfit _].
  - intros (Hwc & Hj & Ht & Hq).
    rewrite (framed_run _ h (λ n, framed_mintBody n owner jettonAmount
                                    transferToJWallet queryId)).
    destruct (mintBody_empty owner jettonAmount transferToJWallet queryId)
      as (h' & ->); [done.. |].
    by eexists _, _.
Qed.

(** The same for an address of the masterchain: a mint of 5 jettons is
    returned, and a mint of [2^120] jettons is not. *)
Lemma mintBody_returns_iff_fields_fit_witness :
  let A := mkAddress (-1) (repeat "000"%byte 32) in
  (∃ c h', mintBody A 5 1 None [] = Ok (c, h'))
  ∧ ¬ (∃ c h', mintBody A (2 ^ 120) 1 None [] = Ok (c, h')).
Proof.
  intros A. split.
  - apply (mintBody_returns_iff_fields_fit A 5 1 None []); [reflexivity |].
    unfold mint_fields_fit, valid_coins, valid_uint64. simpl. lia.
  - intros Hrun.
    apply (mintBody_returns_iff_fields_fit A (2 ^ 120) 1 None []) in Hrun;
      [| reflexivity].
    unfold mint_fields_fit, valid_coins in Hrun. lia.
Defined.

(** X2: mint requests are unambiguous.  When two calls of [mintBody],
    for owner addresses with 32-byte hashes, return the same cell, the
    owner, the jetton amount, the amount forwarded to the wallet and the
    query id (0 when absent) of the two calls are the same. *)
Theorem mintBody_injective (owner owner' : Address) (j j' t t' : Z)
    (q q' : option Z) (h h' h1 h1' : Heap) (c : Cell) :
  length (hash owner) = 32%nat → length (hash owner') = 32%nat →
  mintBody owner j t q h = Ok (c, h1) →
  mintBody owner' j' t' q' h' = Ok (c, h1') →
  owner = owner' ∧ j = j' ∧ t = t' ∧ orZero q = orZero q'.
Proof.
  intros Hhash Hhash' Hrun Hrun'.
  apply mintBody_inv in Hrun as [(Hwc & Hj & Ht & Hq) Hc]; [| done].
  apply mintBody_inv in Hrun' as [(Hwc' & Hj' & Ht' & Hq') Hc']; [| done].
  apply (mintRequestCell_inj owner owner' j j' t t'); try done.
  congruence.
Qed.

(** The same at two calls that differ in how the query id 0 is given. *)
Lemma mintBody_injective_witness :
  let A := mkAddress 0 (repeat "017"%byte 32) in
  A = A ∧ 1000 = 1000 ∧ 500 = 500 ∧ orZero None = orZero (Some 0).
Proof.
  intros A.
  eapply (mintBody_injective A A 1000 1000 500 500 None (Some 0) [] []).
  - reflexivity.
  - reflexivity.
  - vm_compute. reflexivity.
  - vm_compute. reflexivity.
Defined.

(** X3: for a [JettonInitial] record whose treasury address has a
    32-byte hash, in any store, [send] builds the body whose bits are
    the number 2412644301 on 32 bits followed by the treasury address,
    and whose references are the minting information and the token
    content, in this order, when the workchain of the treasury fits a
    signed byte; otherwise the store of the address throws. *)
Theorem send_JettonInitial_frame (src : JettonInitial) (h : Heap) :
  length (hash (treasury src)) = 32%nat →
  outcome (send (VJettonInitial src) h) =
    if decide (-128 ≤ workChain (treasury src) < 128)
    then Ok (mkCell (uint_bits 32 2412644301 ++ address_bits (treasury src))
                    [minting_info src; token_content src])
    else Err BitLengthTooSmall.
Proof.
  intros Hhash.
  rewrite (framed_outcome _ h (λ n, framed_send n (VJettonInitial src))).
  destruct (decide (-128 ≤ workChain (treasury src) < 128)) as [Hwc|Hwc].
  - by destruct (send_JettonInitial_empty src Hwc Hhash) as (h' & ->).
  - by rewrite send_JettonInitial_rejects.
Qed.

(** The same for a treasury on the base workchain and two small cells. *)
Lemma send_JettonInitial_frame_witness :
  let T := mkAddress 0 (repeat "042"%byte 32) in
  let info := mkCell [true] [] in
  let content := mkCell [false; true] [] in
  outcome (send (VJettonInitial (mkJettonInitial T info content)) []) =
    Ok (mkCell (uint_bits 32 2412644301 ++ address_bits T) [info; content]).
Proof.
  intros T info content.
  apply (send_JettonInitial_frame (mkJettonInitial T info content) []).
  reflexivity.
Defined.

(** X4: for a [TokenBurnNotification] record whose response address has
    a 32-byte hash, in any store, [send] builds the body without
    references whose bits are the number 2078119902 on 32 bits, the
    query id on 64 bits, the amount as a coin amount and the response
    address, when the query id is in [0, 2^64), the amount in
    [0, 2^120) and the workchain fits a signed byte; otherwise a store
    of the library throws, and the error is not the invalid-message
    one. *)
Theorem send_TokenBurnNotification_frame (src : TokenBurnNotification)
    (h : Heap) :
  length (hash (response_destination src)) = 32%nat →
  (burn_fields_fit src →
   outcome (send (VTokenBurnNotification src) h) =
     Ok (mkCell (uint_bits 32 2078119902 ++ uint_bits 64 (query_id src)
                 ++ coins_bits (amount src)
                 ++ address_bits (response_destination src)) []))
  ∧ (¬ burn_fields_fit src →
     ∃ e, outcome (send (VTokenBurnNotification src) h) = Err e
          ∧ e ≠ InvalidMessageType).
Proof.
  intros Hhash.
  rewrite (framed_outcome _ h (λ n, framed_send n (VTokenBurnNotification src))).
  split.
  - intros Hfit.
    by destruct (send_TokenBurnNotification_empty src Hfit Hhash) as (h' & ->).
  - intros Hnot.
    destruct (send_TokenBurnNotification_rejects src Hhash Hnot) as (e & -> & He).
    by exists e.
Qed.

(** The same for a notification of 1000 burnt units, and for one with a
    negative amount. *)
Lemma send_TokenBurnNotification_frame_witness :
  let R := mkAddress 0 (repeat "042"%byte 32) in
  outcome (send (VTokenBurnNotification (mkTokenBurnNotification 7 1000 R)) []) =
    Ok (mkCell (uint_bits 32 2078119902 ++ uint_bits 64 7
                ++ coins_bits 1000 ++ address_bits R) [])
  ∧ ∃ e, outcome (send (VTokenBurnNotification
                          (mkTokenBurnNotification 7 (-1) R)) []) = Err e
         ∧ e ≠ InvalidMessageType.
Proof.
  intros R. split.
  - apply (send_TokenBurnNotification_frame (mkTokenBurnNotification 7 1000 R) []).
    + reflexivity.
    + unfold burn_fields_fit, valid_uint64, valid_coins. simpl. lia.
  - apply (send_TokenBurnNotification_frame (mkTokenBurnNotification 7 (-1) R) []).
    + reflexivity.
    + unfold burn_fields_fit, valid_uint64, valid_coins. simpl. lia.
Defined.

(** What a body returned by [send] says about a message of the
    declared type. *)
Lemma send_inv message h c h' :
  declared_message message → send message h = Ok (c, h') →
  match message with
  | VJettonInitial src =>
      valid_address (treasury src)
      ∧ c = mkCell (uint_bits 32 2412644301 ++ address_bits (treasury src))
                   [minting_info src; token_content src]
  | VTokenBurnNotification src =>
      burn_fields_fit src
      ∧ c = mkCell (uint_bits 32 2078119902 ++ uint_bits 64 (query_id src)
                    ++ coins_bits (amount src)
                    ++ address_bits (response_destination src)) []
  | VString s =>
      chainBits c = Some (uint_bits 32 0 ++ buffer_bits (utf8_encode s))
      ∧ cell_bits c
        = uint_bits 32 0 ++ buffer_bits (take TEXT_ROOM_BYTES (utf8_encode s))
  | _ => False
  end.
Proof.
  intros Hdeclared Hrun.
  apply framed_run_inv in Hrun as (h0 & Hrun); [| intros n; apply framed_send].
  destruct message as [src|src|s| | |b|n| |o]; try done.
  - cbn [declared_message] in Hdeclared.
    destruct (decide (-128 ≤ workChain (treasury src) < 128)) as [Hwc|Hwc].
    + split; [done |].
      destruct (send_JettonInitial_empty src Hwc Hdeclared) as (h1 & Hok).
      congruence.
    + rewrite send_JettonInitial_rejects in Hrun; done.
  - cbn [declared_message] in Hdeclared.
    destruct (burn_fields_fit_dec src) as [Hfit|Hnot].
    + split; [done |].
      destruct (send_TokenBurnNotification_empty src Hfit Hdeclared) as (h1 & Hok).
      congruence.
    + destruct (send_TokenBurnNotification_rejects src Hdeclared Hnot)
        as (e & He & _).
      congruence.
  - destruct (textBody_run s) as (c' & Hc' & Hchain & Hbits & _).
    destruct (send_string_run s c' Hc' []) as (h1 & Hok).
    assert (c = c') as -> by congruence. done.
Qed.

(** X5: the bodies of [send] are unambiguous on the declared type of
    [message].  When [send] returns the same body for two messages that
    are each a [JettonInitial] record, a [TokenBurnNotification] record
    (addresses with 32-byte hashes) or a string, both messages are
    [JettonInitial] records with the same fields, or both are
    [TokenBurnNotification] records with the same fields, or both are
    strings with the same UTF-8 bytes: among these messages a body of
    one kind is never the body of another kind. *)
Theorem send_injective (m m' : JSValue) (h h' h1 h1' : Heap) (c : Cell) :
  declared_message m → declared_message m' →
  send m h = Ok (c, h1) → send m' h' = Ok (c, h1') →
  same_message m m'.
Proof.
  intros Hm Hm' Hrun Hrun'.
  apply send_inv in Hrun; [| done]. apply send_inv in Hrun'; [| done].
  assert (∀ a b x y, 0 ≤ a < 2 ^ 32 → 0 ≤ b < 2 ^ 32 → a ≠ b →
            uint_bits 32 a ++ x = uint_bits 32 b ++ y → False) as Hop.
  { intros a b x y Ha Hb Hne Heq.
    apply app_inj_1 in Heq as [Heq _]; [| by rewrite !length_uint_bits].
    by apply uint_bits_inj in Heq. }
  destruct m as [src|src|s| | |b|n| |type]; try done;
    destruct m' as [src'|src'|s'| | |b'|n'| |type']; try done;
    cbn [same_message].
  - destruct Hrun as [Ha ->], Hrun' as [Ha' Heq].
    pose proof (f_equal cell_bits Heq) as Hbits.
    pose proof (f_equal cell_refs Heq) as Hrefs.
    cbn [cell_bits cell_refs] in Hbits, Hrefs.
    apply app_inj_1 in Hbits as [_ Hbits]; [| by rewrite !length_uint_bits].
    apply address_bits_inj in Hbits; [| done..].
    destruct src, src'; cbn in *. congruence.
  - destruct Hrun as [_ ->], Hrun' as [_ Heq].
    apply (f_equal cell_bits) in Heq. cbn [cell_bits] in Heq.
    by apply Hop in Heq.
  - destruct Hrun as [_ ->], Hrun' as [_ Heq]. cbn [cell_bits] in Heq.
    symmetry in Heq. by apply Hop in Heq.
  - destruct Hrun as [_ ->], Hrun' as [_ Heq].
    apply (f_equal cell_bits) in Heq. cbn [cell_bits] in Heq.
    by apply Hop in Heq.
  - destruct Hrun as [(Hq & Hamount & Hwc) ->], Hrun' as [(Hq' & Hamount' & Hwc') Heq].
    apply (f_equal cell_bits) in Heq. cbn [cell_bits] in Heq.
    apply app_inj_1 in Heq as [_ Heq]; [| by rewrite !length_uint_bits].
    apply app_inj_1 in Heq as [Hquery Heq]; [| by rewrite !length_uint_bits].
    apply uint_bits_inj in Hquery; [| done..].
    apply coins_bits_app_inj in Heq as [Hcoins Haddr]; [| done..].
    apply address_bits_inj in Haddr; [| done..].
    destruct src, src'; cbn in *. congruence.
  - destruct Hrun as [_ ->], Hrun' as [_ Heq]. cbn [cell_bits] in Heq.
    symmetry in Heq. by apply Hop in Heq.
  - destruct Hrun as [_ Hbits], Hrun' as [_ ->]. cbn [cell_bits] in Hbits.
    by apply Hop in Hbits.
  - destruct Hrun as [_ Hbits], Hrun' as [_ ->]. cbn [cell_bits] in Hbits.
    by apply Hop in Hbits.
  - destruct Hrun as [Hchain _], Hrun' as [Hchain' _].
    assert (uint_bits 32 0 ++ buffer_bits (utf8_encode s)
            = uint_bits 32 0 ++ buffer_bits (utf8_encode s')) as Heq by congruence.
    apply app_inv_head in Heq. by apply buffer_bits_inj.
Qed.

(** The same at the text ["Mint"] sent from two stores. *)
Lemma send_injective_witness :
  same_message (VString (js "Mint")) (VString (js "Mint")).
Proof.
  eapply (send_injective (VString (js "Mint")) (VString (js "Mint"))
            [] [mkBuilder [] []]).
  - reflexivity.
  - reflexivity.
  - vm_compute. reflexivity.
  - vm_compute. reflexivity.
Defined.

(** ** The initial data of the minter *)

Lemma framed_jettonMinterInitData n owner metadata walletCode :
  framed n (jettonMinterInitData owner metadata walletCode)
           (jettonMinterInitData owner metadata walletCode).
Proof.
  pose proof (framed_buildTokenMetadataCell n metadata).
  unfold jettonMinterInitData. framed_auto.
Qed.

Lemma valid_coins_0 : valid_coins 0.
Proof. by vm_compute. Qed.

Lemma jettonMinterInitData_empty owner metadata walletCode :
  valid_address owner →
  outcome (jettonMinterInitData owner metadata walletCode []) =
    match outcome (buildTokenMetadataCell metadata []) with
    | Ok content =>
        Ok (mkCell (repeat false 4 ++ address_bits owner) [content; walletCode])
    | Err e => Err e
    end.
Proof.
  intros Ha.
  pose proof valid_coins_0 as Hzero.
  pose proof (appends_storeCoins 0 Hzero) as A1.
  pose proof (appends_storeAddress owner Ha) as A2.
  unfold jettonMinterInitData, beginCell.
  rewrite run_bind. cbn [newBuilder length app].
  run_step A1. run_step A2.
  rewrite run_bind.
  rewrite (framed_run _ [_] (λ n, framed_buildTokenMetadataCell n metadata)).
  destruct (buildTokenMetadataCell metadata []) as [[content h1]|e]; [| done].
  cbn [prefixed outcome app].
  run_step storeRef_run. run_step storeRef_run.
  erewrite endCell_run; [| reflexivity | len_solve..].
  by cbn [outcome b_bits b_refs app].
Qed.

(** X6: for a valid owner address, in any store, the initial data that
    [jettonMinterInitData] returns is the cell whose bits are the coin
    amount 0, four zero bits, followed by the owner address, and whose
    references are the content cell that [buildTokenMetadataCell]
    returns for the metadata and the wallet code, in this order; when
    [buildTokenMetadataCell] throws, [jettonMinterInitData] throws the
    same error. *)
Theorem jettonMinterInitData_layout (owner : Address) (metadata : Entries)
    (walletCode : Cell) (h : Heap) :
  valid_address owner →
  outcome (jettonMinterInitData owner metadata walletCode h) =
    match outcome (buildTokenMetadataCell metadata h) with
    | Ok content =>
        Ok (mkCell (repeat false 4 ++ address_bits owner) [content; walletCode])
    | Err e => Err e
    end.
Proof.
  intros Ha.
  rewrite (framed_outcome _ h (λ n, framed_jettonMinterInitData n owner metadata
                                      walletCode)).
  rewrite (framed_outcome _ h (λ n, framed_buildTokenMetadataCell n metadata)).
  by apply jettonMinterInitData_empty.
Qed.

(** The same for the mapping of the scenario, and for a mapping with a
    key that is not supported. *)
Lemma jettonMinterInitData_layout_witness :
  let A := mkAddress 0 (repeat "017"%byte 32) in
  let code := mkCell [true; true] [] in
  (∃ content,
     outcome (buildTokenMetadataCell scenario []) = Ok content
     ∧ outcome (jettonMinterInitData A scenario code []) =
         Ok (mkCell (repeat false 4 ++ address_bits A) [content; code]))
  ∧ outcome (jettonMinterInitData A [(js "decimals", Some (js "9"))] code [])
    = Err (UnsupportedOnchainKey (js "decimals")).
Proof.
  intros A code.
  assert (valid_address A) as Ha by (split; [simpl; lia | reflexivity]).
  split.
  - pose proof (jettonMinterInitData_layout A scenario code [] Ha) as Hrun.
    destruct (outcome (buildTokenMetadataCell scenario [])) as [content|e] eqn:Hc.
    + exists content. split; [reflexivity | exact Hrun].
    + vm_compute in Hc. discriminate Hc.
  - rewrite (jettonMinterInitData_layout A _ code [] Ha). reflexivity.
Defined.

(** X7: the deployment script cannot fail while it builds the initial
    data.  Whatever the four environment variables hold, each a string
    or unset, for a valid owner address and in any store,
    [buildTokenMetadataCell] returns a content cell for the
    configuration of the script, and [jettonMinterInitData] returns the
    cell of the owner with this content cell and the wallet code. *)
Theorem deploy_init_data_returns (name description symbol image : option JSString)
    (owner : Address) (walletCode : Cell) (h : Heap) :
  valid_address owner →
  ∃ content,
    outcome (buildTokenMetadataCell
               (deployConfig name description symbol image) h) = Ok content
    ∧ outcome (jettonMinterInitData owner
                 (deployConfig name description symbol image) walletCode h)
      = Ok (mkCell (repeat false 4 ++ address_bits owner) [content; walletCode]).
Proof.
  intros Ha.
  rewrite (framed_outcome _ h (λ n, framed_jettonMinterInitData n owner _ walletCode)).
  rewrite (framed_outcome _ h (λ n, framed_buildTokenMetadataCell n _)).
  rewrite (jettonMinterInitData_empty owner _ walletCode Ha).
  destruct (buildTokenMetadataCell_total
              (deployConfig name description symbol image) [])
    as (content & h' & ->).
  { unfold deployConfig. rewrite !fmap_cons, fmap_nil. cbn [fst].
    repeat constructor;
      apply (bool_decide_unpack (_ ∈ JettonMetaDataKeys)); by vm_compute. }
  by exists content.
Qed.

(** The same when only the name and the symbol are set. *)
Lemma deploy_init_data_returns_witness :
  let A := mkAddress 0 (repeat "017"%byte 32) in
  let config := deployConfig (Some (js "MyJetton")) None (Some (js "JET1")) None in
  ∃ content,
    outcome (buildTokenMetadataCell config []) = Ok content
    ∧ outcome (jettonMinterInitData A config (mkCell [] []) [])
      = Ok (mkCell (repeat false 4 ++ address_bits A) [content; mkCell [] []]).
Proof.
  intros A config.
  apply (deploy_init_data_returns (Some (js "MyJetton")) None (Some (js "JET1")) None
           A (mkCell [] []) []).
  split; [simpl; lia | reflexivity].
Defined.

(** ** More on the metadata mapping *)

Lemma forEach_app {A S} (f : S → A → M S) l1 l2 s h :
  forEach f (l1 ++ l2) s h
  = (s' ← forEach f l1 s; forEach f l2 s') h.
Proof.
  revert s h. induction l1 as [|x l1 IH]; intros s h; cbn [forEach app].
  - by rewrite run_bind.
  - rewrite !run_bind. destruct (f s x h) as [[s' h']|e]; [| done].
    by rewrite IH, run_bind.
Qed.

Lemma getProperty_found k :
  k ∈ JettonMetaDataKeys ∨ k ∈ Object_prototype → getProperty k ≠ PUndefined.
Proof.
  intros Hk Hundef. apply getProperty_undefined in Hundef as [Hkeys Hproto].
  by destruct Hk.
Qed.

(** X8: the error names the first key that the table lookup does not
    find.  When the pairs before a pair have keys that the lookup finds
    (recognised keys or names of properties of [Object.prototype]) and
    the key of the pair is not found, [buildTokenMetadataCell] throws,
    in any store, the unsupported-key error for that key, whatever the
    values and whatever follows the pair. *)
Theorem unsupported_key_error_names_first (pre post : Entries) (k : JSString)
    (v : option JSString) (h : Heap) :
  Forall (λ kv, kv.1 ∈ JettonMetaDataKeys ∨ kv.1 ∈ Object_prototype) pre →
  k ∉ JettonMetaDataKeys → k ∉ Object_prototype →
  buildTokenMetadataCell (pre ++ (k, v) :: post) h = Err (UnsupportedOnchainKey k).
Proof.
  intros Hpre Hkeys Hproto.
  unfold buildTokenMetadataCell, buildTokenMetadataDict.
  rewrite run_bind, forEach_app, run_bind.
  destruct (forEach_metadata_run pre Dictionary_empty h) as (h1 & ->).
  { eapply Forall_impl; [exact Hpre |]. intros kv. apply getProperty_found. }
  cbn [forEach]. rewrite run_bind, metadataEntry_unsupported; [done |].
  by apply getProperty_undefined.
Qed.

(** The same for [{name: "A", decimals: "9", foo: "x"}]. *)
Lemma unsupported_key_error_names_first_witness :
  buildTokenMetadataCell
    ([(js "name", Some (js "A"))]
     ++ (js "decimals", Some (js "9")) :: [(js "foo", Some (js "x"))]) []
  = Err (UnsupportedOnchainKey (js "decimals")).
Proof.
  apply (unsupported_key_error_names_first
           [(js "name", Some (js "A"))] [(js "foo", Some (js "x"))]
           (js "decimals") (Some (js "9")) []).
  - constructor; [| constructor]. left.
    apply (bool_decide_unpack (_ ∈ JettonMetaDataKeys)). by vm_compute.
  - apply (bool_decide_unpack (js "decimals" ∉ JettonMetaDataKeys)). by vm_compute.
  - apply (bool_decide_unpack (js "decimals" ∉ Object_prototype)). by vm_compute.
Defined.

(** X9: what the snake encoder keeps of a value.  For every buffer, in
    any store, the encoder returns a cell, and decoding the chain of
    that cell gives the first 126 bytes of the buffer: the buffer comes
    back exactly when it has at most 126 bytes, and the chain has a
    second, empty cell exactly when it has more. *)
Theorem snake_keeps_first_chunk (bufferToStore : Buffer) (h : Heap) :
  ∃ c h', snakeCell bufferToStore h = Ok (c, h')
    ∧ snakeDecode c = Some (take 126 bufferToStore)
    ∧ (snakeDecode c = Some bufferToStore ↔ (length bufferToStore ≤ 126)%nat)
    ∧ chainCells c
      = if decide (126 < length bufferToStore)%nat
        then [c; mkCell [] []] else [c].
Proof.
  destruct (snakeCell_run bufferToStore h) as (h' & Hrun & _).
  exists (snakeCellOf bufferToStore), (h ++ h'). split; [exact Hrun |].
  rewrite snakeDecode_snakeCellOf, CELL_MAX_SIZE_BYTES_eq.
  split; [done |]. split.
  - split.
    + intros [= Heq]. apply (f_equal length) in Heq.
      rewrite length_take in Heq. lia.
    + intros Hlen. by rewrite take_ge.
  - unfold snakeCellOf. rewrite CELL_MAX_SIZE_BYTES_eq.
    by destruct (decide (126 < length bufferToStore)%nat).
Qed.

(** X10: the dictionary key of a metadata key is its whole digest.
    The digest has 32 bytes, the key width of the dictionary, so the
    slice to the first [KEYLEN] = 256 bytes removes nothing. *)
Theorem metadata_key_is_whole_digest (k : JSString) :
  take KEYLEN (sha256 k) = sha256 k
  ∧ length (take KEYLEN (sha256 k)) = (KEYLEN / 8)%nat.
Proof.
  assert (take KEYLEN (sha256 k) = sha256 k) as ->
    by (apply take_ge; rewrite length_sha256; unfold KEYLEN; lia).
  split; [done |]. by rewrite length_sha256.
Qed.

Lemma Buffer_from_recognised k s :
  k ∈ JettonMetaDataKeys →
  Buffer_from s (getProperty k)
  = if decide (k = js "image") then latin1_encode s else utf8_encode s.
Proof.
  assert (getProperty (js "name") = PEncoding utf8) as Hname by (by vm_compute).
  assert (getProperty (js "description") = PEncoding utf8) as Hdesc
    by (by vm_compute).
  assert (getProperty (js "image") = PEncoding ascii) as Himage by (by vm_compute).
  assert (getProperty (js "symbol") = PEncoding utf8) as Hsymbol
    by (by vm_compute).
  unfold JettonMetaDataKeys. intros Hk.
  repeat (apply elem_of_cons in Hk as [->|Hk]);
    try (by apply elem_of_nil in Hk).
  - rewrite Hname, decide_False; [done |].
    apply (bool_decide_unpack (js "name" ≠ js "image")). by vm_compute.
  - rewrite Hdesc, decide_False; [done |].
    apply (bool_decide_unpack (js "description" ≠ js "image")). by vm_compute.
  - by rewrite Himage, decide_True.
  - rewrite Hsymbol, decide_False; [done |].
    apply (bool_decide_unpack (js "symbol" ≠ js "image")). by vm_compute.
Qed.

(** X11: short values are stored whole.  For a mapping with distinct
    recognised keys, in any store, the dictionary that
    [buildTokenMetadataCell] fills holds, for every key with a non-empty
    value, a cell whose chain decodes to the first 126 bytes of the
    encoded value, hence to all of them when there are at most 126; the
    encoding keeps the low byte of each code unit for [image] and is
    UTF-8 for the other keys. *)
Theorem metadata_value_read_back (data : Entries) (h : Heap) (k : JSString)
    (s : JSString) :
  NoDup data.*1 → Forall (λ k, k ∈ JettonMetaDataKeys) data.*1 →
  (k, Some s) ∈ data → s ≠ [] →
  let encoded := if decide (k = js "image") then latin1_encode s
                 else utf8_encode s in
  ∃ dict h' c, buildTokenMetadataDict data h = Ok (dict, h')
    ∧ dict_get (dictKey k) dict = Some c
    ∧ snakeDecode c = Some (take 126 encoded)
    ∧ ((length encoded ≤ 126)%nat → snakeDecode c = Some encoded).
Proof.
  intros Hnd Hrec Hin Hs encoded.
  assert (k ∈ JettonMetaDataKeys) as Hk.
  { apply (proj1 (Forall_forall _ _) Hrec).
    by apply (list_elem_of_fmap_2 fst _ (k, Some s)). }
  destruct (forEach_metadata_run data Dictionary_empty h) as (h' & Hrun).
  { apply Forall_forall. intros [k' v'] Hin'. apply getProperty_recognised.
    apply (proj1 (Forall_forall _ _) Hrec).
    by apply (list_elem_of_fmap_2 fst _ (k', v')). }
  exists (dictOf data Dictionary_empty), (h ++ h'),
    (snakeCellOf (Buffer_from s (getProperty k))).
  split; [exact Hrun |]. split; [by apply dictOf_get_entry |].
  rewrite snakeDecode_snakeCellOf, CELL_MAX_SIZE_BYTES_eq, Buffer_from_recognised
    by done.
  split; [done |]. intros Hlen. by rewrite take_ge.
Qed.

(** The same for the image of the mapping
    [{name: "MyJetton", image: "https://x.y/z.png"}]. *)
Lemma metadata_value_read_back_witness :
  let data := [(js "name", Some (js "MyJetton"));
               (js "image", Some (js "https://x.y/z.png"))] in
  ∃ dict h' c, buildTokenMetadataDict data [] = Ok (dict, h')
    ∧ dict_get (dictKey (js "image")) dict = Some c
    ∧ snakeDecode c = Some (take 126 (latin1_encode (js "https://x.y/z.png")))
    ∧ ((length (latin1_encode (js "https://x.y/z.png")) ≤ 126)%nat →
       snakeDecode c = Some (latin1_encode (js "https://x.y/z.png"))).
Proof.
  intros data.
  apply (metadata_value_read_back data [] (js "image") (js "https://x.y/z.png")).
  - apply (bool_decide_unpack (NoDup data.*1)). by vm_compute.
  - apply (bool_decide_unpack (Forall (λ k, k ∈ JettonMetaDataKeys) data.*1)).
    by vm_compute.
  - right. left.
  - discriminate.
Defined.

(** ** The content cell read back *)

(** As for the totality of the serialisation, the four keys leave
    finitely many dictionaries to serialise; each one gives the cell of
    its rearrangement in key order, and the reader finds in that cell
    the entries of the dictionary. *)
Lemma serializeContent_read (dict : Dictionary) :
  NoDup dict.*1 → Forall (λ k, k ∈ dictKey <$> JettonMetaDataKeys) dict.*1 →
  serializeContent dict [] = serializeContent (canon dict) []
  ∧ ∃ c h', serializeContent dict [] = Ok (c, h')
      ∧ loadContent c = Some (prod_map buffer_bits id <$> canon dict)
      ∧ cell_bits c
        = repeat false 8 ++ [match dict with [] => false | _ => true end]
      ∧ length (cell_refs c) = match dict with [] => 0%nat | _ => 1%nat end.
Proof.
  intros Hnd Hall.
  assert (length dict ≤ 4)%nat as Hlen.
  { rewrite <- (length_fmap fst).
    change 4%nat with (length (dictKey <$> JettonMetaDataKeys)).
    apply submseteq_length, NoDup_submseteq; [done |].
    by apply Forall_forall. }
  unfold JettonMetaDataKeys in Hall. rewrite !fmap_cons, fmap_nil in Hall.
  rewrite dictKey_name_eq, dictKey_description_eq, dictKey_image_eq,
    dictKey_symbol_eq in Hall.
  destruct dict as [|[k1 c1] [|[k2 c2] [|[k3 c3] [|[k4 c4] [|? ?]]]]];
    [| | | | | cbn in Hlen; lia]; clear Hlen.
  all: rewrite ?fmap_cons, ?fmap_nil in Hall, Hnd; cbn [fst] in Hall, Hnd.
  all: repeat match goal with
              | H : Forall _ (_ :: _) |- _ => apply Forall_cons in H as [? H]
              end; clear Hall.
  all: repeat match goal with
              | H : _ ∈ _ :: _ |- _ => apply elem_of_cons in H as [->|H]
              | H : _ ∈ [] |- _ => by apply elem_of_nil in H
              end.
  all: first [solve [nodup_contra Hnd]
             | split; [vm_compute; reflexivity |];
               eexists _, _; split; [vm_compute; reflexivity |];
               split; [vm_compute; reflexivity |];
               split; vm_compute; reflexivity].
Qed.

Lemma map_get_Some_elem {K V} `{EqDecision K} (k : K) (v : V) (m : list (K * V)) :
  map_get k m = Some v → (k, v) ∈ m.
Proof.
  induction m as [|[k' v'] m IH]; cbn; [done |].
  destruct (decide (k' = k)) as [->|Hne].
  - intros [= ->]. by left.
  - intros Hget. right. by apply IH.
Qed.

Lemma map_get_elem_NoDup {K V} `{EqDecision K} (k : K) (v : V) (m : list (K * V)) :
  NoDup m.*1 → (k, v) ∈ m → map_get k m = Some v.
Proof.
  induction m as [|[k' v'] m IH]; intros Hnd Hin; [by apply elem_of_nil in Hin |].
  rewrite fmap_cons in Hnd. apply NoDup_cons in Hnd as [Hk' Hnd]. cbn [fst] in Hk'.
  cbn [map_get]. apply elem_of_cons in Hin as [[= -> ->]|Hin].
  - by rewrite decide_True.
  - rewrite decide_False; [by apply IH |].
    intros ->. destruct Hk'. by apply (list_elem_of_fmap_2 fst _ (k, v)).
Qed.

(** The rearrangement has the entries of the dictionary. *)
Lemma canon_elem dict key c :
  Forall (λ k, k ∈ dictKey <$> JettonMetaDataKeys) dict.*1 →
  (key, c) ∈ canon dict ↔ dict_get key dict = Some c.
Proof.
  intros Hall. unfold canon. rewrite list_elem_of_omap. split.
  - intros (key' & _ & Hget).
    destruct (dict_get key' dict) as [c'|] eqn:Hd; [| done].
    cbn in Hget. by injection Hget as -> ->.
  - intros Hget. exists key. split; [| by rewrite Hget].
    apply map_get_Some_elem in Hget.
    apply (list_elem_of_fmap_2 fst) in Hget. cbn [fst] in Hget.
    apply (proj1 (Forall_forall _ _) Hall) in Hget.
    unfold JettonMetaDataKeys in Hget. rewrite !fmap_cons, fmap_nil in Hget.
    rewrite dictKey_name_eq, dictKey_description_eq, dictKey_image_eq,
      dictKey_symbol_eq in Hget.
    repeat (apply elem_of_cons in Hget as [->|Hget]);
      try (by apply elem_of_nil in Hget).
    + right. by left.
    + do 3 right. by left.
    + by left.
    + do 2 right. by left.
Qed.

Lemma canon_ext d1 d2 :
  (∀ key, dict_get key d1 = dict_get key d2) → canon d1 = canon d2.
Proof. intros Hext. unfold canon. cbn [omap list_omap]. by rewrite !Hext. Qed.

Lemma canon_keys_NoDup dict : NoDup (canon dict).*1.
Proof.
  assert (NoDup [key_image; key_name; key_symbol; key_description]) as Hnd.
  { apply (bool_decide_unpack _). by vm_compute. }
  unfold canon. revert Hnd.
  generalize [key_image; key_name; key_symbol; key_description].
  intros keys. induction keys as [|key keys IH]; intros Hnd; [constructor |].
  apply NoDup_cons in Hnd as [Hkey Hnd]. cbn [omap list_omap].
  destruct (dict_get key dict) as [c|]; cbn [fmap option_fmap option_map];
    [| by apply IH].
  rewrite fmap_cons. apply NoDup_cons. split; [| by apply IH].
  cbn [fst]. intros Hin. apply list_elem_of_fmap in Hin as ([key' c'] & -> & Hin).
  apply list_elem_of_omap in Hin as (key'' & Hin & Hget).
  destruct (dict_get key'' dict); [| done]. cbn in Hget.
  injection Hget as -> ->. done.
Qed.

(** The entries of the dictionary of a mapping. *)
Lemma dictOf_get_iff data key c :
  NoDup data.*1 → Forall (λ k, k ∈ JettonMetaDataKeys) data.*1 →
  dict_get key (dictOf data Dictionary_empty) = Some c
  ↔ ∃ k s, (k, Some s) ∈ kept data ∧ key = dictKey k
           ∧ c = snakeCellOf (Buffer_from s (getProperty k)).
Proof.
  intros Hnd Hrec. unfold kept. split.
  - intros Hget.
    destruct (dictOf_get_Some data Dictionary_empty key) as [[? [=]]|Hin];
      [by rewrite Hget |].
    destruct Hin as (k & s & Hin & Hs & ->). exists k, s.
    split; [| split; [done |]].
    + apply list_elem_of_filter. split; [| done].
      cbn. by apply bool_decide_eq_false.
    + rewrite (dictOf_get_entry data Dictionary_empty k s) in Hget by done.
      congruence.
  - intros (k & s & Hin & -> & ->).
    apply list_elem_of_filter in Hin as [Hs Hin]. cbn in Hs.
    apply bool_decide_eq_false in Hs. by apply dictOf_get_entry.
Qed.

Lemma dictOf_recognised data :
  Forall (λ k, k ∈ JettonMetaDataKeys) data.*1 →
  NoDup (dictOf data Dictionary_empty).*1
  ∧ Forall (λ k, k ∈ dictKey <$> JettonMetaDataKeys) (dictOf data Dictionary_empty).*1.
Proof.
  intros Hrec.
  apply (dictOf_keys (λ k, k ∈ dictKey <$> JettonMetaDataKeys));
    [constructor | constructor |].
  apply Forall_forall. intros [k v] Hin. apply list_elem_of_fmap_2.
  apply (proj1 (Forall_forall _ _) Hrec).
  by apply (list_elem_of_fmap_2 fst _ (k, v)).
Qed.

(** The content cell of a mapping over the recognised keys is the
    serialisation of its dictionary. *)
Lemma buildTokenMetadataCell_outcome data h :
  Forall (λ k, k ∈ JettonMetaDataKeys) data.*1 →
  outcome (buildTokenMetadataCell data h)
  = outcome (serializeContent (dictOf data Dictionary_empty) []).
Proof.
  intros Hrec.
  rewrite (framed_outcome _ h (λ n, framed_buildTokenMetadataCell n data)).
  destruct (forEach_metadata_run data Dictionary_empty []) as (h1 & Hrun).
  { apply Forall_forall. intros [k v] Hin. apply getProperty_recognised.
    apply (proj1 (Forall_forall _ _) Hrec).
    by apply (list_elem_of_fmap_2 fst _ (k, v)). }
  change (buildTokenMetadataCell data)
    with (buildTokenMetadataDict data ≫= serializeContent).
  unfold buildTokenMetadataDict. rewrite run_bind, Hrun.
  apply (framed_outcome _ ([] ++ h1) (λ n, framed_serializeContent n _)).
Qed.

Lemma buffer_bits_Inj : Inj (=) (=) buffer_bits.
Proof. intros a b. apply buffer_bits_inj. Qed.

(** The entries that the reader finds are those of the dictionary. *)
Lemma canon_entries_get dict key :
  Forall (λ k, k ∈ dictKey <$> JettonMetaDataKeys) dict.*1 →
  map_get (buffer_bits key) (prod_map buffer_bits id <$> canon dict)
  = dict_get key dict.
Proof.
  intros Hall.
  assert (NoDup (prod_map buffer_bits id <$> canon dict).*1) as Hnd.
  { rewrite <- list_fmap_compose.
    change (fst ∘ prod_map buffer_bits id) with (buffer_bits ∘ @fst Buffer Cell).
    rewrite list_fmap_compose. pose proof buffer_bits_Inj.
    apply (NoDup_fmap_2 _), canon_keys_NoDup. }
  destruct (dict_get key dict) as [c|] eqn:Hget.
  - apply map_get_elem_NoDup; [done |].
    apply list_elem_of_fmap. exists (key, c). split; [done |].
    by apply canon_elem.
  - apply map_get_None. intros Hin.
    apply list_elem_of_fmap in Hin as ([bits c] & Hbits & Hin). cbn [fst] in Hbits.
    apply list_elem_of_fmap in Hin as ([key' c'] & [= -> ->] & Hin).
    apply buffer_bits_inj in Hbits as ->.
    apply canon_elem in Hin; [| done]. congruence.
Qed.

(** C6: for a mapping with distinct recognised keys, in any store,
    [buildTokenMetadataCell] returns a content cell, and the dictionary
    that the reader finds in this cell has distinct keys and is such
    that a key whose value is [undefined] or the empty string has no
    entry, a key with a non-empty value has the entry keyed by the first
    256 bits of the hash of its name, holding the snake cell of its
    value, and there is no other entry.  The dictionary held by [dict]
    when the [forEach] returns has the same entries.  For the mapping of
    the scenario both are exactly the two entries of [name] and
    [symbol]. *)
Theorem metadata_omission :
  (∀ (data : Entries) (h : Heap),
     NoDup data.*1 → Forall (λ k, k ∈ JettonMetaDataKeys) data.*1 →
     (∃ c h' entries,
        buildTokenMetadataCell data h = Ok (c, h')
        ∧ loadContent c = Some entries
        ∧ NoDup entries.*1
        ∧ (∀ k v, (k, v) ∈ data →
             map_get (buffer_bits (dictKey k)) entries =
               match v with
               | None => None
               | Some s =>
                   if decide (s = []) then None
                   else Some (snakeCellOf (Buffer_from s (getProperty k)))
               end)
        ∧ (∀ bits c', (bits, c') ∈ entries →
             ∃ k s, (k, Some s) ∈ data ∧ s ≠ []
                    ∧ bits = buffer_bits (dictKey k)))
     ∧ ∃ dict h', buildTokenMetadataDict data h = Ok (dict, h')
       ∧ (∀ k v, (k, v) ∈ data →
            dict_get (dictKey k) dict =
              match v with
              | None => None
              | Some s =>
                  if decide (s = []) then None
                  else Some (snakeCellOf (Buffer_from s (getProperty k)))
              end)
       ∧ (∀ key, is_Some (dict_get key dict) →
            ∃ k s, (k, Some s) ∈ data ∧ s ≠ [] ∧ key = dictKey k))
  ∧ (∀ h, ∃ h',
       buildTokenMetadataDict scenario h =
         Ok ([(dictKey (js "name"), snakeCellOf (utf8_encode (js "MyJetton")));
              (dictKey (js "symbol"), snakeCellOf (utf8_encode (js "JET1")))], h'))
  ∧ (∀ h, ∃ c h',
       buildTokenMetadataCell scenario h = Ok (c, h')
       ∧ loadContent c =
           Some [(buffer_bits (dictKey (js "name")),
                  snakeCellOf (utf8_encode (js "MyJetton")));
                 (buffer_bits (dictKey (js "symbol")),
                  snakeCellOf (utf8_encode (js "JET1")))]).
Proof.
  split; [| split].
  - intros data h Hnd Hrec.
    destruct (forEach_metadata_run data Dictionary_empty h) as (h' & Hrun).
    { apply Forall_forall. intros [k v] Hin. apply getProperty_recognised.
      apply (proj1 (Forall_forall _ _) Hrec).
      by apply (list_elem_of_fmap_2 fst _ (k, v)). }
    assert (∀ k v, (k, v) ∈ data →
              dict_get (dictKey k) (dictOf data Dictionary_empty) =
                match v with
                | None => None
                | Some s =>
                    if decide (s = []) then None
                    else Some (snakeCellOf (Buffer_from s (getProperty k)))
                end) as Hentries.
    { intros k v Hin.
      assert (∀ v', (k, v') ∈ data → v' = v) as Huniq.
      { clear -Hnd Hin. induction data as [|[k0 v0] data IH];
          [by apply elem_of_nil in Hin |].
        rewrite fmap_cons in Hnd. apply NoDup_cons in Hnd as [Hk0 Hnd].
        intros v' Hin'. cbn [fst] in Hk0.
        apply elem_of_cons in Hin as [[= -> ->]|Hin];
          apply elem_of_cons in Hin' as [[= ->]|Hin'].
        - done.
        - destruct Hk0. by apply (list_elem_of_fmap_2 fst _ (k0, v')).
        - subst. destruct Hk0. by apply (list_elem_of_fmap_2 fst _ (k0, v)).
        - by apply IH. }
      assert (is_empty_value v = true →
              dict_get (dictKey k) (dictOf data Dictionary_empty) = None) as Hempty.
      { intros Hv. rewrite dictOf_get_other; [done |].
        intros [k' v'] Hin' Hv' Heq. cbn [fst snd] in *.
        apply dictKey_inj in Heq;
          [| apply (proj1 (Forall_forall _ _) Hrec)..];
          [| by apply (list_elem_of_fmap_2 fst _ (k', v'))
           | by apply (list_elem_of_fmap_2 fst _ (k, v))].
        subst k'. rewrite (Huniq v' Hin') in Hv'. congruence. }
      destruct v as [s|]; [| by apply Hempty].
      destruct (decide (s = [])) as [->|Hs]; [by apply Hempty |].
      by apply dictOf_get_entry. }
    split.
    + pose proof (buildTokenMetadataCell_outcome data h Hrec) as Hout.
      destruct (dictOf_recognised data Hrec) as [Hd1 Hd2].
      destruct (serializeContent_read _ Hd1 Hd2)
        as (_ & content & h1 & Hser & Hload & _).
      rewrite Hser in Hout.
      destruct (buildTokenMetadataCell data h) as [[c0 h0]|e]; [| done].
      injection Hout as ->.
      exists content, h0,
        (prod_map buffer_bits id <$> canon (dictOf data Dictionary_empty)).
      split; [done |]. split; [done |]. split; [| split].
      * rewrite <- list_fmap_compose.
        change (fst ∘ prod_map buffer_bits id)
          with (buffer_bits ∘ @fst Buffer Cell).
        rewrite list_fmap_compose. pose proof buffer_bits_Inj.
        apply (NoDup_fmap_2 _), canon_keys_NoDup.
      * intros k v Hin. rewrite canon_entries_get by done. by apply Hentries.
      * intros bits c' Hin.
        apply list_elem_of_fmap in Hin as ([key c''] & [= -> ->] & Hin).
        apply canon_elem in Hin; [| done].
        apply dictOf_get_iff in Hin as (k & s & Hin & -> & _); [| done..].
        apply list_elem_of_filter in Hin as [Hs Hin]. cbn in Hs.
        apply bool_decide_eq_false in Hs. by exists k, s.
    + exists (dictOf data Dictionary_empty), (h ++ h').
      split; [exact Hrun |]. split; [exact Hentries |].
      intros key Hsome.
      by destruct (dictOf_get_Some _ _ _ Hsome) as [[? [=]]|?].
  - intros h.
    rewrite (framed_run _ h (λ n, framed_buildTokenMetadataDict n scenario)).
    destruct (forEach_metadata_run scenario Dictionary_empty []) as (h' & Hrun).
    { repeat constructor; by vm_compute. }
    unfold buildTokenMetadataDict. rewrite Hrun. by eexists.
  - intros h.
    rewrite (framed_run _ h (λ n, framed_buildTokenMetadataCell n scenario)).
    assert (∃ c h', buildTokenMetadataCell scenario [] = Ok (c, h')
                    ∧ loadContent c =
                        Some [(buffer_bits (dictKey (js "name")),
                               snakeCellOf (utf8_encode (js "MyJetton")));
                              (buffer_bits (dictKey (js "symbol")),
                               snakeCellOf (utf8_encode (js "JET1")))])
      as (c & h' & -> & Hload)
      by (eexists _, _; split; vm_compute; reflexivity).
    by exists c, (h ++ h').
Qed.

(** The same at the mapping of the scenario. *)
Lemma metadata_omission_witness :
  (∃ c h' entries,
     buildTokenMetadataCell scenario [] = Ok (c, h')
     ∧ loadContent c = Some entries
     ∧ NoDup entries.*1
     ∧ (∀ k v, (k, v) ∈ scenario →
          map_get (buffer_bits (dictKey k)) entries =
            match v with
            | None => None
            | Some s =>
                if decide (s = []) then None
                else Some (snakeCellOf (Buffer_from s (getProperty k)))
            end)
     ∧ (∀ bits c', (bits, c') ∈ entries →
          ∃ k s, (k, Some s) ∈ scenario ∧ s ≠ []
                 ∧ bits = buffer_bits (dictKey k)))
  ∧ ∃ dict h', buildTokenMetadataDict scenario [] = Ok (dict, h')
    ∧ (∀ k v, (k, v) ∈ scenario →
         dict_get (dictKey k) dict =
           match v with
           | None => None
           | Some s =>
               if decide (s = []) then None
               else Some (snakeCellOf (Buffer_from s (getProperty k)))
           end)
    ∧ (∀ key, is_Some (dict_get key dict) →
         ∃ k s, (k, Some s) ∈ scenario ∧ s ≠ [] ∧ key = dictKey k).
Proof.
  apply (proj1 metadata_omission scenario []).
  - apply (bool_decide_unpack (NoDup scenario.*1)). by vm_compute.
  - apply (bool_decide_unpack (Forall (λ k, k ∈ JettonMetaDataKeys) scenario.*1)).
    by vm_compute.
Defined.

Lemma map_set_not_nil {K V} `{EqDecision K} (k : K) (v : V) (m : list (K * V)) :
  map_set k v m ≠ [].
Proof. destruct m as [|[k' v'] m]; cbn; [done |]. by destruct (decide (k' = k)). Qed.

Lemma dictOf_nil data : ∀ dict,
  dictOf data dict = []
  ↔ dict = [] ∧ forallb (λ kv, is_empty_value kv.2) data = true.
Proof.
  induction data as [|[k v] data IH]; intros dict; [by cbn; split; [| intros []] |].
  cbn [dictOf fold_left forallb snd]. fold (dictOf data (entryOf dict (k, v))).
  rewrite IH, andb_true_iff. unfold entryOf. cbn [fst snd is_empty_value].
  destruct v as [s|]; cbn [is_empty_value];
    [| by split; [intros [? ?] | intros (? & _ & ?)]].
  destruct (decide (s = [])) as [->|Hs].
  - rewrite bool_decide_eq_true_2 by done.
    by split; [intros [? ?] | intros (? & _ & ?)].
  - rewrite bool_decide_eq_false_2 by done. split.
    + intros [Hset _]. by apply map_set_not_nil in Hset.
    + by intros [_ [? _]].
Qed.

(** X12: the content cell depends only on the pairs with a non-empty
    value, not on their order.  Two mappings with distinct recognised
    keys that have the same pairs once the pairs whose value is
    [undefined] or the empty string are left out, in whatever order,
    give the same content cell, in any two stores. *)
Theorem metadata_cell_ignores_order_and_empty (data data' : Entries)
    (h h' : Heap) :
  NoDup data.*1 → NoDup data'.*1 →
  Forall (λ k, k ∈ JettonMetaDataKeys) data.*1 →
  Forall (λ k, k ∈ JettonMetaDataKeys) data'.*1 →
  kept data ≡ₚ kept data' →
  outcome (buildTokenMetadataCell data h)
  = outcome (buildTokenMetadataCell data' h').
Proof.
  intros Hnd Hnd' Hrec Hrec' Hperm.
  rewrite !buildTokenMetadataCell_outcome by done.
  destruct (dictOf_recognised data Hrec) as [Hd1 Hd2].
  destruct (dictOf_recognised data' Hrec') as [Hd1' Hd2'].
  rewrite (proj1 (serializeContent_read _ Hd1 Hd2)).
  rewrite (proj1 (serializeContent_read _ Hd1' Hd2')).
  assert (∀ key c, dict_get key (dictOf data Dictionary_empty) = Some c
                   ↔ dict_get key (dictOf data' Dictionary_empty) = Some c) as Hiff.
  { intros key c. rewrite !dictOf_get_iff by done.
    split; intros (k & s & Hin & Hkey & Hc); exists k, s; (split; [| done]).
    - by rewrite <- Hperm.
    - by rewrite Hperm. }
  f_equal. f_equal. apply canon_ext. intros key.
  destruct (dict_get key (dictOf data Dictionary_empty)) as [c|] eqn:Hget.
  - symmetry. by apply Hiff.
  - destruct (dict_get key (dictOf data' Dictionary_empty)) as [c'|] eqn:Hget';
      [| done].
    apply Hiff in Hget'. congruence.
Qed.

(** The same for the mapping of the scenario and the mapping
    [{symbol: "JET1", name: "MyJetton"}]. *)
Lemma metadata_cell_ignores_order_and_empty_witness :
  let data' := [(js "symbol", Some (js "JET1")); (js "name", Some (js "MyJetton"))] in
  outcome (buildTokenMetadataCell scenario [])
  = outcome (buildTokenMetadataCell data' []).
Proof.
  intros data'.
  apply (metadata_cell_ignores_order_and_empty scenario data' [] []).
  - apply (bool_decide_unpack (NoDup scenario.*1)). by vm_compute.
  - apply (bool_decide_unpack (NoDup data'.*1)). by vm_compute.
  - apply (bool_decide_unpack (Forall (λ k, k ∈ JettonMetaDataKeys) scenario.*1)).
    by vm_compute.
  - apply (bool_decide_unpack (Forall (λ k, k ∈ JettonMetaDataKeys) data'.*1)).
    by vm_compute.
  - assert (kept scenario
            = [(js "name", Some (js "MyJetton")); (js "symbol", Some (js "JET1"))])
      as -> by (by vm_compute).
    assert (kept data' = data') as -> by (by vm_compute).
    apply Permutation_swap.
Defined.

(** X13: the content cell reads back.  For a mapping with distinct
    recognised keys, in any store, [buildTokenMetadataCell] returns a
    cell from which the dictionary reader gets entries with distinct
    256-bit keys, and these are exactly the pairs with a non-empty
    value: each under the bits of the hash of its key, with the snake
    cell of its encoded value. *)
Theorem content_cell_read_back (data : Entries) (h : Heap) :
  NoDup data.*1 → Forall (λ k, k ∈ JettonMetaDataKeys) data.*1 →
  ∃ content h' entries,
    buildTokenMetadataCell data h = Ok (content, h')
    ∧ loadContent content = Some entries
    ∧ NoDup entries.*1
    ∧ ∀ bits c, (bits, c) ∈ entries
        ↔ ∃ k s, (k, Some s) ∈ data ∧ s ≠ []
                 ∧ bits = buffer_bits (dictKey k)
                 ∧ c = snakeCellOf (Buffer_from s (getProperty k)).
Proof.
  intros Hnd Hrec.
  pose proof (buildTokenMetadataCell_outcome data h Hrec) as Hout.
  destruct (dictOf_recognised data Hrec) as [Hd1 Hd2].
  destruct (serializeContent_read _ Hd1 Hd2)
    as (_ & content & h1 & Hser & Hload & _).
  rewrite Hser in Hout.
  destruct (buildTokenMetadataCell data h) as [[c0 h0]|e]; [| done].
  injection Hout as ->.
  exists content, h0, (prod_map buffer_bits id <$> canon (dictOf data Dictionary_empty)).
  split; [done |]. split; [done |]. split.
  - rewrite <- list_fmap_compose.
    change (fst ∘ prod_map buffer_bits id) with (buffer_bits ∘ @fst Buffer Cell).
    rewrite list_fmap_compose. pose proof buffer_bits_Inj.
    apply (NoDup_fmap_2 _), canon_keys_NoDup.
  - intros bits c. rewrite list_elem_of_fmap. split.
    + intros ([key c'] & [= -> ->] & Hin). cbn [id].
      apply canon_elem in Hin; [| done].
      apply dictOf_get_iff in Hin as (k & s & Hin & -> & ->); [| done..].
      apply list_elem_of_filter in Hin as [Hs Hin]. cbn in Hs.
      apply bool_decide_eq_false in Hs. by exists k, s.
    + intros (k & s & Hin & Hs & -> & ->).
      exists (dictKey k, snakeCellOf (Buffer_from s (getProperty k))).
      split; [done |]. apply canon_elem; [done |].
      by apply dictOf_get_entry.
Qed.

(** The same for the mapping of the scenario. *)
Lemma content_cell_read_back_witness :
  ∃ content h' entries,
    buildTokenMetadataCell scenario [] = Ok (content, h')
    ∧ loadContent content = Some entries
    ∧ NoDup entries.*1
    ∧ ∀ bits c, (bits, c) ∈ entries
        ↔ ∃ k s, (k, Some s) ∈ scenario ∧ s ≠ []
                 ∧ bits = buffer_bits (dictKey k)
                 ∧ c = snakeCellOf (Buffer_from s (getProperty k)).
Proof.
  apply (content_cell_read_back scenario []).
  - apply (bool_decide_unpack (NoDup scenario.*1)). by vm_compute.
  - apply (bool_decide_unpack (Forall (λ k, k ∈ JettonMetaDataKeys) scenario.*1)).
    by vm_compute.
Defined.

(** X14: the shape of the content cell.  For a mapping over the
    recognised keys, in any store, [buildTokenMetadataCell] returns the
    cell of nine zero bits without reference when every value is
    [undefined] or the empty string; otherwise it returns a cell of
    eight zero bits and a one bit with exactly one reference, the root
    of the dictionary. *)
Theorem content_cell_shape (data : Entries) (h : Heap) :
  Forall (λ k, k ∈ JettonMetaDataKeys) data.*1 →
  ∃ content h',
    buildTokenMetadataCell data h = Ok (content, h')
    ∧ if forallb (λ kv, is_empty_value kv.2) data
      then content = mkCell (repeat false 9) []
      else cell_bits content = repeat false 8 ++ [true]
           ∧ length (cell_refs content) = 1%nat.
Proof.
  intros Hrec.
  pose proof (buildTokenMetadataCell_outcome data h Hrec) as Hout.
  destruct (dictOf_recognised data Hrec) as [Hd1 Hd2].
  destruct (serializeContent_read _ Hd1 Hd2)
    as (_ & content & h1 & Hser & _ & Hbits & Hrefs).
  rewrite Hser in Hout.
  destruct (buildTokenMetadataCell data h) as [[c0 h0]|e]; [| done].
  injection Hout as ->. exists content, h0. split; [done |].
  pose proof (dictOf_nil data Dictionary_empty) as Hnil.
  destruct (forallb (λ kv, is_empty_value kv.2) data).
  - rewrite (proj2 Hnil) in Hbits, Hrefs by done.
    destruct content as [bits refs]. cbn [cell_bits cell_refs] in *.
    destruct refs; [| done]. by rewrite Hbits.
  - destruct (dictOf data Dictionary_empty); [| done].
    by destruct (proj1 Hnil eq_refl).
Qed.

(** The same for the configuration of the deployment script when no
    variable is set, and when the name is set. *)
Lemma content_cell_shape_witness :
  (∃ h', buildTokenMetadataCell (deployConfig None None None None) []
         = Ok (mkCell (repeat false 9) [], h'))
  ∧ ∃ content h',
      buildTokenMetadataCell (deployConfig (Some (js "A")) None None None) []
      = Ok (content, h')
      ∧ cell_bits content = repeat false 8 ++ [true]
      ∧ length (cell_refs content) = 1%nat.
Proof.
  split.
  - destruct (content_cell_shape (deployConfig None None None None) [])
      as (content & h' & Hrun & Hshape).
    + apply (bool_decide_unpack (Forall _ _)). by vm_compute.
    + simpl in Hshape. subst content. exists h'. exact Hrun.
  - apply (content_cell_shape (deployConfig (Some (js "A")) None None None) []).
    apply (bool_decide_unpack (Forall _ _)). by vm_compute.
Defined.

(** ** Serialising a dictionary with any keys of 32 bytes *)

Lemma map_fmap {A B} (f : A → B) (l : list A) : map f l = f <$> l.
Proof. induction l as [|x l IH]; [done |]. cbn. by rewrite IH. Qed.

Lemma commonPrefix_prefix a : ∀ b,
  commonPrefix a b `prefix_of` a ∧ commonPrefix a b `prefix_of` b.
Proof.
  induction a as [|x a IH]; intros [|y b]; cbn [commonPrefix];
    try (split; apply prefix_nil).
  destruct (Bool.eqb x y) eqn:Heq; [| split; apply prefix_nil].
  apply Bool.eqb_prop in Heq as ->. destruct (IH b) as [Ha Hb].
  split; by apply prefix_cons.
Qed.

Lemma commonPrefix_greatest p : ∀ a b,
  p `prefix_of` a → p `prefix_of` b → p `prefix_of` commonPrefix a b.
Proof.
  induction p as [|x p IH]; intros a b Ha Hb; [apply prefix_nil |].
  destruct Ha as [a' ->], Hb as [b' ->]. cbn [app commonPrefix].
  rewrite Bool.eqb_reflx. apply prefix_cons, IH; by eexists.
Qed.

Lemma fold_commonPrefix_prefix rest : ∀ k,
  fold_left commonPrefix rest k `prefix_of` k
  ∧ Forall (λ r, fold_left commonPrefix rest k `prefix_of` r) rest.
Proof.
  induction rest as [|r rest IH]; intros k; cbn [fold_left]; [done |].
  destruct (IH (commonPrefix k r)) as [Hk Hrest].
  destruct (commonPrefix_prefix k r) as [H1 H2].
  split; [by etrans |]. constructor; [by etrans | done].
Qed.

Lemma fold_commonPrefix_greatest p rest : ∀ k,
  p `prefix_of` k → Forall (prefix p) rest →
  p `prefix_of` fold_left commonPrefix rest k.
Proof.
  induction rest as [|r rest IH]; intros k Hk Hrest; cbn [fold_left]; [done |].
  apply Forall_cons in Hrest as [Hr Hrest].
  apply IH; [| done]. by apply commonPrefix_greatest.
Qed.

Lemma findCommonPrefix_prefix keys :
  Forall (λ k, findCommonPrefix keys `prefix_of` k) keys.
Proof.
  destruct keys as [|k rest]; [constructor |]. cbn [findCommonPrefix].
  destruct (fold_commonPrefix_prefix rest k). by constructor.
Qed.

Lemma findCommonPrefix_greatest p keys :
  keys ≠ [] → Forall (prefix p) keys → p `prefix_of` findCommonPrefix keys.
Proof.
  destruct keys as [|k rest]; [done |]. intros _ Hall.
  apply Forall_cons in Hall as [Hk Hrest].
  by apply fold_commonPrefix_greatest.
Qed.

Lemma prefix_drop {A} (p k : list A) :
  p `prefix_of` k → k = p ++ drop (length p) k.
Proof. intros [t ->]. by rewrite drop_app_length. Qed.

Lemma trimmed_keys k src : (trimmed k src).*1 = drop k <$> src.*1.
Proof. unfold trimmed. by rewrite <- !list_fmap_compose. Qed.

Lemma trimmed_NoDup p src :
  Forall (prefix p) src.*1 → NoDup src.*1 → NoDup (trimmed (length p) src).*1.
Proof.
  rewrite trimmed_keys. intros Hp Hnd. apply NoDup_fmap_2_strong; [| done].
  intros x y Hx Hy Heq.
  rewrite (prefix_drop p x), (prefix_drop p y), Heq; [done | |];
    by apply (proj1 (Forall_forall _ _) Hp).
Qed.

Lemma trimmed_length k n src :
  Forall (λ key, length key = n) src.*1 →
  Forall (λ key, length key = (n - k)%nat) (trimmed k src).*1.
Proof.
  intros Hlen. rewrite trimmed_keys. apply Forall_fmap.
  eapply Forall_impl; [exact Hlen |].
  intros key Hkey. cbn in *. rewrite length_drop. lia.
Qed.

Lemma filter_keys_NoDup (P : list bool * Cell → Prop) `{∀ x, Decision (P x)} src :
  NoDup src.*1 → NoDup (filter P src).*1.
Proof.
  intros Hnd. eapply sublist_NoDup; [exact Hnd |].
  apply fmap_sublist, sublist_filter.
Qed.

Lemma forkSide_keys bit n src :
  NoDup src.*1 → Forall (λ key, length key = n) src.*1 →
  NoDup (forkSide bit src).*1
  ∧ Forall (λ key, length key = (n - 1)%nat) (forkSide bit src).*1.
Proof.
  intros Hnd Hlen. unfold forkSide. split.
  - apply (trimmed_NoDup [bit]); [| by apply filter_keys_NoDup].
    apply Forall_fmap, Forall_forall. intros kv [Hhead _]%list_elem_of_filter.
    cbn. apply head_Some in Hhead as [t ->]. by exists t.
  - apply trimmed_length, Forall_fmap, Forall_forall.
    intros kv [_ Hin]%list_elem_of_filter. cbn.
    apply (proj1 (Forall_forall _ _) Hlen).
    by apply (list_elem_of_fmap_2 fst).
Qed.

(** A side of a fork is empty only when the keys all start with the
    other bit. *)
Lemma forkSide_nil bit src :
  forkSide bit src = [] →
  Forall (λ key, key ≠ [] → [negb bit] `prefix_of` key) src.*1.
Proof.
  unfold forkSide, trimmed. intros Hnil. apply fmap_nil_inv in Hnil.
  apply Forall_fmap, Forall_forall. intros kv Hin. cbn. intros Hne.
  destruct (kv.1) as [|b t] eqn:Hkey; [done |].
  destruct (decide (b = bit)) as [->|Hb].
  - destruct (filter_nil_not_elem_of _ _ kv Hnil); [| done].
    cbn. by rewrite Hkey.
  - exists t. by destruct b, bit.
Qed.

Lemma buildEdge_leaf fuel kv :
  buildEdge (S fuel) [kv] = Ok (mkEdge kv.1 (Leaf kv.2)).
Proof. by cbn. Qed.

Lemma buildEdge_fork fuel src :
  (2 ≤ length src)%nat →
  buildEdge (S fuel) src =
    let src' := trimmed (length (findCommonPrefix src.*1)) src in
    match forkSide false src', forkSide true src' with
    | [], _ | _, [] => Err InternalInconsistency
    | l, r =>
        match buildEdge fuel l, buildEdge fuel r with
        | Ok le, Ok re => Ok (mkEdge (findCommonPrefix src.*1) (Fork le re))
        | Err e, _ | _, Err e => Err e
        end
    end.
Proof.
  destruct src as [|a [|b rest]]; cbn [length]; [lia | lia |]. intros _.
  unfold forkSide, trimmed. cbn [buildEdge]. rewrite !map_fmap.
  reflexivity.
Qed.

Lemma buildEdge_ok fuel : ∀ n src,
  (n < fuel)%nat → src ≠ [] → NoDup src.*1 →
  Forall (λ key, length key = n) src.*1 →
  ∃ tree, buildEdge fuel src = Ok tree ∧ wfEdge n tree.
Proof.
  induction fuel as [|fuel IH]; intros n src Hfuel Hne Hnd Hlen; [lia |].
  pose proof (findCommonPrefix_prefix src.*1) as Hpre.
  assert (length (findCommonPrefix src.*1) ≤ n)%nat as Hlabel.
  { destruct src as [|kv src]; [done |]. rewrite fmap_cons in Hpre, Hlen |- *.
    apply Forall_cons in Hpre as [Hp _]. apply Forall_cons in Hlen as [Hl _].
    apply prefix_length in Hp. cbn beta in Hl. lia. }
  destruct (decide (length src < 2)%nat) as [Hone|Hmore].
  - destruct src as [|kv [|kv' src]]; [done | | cbn in Hone; lia].
    rewrite buildEdge_leaf. eexists. split; [done |].
    rewrite fmap_cons in Hlen. apply Forall_cons in Hlen as [Hl _].
    cbn beta in Hl. cbn [wfEdge]. split; [lia | done].
  - rewrite buildEdge_fork by lia. cbv zeta.
    set (label := findCommonPrefix src.*1) in *.
    set (src' := trimmed (length label) src).
    assert (NoDup src'.*1) as Hnd' by (by apply trimmed_NoDup).
    assert (Forall (λ key, length key = (n - length label)%nat) src'.*1) as Hlen'
      by (by apply trimmed_length).
    assert (1 ≤ n - length label)%nat as Hroom.
    { destruct (decide (n - length label = 0)%nat) as [Hzero|]; [| lia].
      rewrite Hzero in Hlen'. subst src'.
      destruct src as [|kv [|kv' src]]; [cbn in Hmore; lia.. |].
      unfold trimmed in Hnd', Hlen'. rewrite !fmap_cons in Hnd', Hlen'.
      cbn [fst] in Hnd', Hlen'.
      apply Forall_cons in Hlen' as [H0 Hlen']. apply Forall_cons in Hlen' as [H1 _].
      cbn beta in H0, H1. apply nil_length_inv in H0, H1. rewrite H0, H1 in Hnd'.
      apply NoDup_cons in Hnd' as [Hnd' _]. destruct Hnd'. by left. }
    assert (∀ bit, forkSide bit src' ≠ []) as Hside.
    { intros bit Hnil. apply forkSide_nil in Hnil.
      assert (Forall (prefix (label ++ [negb bit])) src.*1) as Hall.
      { apply Forall_forall. intros key Hkey.
        pose proof (proj1 (Forall_forall _ _) Hpre key Hkey) as Hp.
        rewrite (prefix_drop _ _ Hp). apply prefix_app.
        assert (drop (length label) key ∈ src'.*1) as Hin.
        { subst src'. rewrite trimmed_keys. by apply list_elem_of_fmap_2. }
        apply (proj1 (Forall_forall _ _) Hnil _ Hin).
        apply (proj1 (Forall_forall _ _) Hlen') in Hin.
        cbn beta in Hin. intros Hempty. rewrite Hempty in Hin. cbn in Hin. lia. }
      apply findCommonPrefix_greatest in Hall; [| by destruct src].
      by apply prefix_snoc_not in Hall. }
    destruct (forkSide_keys false _ src' Hnd' Hlen') as [Hndl Hlenl].
    destruct (forkSide_keys true _ src' Hnd' Hlen') as [Hndr Hlenr].
    destruct (IH (n - length label - 1)%nat (forkSide false src'))
      as (le & Hle & Hwl); [lia | apply Hside | done | done |].
    destruct (IH (n - length label - 1)%nat (forkSide true src'))
      as (re & Hre & Hwr); [lia | apply Hside | done | done |].
    pose proof (Hside false) as Hl. pose proof (Hside true) as Hr.
    destruct (forkSide false src'); [done |].
    destruct (forkSide true src'); [done |].
    rewrite Hle, Hre. eexists. split; [done |]. cbn [wfEdge]. done.
Qed.

Lemma bits_uint_bound src : 0 ≤ bits_uint src < 2 ^ Z.of_nat (length src).
Proof.
  unfold bits_uint.
  assert (∀ acc, 0 ≤ acc →
            acc * 2 ^ Z.of_nat (length src)
            ≤ fold_left (λ acc (b : bool), 2 * acc + (if b then 1 else 0)) src acc
            < (acc + 1) * 2 ^ Z.of_nat (length src)) as Hfold.
  { induction src as [|b src IH]; intros acc Hacc; cbn [fold_left length].
    - change (2 ^ Z.of_nat 0) with 1. lia.
    - rewrite Nat2Z.inj_succ, Z.pow_succ_r by lia.
      pose proof (IH (2 * acc + (if b then 1 else 0)) ltac:(destruct b; lia)) as IHb.
      destruct b; nia. }
  pose proof (Hfold 0 ltac:(lia)). lia.
Qed.

Lemma lenLen_bound n len :
  (len ≤ n)%nat → (n ≤ 256)%nat →
  0 ≤ Z.of_nat len < 2 ^ Z.of_nat (lenLen n) ∧ (lenLen n ≤ 9)%nat.
Proof.
  intros Hlen Hn. unfold lenLen.
  pose proof (Z.log2_up_nonneg (Z.of_nat n + 1)) as Hpos.
  pose proof (Z.log2_log2_up_spec (Z.of_nat n + 1) ltac:(lia)) as [_ Hup].
  assert (Z.log2_up (Z.of_nat n + 1) ≤ 9) as Hnine
    by (apply Z.log2_up_le_pow2; lia).
  rewrite Z2Nat.id by done. lia.
Qed.

Lemma appends_ret : appends (λ _, mret tt) [].
Proof.
  intros h b [bits refs] Hb _. cbn [b_bits b_refs]. rewrite app_nil_r.
  by rewrite list_insert_id.
Qed.

Lemma writeLabel_appends label n :
  (length label ≤ n)%nat → (n ≤ 256)%nat →
  ∃ bs, appends (writeLabel label n) bs ∧ (length bs ≤ 514)%nat.
Proof.
  intros Hlabel Hn.
  destruct (lenLen_bound n (length label) Hlabel Hn) as [Hlen Hnine].
  pose proof (bits_uint_bound label) as Hbits.
  assert (∃ bs, appends (λ to, if decide (0 < length label)%nat
                            then storeUint (bits_uint label) (length label) to
                            else mret tt) bs
                ∧ (length bs ≤ length label)%nat) as (tail & Htail & Hlt).
  { destruct (decide (0 < length label)%nat).
    - eexists. split; [by apply appends_storeUint |]. by rewrite length_uint_bits.
    - exists []. split; [apply appends_ret | cbn; lia]. }
  unfold writeLabel. destruct (detectLabelType label n).
  - eexists. split.
    + unfold writeLabelShort.
      apply (appends_seq _ _ [false]); [apply appends_storeBit |].
      apply (appends_seq _ _ (repeat true (length label)));
        [apply appends_writeBits |].
      apply (appends_seq _ _ [false]); [apply appends_storeBit |].
      exact Htail.
    + rewrite !length_app, repeat_length. cbn [length]. lia.
  - eexists. split.
    + unfold writeLabelLong.
      apply (appends_seq _ _ [true]); [apply appends_storeBit |].
      apply (appends_seq _ _ [false]); [apply appends_storeBit |].
      apply (appends_seq _ _ (uint_bits (lenLen n) (Z.of_nat (length label))));
        [by apply appends_storeUint |].
      exact Htail.
    + rewrite !length_app, length_uint_bits. cbn [length]. lia.
  - eexists. split.
    + unfold writeLabelSame.
      apply (appends_seq _ _ [true]); [apply appends_storeBit |].
      apply (appends_seq _ _ [true]); [apply appends_storeBit |].
      apply (appends_seq _ _ [bool_decide (head label = Some true)]);
        [apply appends_storeBit |].
      by apply appends_storeUint.
    + rewrite !length_app, length_uint_bits. cbn [length]. lia.
Qed.

Lemma writeEdge_framed h0 tree n h :
  writeEdge tree n (length h0) (h0 ++ h) = prefixed h0 (writeEdge tree n 0%nat h).
Proof.
  pose proof (framed_writeEdge (length h0) tree n 0%nat h0 h eq_refl) as Hrun.
  by rewrite Nat.add_0_r in Hrun.
Qed.

Fixpoint writeEdge_ok (tree : Edge) {struct tree} : ∀ n rest,
  wfEdge n tree → (n ≤ 256)%nat →
  ∃ s' extra,
    writeEdge tree n 0%nat (mkBuilder [] [] :: rest) = Ok (tt, (s' :: rest) ++ extra)
    ∧ (length (b_bits s') ≤ 514)%nat ∧ (length (b_refs s') ≤ 2)%nat.
Proof.
  intros n rest Hwf Hn. destruct tree as [label [value|l r]];
    cbn [writeEdge wfEdge] in *; destruct Hwf as [Hlabel Hnode].
  all: destruct (writeLabel_appends label n Hlabel Hn) as (bs & Happ & Hbs).
  all: rewrite run_bind, (Happ (_ :: rest) 0%nat _ eq_refl)
         by (cbn [b_bits length]; unfold CELL_MAX_BITS; lia).
  all: cbn [insert list_insert b_bits b_refs app].
  - erewrite storeRef_run; [| reflexivity | cbn; unfold CELL_MAX_REFS; lia].
    exists (mkBuilder bs [value]), []. rewrite app_nil_r.
    split; [done |]. cbn. lia.
  - destruct Hnode as [Hl Hr].
    destruct (writeEdge_ok l (n - length label - 1)%nat [mkBuilder [] []] Hl
                ltac:(lia)) as (sl & extra1 & Hrunl & Hbl & Hrl).
    destruct (writeEdge_ok r (n - length label - 1)%nat extra1 Hr
                ltac:(lia)) as (sr & extra2 & Hrunr & Hbr & Hrr).
    clear writeEdge_ok.
    remember (mkBuilder bs [] :: rest) as h1 eqn:Hh1.
    rewrite run_bind. unfold beginCell. cbn [newBuilder].
    rewrite run_bind. cbn [newBuilder].
    rewrite run_bind.
    set (e := mkBuilder [] []) in *.
    rewrite <- (app_assoc h1 [e] [e]).
    rewrite (writeEdge_framed h1 l).
    cbn [app]. rewrite Hrunl. cbn [prefixed].
    rewrite run_bind.
    replace (h1 ++ [sl; e] ++ extra1) with ((h1 ++ [sl]) ++ e :: extra1)
      by (by rewrite <- app_assoc).
    replace (length (h1 ++ [e])) with (length (h1 ++ [sl]))
      by (by rewrite !length_app).
    rewrite (writeEdge_framed (h1 ++ [sl]) r).
    rewrite Hrunr. cbn [prefixed].
    rewrite run_bind.
    set (H := (h1 ++ [sl]) ++ (sr :: extra1) ++ extra2).
    assert (H !! 0%nat = Some (mkBuilder bs [])) as H0 by (by subst H h1).
    assert (H !! length h1 = Some sl) as Hleft.
    { subst H. rewrite <- app_assoc. by apply list_lookup_middle. }
    assert (H !! length (h1 ++ [sl]) = Some sr) as Hright.
    { subst H. by apply list_lookup_middle. }
    assert (0 ≠ length (h1 ++ [sl]))%nat as Hne
      by (rewrite length_app; cbn; lia).
    rewrite (storeRefBuilder_run H 0%nat _ (length h1) sl H0 Hleft)
      by (cbn [b_refs length]; unfold CELL_MAX_BITS, CELL_MAX_REFS; lia).
    cbn [b_bits b_refs app].
    erewrite (storeRefBuilder_run _ 0%nat _ (length (h1 ++ [sl])) sr).
    2:{ apply list_lookup_insert_eq. subst H h1. cbn. lia. }
    2:{ by rewrite list_lookup_insert_ne. }
    2-4: cbn [b_refs length]; unfold CELL_MAX_BITS, CELL_MAX_REFS; lia.
    cbn [b_bits b_refs app]. rewrite list_insert_insert_eq.
    exists (mkBuilder bs [mkCell (b_bits sl) (b_refs sl);
                          mkCell (b_bits sr) (b_refs sr)]),
      ([sl] ++ (sr :: extra1) ++ extra2).
    split; [| cbn; lia].
    subst H h1. cbn [insert list_insert app]. by rewrite <- !app_assoc.
Qed.

Lemma serializeKey_ok k :
  length k = 32%nat → serializeKey 32 k = Ok (buffer_bits k).
Proof.
  intros Hk. unfold serializeKey. rewrite Hk.
  rewrite !decide_False by (unfold CELL_MAX_BITS; lia).
  by rewrite take_ge by (rewrite length_buffer_bits; lia).
Qed.

Lemma prepare_ok dict : ∀ acc,
  Forall (λ k, length k = 32%nat) dict.*1 →
  NoDup acc.*1 → Forall (λ key, length key = 256%nat) acc.*1 →
  ∃ prepared, prepare 32 dict acc = Ok prepared
    ∧ NoDup prepared.*1 ∧ Forall (λ key, length key = 256%nat) prepared.*1
    ∧ (dict ≠ [] → prepared ≠ []) ∧ (acc ≠ [] → prepared ≠ []).
Proof.
  induction dict as [|[k v] dict IH]; intros acc Hkeys Hnd Hlen.
  - by exists acc.
  - rewrite fmap_cons in Hkeys. apply Forall_cons in Hkeys as [Hk Hkeys].
    cbn [fst] in Hk. cbn [prepare]. rewrite serializeKey_ok by done.
    destruct (map_set_keys (buffer_bits k) v acc Hnd) as [Hnd' Hin'].
    pose proof (map_set_not_nil (buffer_bits k) v acc) as Hne.
    destruct (IH (map_set (buffer_bits k) v acc)) as (prepared & -> & H1 & H2 & _ & H4);
      [done | done | |].
    { apply Forall_forall. intros key Hkey.
      destruct (Hin' key Hkey) as [->|Hold].
      - rewrite length_buffer_bits. lia.
      - by apply (proj1 (Forall_forall _ _) Hlen). }
    exists prepared. repeat split; try done; intros _; by apply H4.
Qed.

(** The serialisation of a dictionary whose keys have 32 bytes returns
    a cell, whatever the keys and the values. *)
Lemma serializeContent_returns dict :
  Forall (λ k, length k = 32%nat) dict.*1 →
  ∃ c h', serializeContent dict [] = Ok (c, h').
Proof.
  intros Hkeys. unfold serializeContent, beginCell.
  rewrite run_bind. cbn [newBuilder length app].
  rewrite run_bind.
  erewrite (appends_storeInt8 ONCHAIN_CONTENT_PREFIX ltac:(by vm_compute));
    [| reflexivity | vm_compute; lia].
  change (int8_bits ONCHAIN_CONTENT_PREFIX)
    with [false; false; false; false; false; false; false; false].
  cbn [insert list_insert b_bits b_refs app].
  change (KEYLEN / 8)%nat with 32%nat.
  destruct dict as [|kv dict0] eqn:Hdict.
  - cbn [storeDict]. run_step (appends_storeBit false).
    erewrite endCell_run; [by eexists _, _ | reflexivity | len_solve..].
  - cbn [storeDict]. rewrite <- Hdict in *.
    destruct (prepare_ok dict [] Hkeys) as (prepared & Hprep & Hnd & Hlen & Hne & _);
      [constructor | constructor |].
    destruct (buildEdge_ok (S 256) 256 prepared) as (tree & Htree & Hwf);
      [lia | apply Hne; by rewrite Hdict | done | done |].
    destruct (writeEdge_ok tree 256 [] Hwf ltac:(lia))
      as (s' & extra & Hrun & Hbits & Hrefs).
    change (8 * 32)%nat with 256%nat.
    rewrite !run_bind. unfold lift at 1. rewrite Hprep.
    run_deep (appends_storeBit true).
    rewrite ?run_bind. unfold beginCell. cbn [newBuilder length].
    rewrite ?run_bind. unfold lift at 1. rewrite Htree.
    rewrite ?run_bind.
    rewrite (writeEdge_framed [_] tree 256 [_]), Hrun.
    cbn [prefixed app].
    run_deep endCell_run. run_deep storeRef_run.
    erewrite endCell_run; [by eexists _, _ | reflexivity | len_solve..].
Qed.

Lemma dictOf_key_length data :
  Forall (λ k, length k = 32%nat) (dictOf data Dictionary_empty).*1.
Proof.
  apply (dictOf_keys (λ k, length k = 32%nat)); [constructor | constructor |].
  apply Forall_forall. intros kv _. unfold dictKey.
  rewrite length_take, length_sha256. by vm_compute.
Qed.

Lemma getProperty_found_iff k :
  getProperty k ≠ PUndefined ↔ k ∈ JettonMetaDataKeys ∨ k ∈ Object_prototype.
Proof.
  split; [| apply getProperty_found].
  unfold getProperty. intros Hk.
  destruct (map_get k jettonOnChainMetadataSpec) as [e|] eqn:Hget.
  - left. apply map_get_Some_elem in Hget.
    by apply (list_elem_of_fmap_2 fst) in Hget.
  - right. by destruct (decide (k ∈ Object_prototype)).
Qed.

Lemma metadata_keys_found_or_not (data : Entries) :
  Forall (λ kv, getProperty kv.1 ≠ PUndefined) data
  ∨ Exists (λ kv, getProperty kv.1 = PUndefined) data.
Proof.
  induction data as [|kv data IH]; [by left |].
  destruct (getProperty kv.1) eqn:Hp;
    [| | right; by left];
    (destruct IH as [IH|IH]; [left | right; by right]);
    constructor; [by rewrite Hp | done | by rewrite Hp | done].
Qed.

(** X15: when [buildTokenMetadataCell] returns and what it can throw.
    For every mapping, in any store, the function returns a content
    cell exactly when the table lookup finds every key, that is, every
    key is a recognised key or the name of a property of
    [Object.prototype]; and the only error it throws is the
    unsupported-key error, for a key of the mapping that the lookup does
    not find: no value, however long, makes a store of the library
    fail. *)
Theorem buildTokenMetadataCell_returns_iff (data : Entries) (h : Heap) :
  ((∃ c h', buildTokenMetadataCell data h = Ok (c, h'))
   ↔ Forall (λ kv, kv.1 ∈ JettonMetaDataKeys ∨ kv.1 ∈ Object_prototype) data)
  ∧ ∀ e, outcome (buildTokenMetadataCell data h) = Err e →
      ∃ k, e = UnsupportedOnchainKey k ∧ k ∈ data.*1
           ∧ (k ∉ JettonMetaDataKeys) ∧ (k ∉ Object_prototype).
Proof.
  destruct (metadata_keys_found_or_not data) as [Hall|Hex].
  - assert (∃ c h', buildTokenMetadataCell data h = Ok (c, h')) as Hok.
    { rewrite (framed_run _ h (λ n, framed_buildTokenMetadataCell n data)).
      destruct (forEach_metadata_run data Dictionary_empty [] Hall) as (h1 & Hrun).
      destruct (serializeContent_returns _ (dictOf_key_length data))
        as (c & h2 & Hser).
      change (buildTokenMetadataCell data)
        with (buildTokenMetadataDict data ≫= serializeContent).
      unfold buildTokenMetadataDict. rewrite run_bind, Hrun.
      rewrite (framed_run _ ([] ++ h1) (λ n, framed_serializeContent n _)), Hser.
      by eexists _, _. }
    split.
    + split; [intros _ | done].
      eapply Forall_impl; [exact Hall |]. intros kv. apply getProperty_found_iff.
    + intros e He. destruct Hok as (c & h' & Hrun). by rewrite Hrun in He.
  - destruct (forEach_metadata_unsupported data Dictionary_empty h Hex)
      as (k & Hin & Hk & Hrun).
    assert (buildTokenMetadataCell data h = Err (UnsupportedOnchainKey k)) as Herr.
    { unfold buildTokenMetadataCell, buildTokenMetadataDict.
      by rewrite run_bind, Hrun. }
    apply getProperty_undefined in Hk as [Hkeys Hproto].
    split.
    + split.
      * intros (c & h' & Hok). congruence.
      * intros Hall. apply list_elem_of_fmap in Hin as (kv & -> & Hin).
        apply (proj1 (Forall_forall _ _) Hall) in Hin. by destruct Hin.
    + intros e He. rewrite Herr in He. injection He as <-. by exists k.
Qed.
